(** * Graph representations of [graph.py]

    A shallow embedding of the classes [Graph] and [GraphDrawer] of
    [src/graph.py], and the properties of the conversions between the
    neighbourhood matrix, the adjacency list and the incidence matrix.

    Conventions of the embedding:
    - a Python [int] is a [Z]; a Python list is a [list], read with
      [getitem] and written with [setitem], which implement Python's
      indexing (negative indices count from the end, anything else out of
      range raises [IndexError]);
    - a [dict] is an association list in insertion order;
    - an exception is a value of [exn]; a computation that may raise
      returns a [result];
    - a method takes the object ([self]) and returns the object after the
      call together with the outcome of the call;
    - [np.array] follows NumPy 1.24 and later: a ragged nested list raises
      [ValueError]. *)

From Stdlib Require Import ZArith QArith Ascii String DecimalString.
From stdpp Require Import base tactics numbers option list.

#[local] Open Scope string_scope.
#[local] Open Scope Z_scope.

(** ** Exceptions and results

    The exceptions that the program raises or lets through. [OSError]
    stands for the exceptions of the file system ([FileNotFoundError] and
    the like), which [plt.savefig] raises on a file it cannot write. *)

Inductive exn : Type :=
| BadGraphInput (cause : string)
| IndexError
| TypeError (msg : string)
| ValueError
| ZeroDivisionError
| OSError.

Inductive result (A : Type) : Type :=
| Ok (a : A)
| Raise (e : exn).
Arguments Ok {A} a.
Arguments Raise {A} e.

#[global] Instance result_ret : MRet result := fun _ a => Ok a.
#[global] Instance result_bind : MBind result := fun _ _ f r =>
  match r with
  | Ok a => f a
  | Raise e => Raise e
  end.

(** [for x in xs: acc = body(acc, x)], stopping at the first exception. *)
Fixpoint foldM {A B : Type} (body : A → B → result A) (acc : A) (xs : list B)
  : result A :=
  match xs with
  | [] => Ok acc
  | x :: xs' => acc' ← body acc x; foldM body acc' xs'
  end.

(** [[f(x) for x in xs]], stopping at the first exception. *)
Fixpoint forM {A B : Type} (f : A → result B) (xs : list A) : result (list B) :=
  match xs with
  | [] => Ok []
  | x :: xs' => y ← f x; ys ← forM f xs'; Ok (y :: ys)
  end.

(** The text of the exception, as [BadGraphInput.__init__] builds it. *)
Definition BadGraphInput_message (cause : string) : string :=
  ("Graph could not be create due to bad input: " ++ cause)%string.

(** ** Python lists *)

(** The position an index [i] denotes in a list of length [len]. *)
Definition py_index (len : nat) (i : Z) : option nat :=
  if decide (0 ≤ i) then
    if decide (i < Z.of_nat len) then Some (Z.to_nat i) else None
  else
    if decide (- Z.of_nat len ≤ i) then Some (Z.to_nat (Z.of_nat len + i)) else None.

(** [l[i]] *)
Definition getitem {A : Type} (l : list A) (i : Z) : result A :=
  match py_index (length l) i ≫= (l !!.) with
  | Some x => Ok x
  | None => Raise IndexError
  end.

(** [l[i] = x] *)
Definition setitem {A : Type} (l : list A) (i : Z) (x : A) : result (list A) :=
  match py_index (length l) i with
  | Some k => Ok (<[k:=x]> l)
  | None => Raise IndexError
  end.

(** [sum(l)] *)
Definition sum (l : list Z) : Z := foldr Z.add 0 l.

(** [str(n)] for a length. *)
Definition str (n : nat) : string := NilZero.string_of_uint (Nat.to_uint n).

(** [list(enumerate(l))] *)
Definition enumerate {A : Type} (l : list A) : list (nat * A) :=
  zip (seq 0 (length l)) l.

(** ** Matrices *)

Abbreviation Matrix := (list (list Z)).

(** [[[0]*cols for _ in range(rows)]]: the rows are distinct lists, so a
    write to one row is not seen through another. A negative [cols] gives
    empty rows. *)
Definition zeros (rows : nat) (cols : Z) : Matrix :=
  replicate rows (replicate (Z.to_nat cols) 0).

(** [m[r][c] += 1] *)
Definition increment (m : Matrix) (r c : Z) : result Matrix :=
  row ← getitem m r;
  v ← getitem row c;
  row' ← setitem row c (v + 1);
  setitem m r row'.

(** [m[r][c] = v] *)
Definition assign (m : Matrix) (r c : Z) (v : Z) : result Matrix :=
  row ← getitem m r;
  row' ← setitem row c v;
  setitem m r row'.

(** ** The part of NumPy the class uses *)

(** An array of integers of dimension one or two: its shape and, for
    dimension two, its rows. The only array of dimension one that a nested
    list gives is the empty one, of shape [(0,)]. *)
Record ndarray : Type := { shape : list nat; rows : list (list Z) }.

(** [np.array(m)] *)
Definition np_array (m : Matrix) : result ndarray :=
  match m with
  | [] => Ok {| shape := [0%nat]; rows := [] |}
  | r :: _ =>
      if forallb (fun r' => Nat.eqb (length r') (length r)) m
      then Ok {| shape := [length m; length r]; rows := m |}
      else Raise ValueError
  end.

(** Column [j] of a list of rows. *)
Definition column (rs : list (list Z)) (j : nat) : list Z :=
  (fun r => default 0 (r !! j)) <$> rs.

(** [np.transpose(a)] *)
Definition np_transpose (a : ndarray) : ndarray :=
  match shape a with
  | [n; cols] => {| shape := [cols; n]; rows := column (rows a) <$> seq 0 cols |}
  | _ => a
  end.

(** [np.array_equal(a, b)] *)
Definition np_array_equal (a b : ndarray) : bool :=
  bool_decide (shape a = shape b) && bool_decide (rows a = rows b).

(** ** Graph *)

Record Graph : Type := { matrix : option Matrix }.

(** [Graph()] *)
Definition Graph_init : Graph := {| matrix := None |}.

Definition cause_loops : string := "can't have loops".
Definition cause_multiple : string := "can't have multiple edges".
Definition cause_incorrect : string := "incorrect graph".
Definition cause_invalid_edge (count : nat) : string :=
  ("invalid edge, " ++ str count ++ " nodes")%string.

Definition no_len : exn := TypeError "object of type 'NoneType' has no len()".

(** [[m[i][i] for i in range(len(m))]] *)
Definition diagonal (m : Matrix) : result (list Z) :=
  forM (fun i : nat => row ← getitem m (Z.of_nat i); getitem row (Z.of_nat i))
       (seq 0 (length m)).

(** [any(l)] on integers: some element is not zero. *)
Definition any (l : list Z) : bool := existsb (fun v => negb (v =? 0)) l.

(** [Graph.validate] *)
Definition validate (self : Graph) : Graph * result unit :=
  match matrix self with
  | None => (self, Raise no_len)
  | Some m =>
      match diagonal m with
      | Raise e => (self, Raise e)
      | Ok d =>
          if any d then
            ({| matrix := None |}, Raise (BadGraphInput cause_loops))
          else if existsb (fun v => 1 <? v) (concat m) then
            ({| matrix := None |}, Raise (BadGraphInput cause_multiple))
          else
            match np_array m with
            | Raise e => (self, Raise e)
            | Ok a =>
                if negb (np_array_equal (np_transpose a) a) then
                  ({| matrix := None |}, Raise (BadGraphInput cause_incorrect))
                else (self, Ok ())
            end
      end
  end.

(** [Graph.from_neighbourhood_matrix] *)
Definition from_neighbourhood_matrix (self : Graph) (m : Matrix)
  : Graph * result unit :=
  validate {| matrix := Some m |}.

(** [Graph.from_adjacency_list]. The dictionary is a list of its items, in
    insertion order. *)
Abbreviation AdjList := (list (Z * list Z)).

Definition count_neighbours (m : Matrix) (item : Z * list Z) : result Matrix :=
  foldM (fun m neigh => increment m (item.1 - 1) (neigh - 1)) m item.2.

Definition from_adjacency_list (self : Graph) (adj_list : AdjList)
  : Graph * result unit :=
  let node_count := length adj_list in
  let matrix := zeros node_count (Z.of_nat node_count) in
  match foldM count_neighbours matrix adj_list with
  | Raise e => (self, Raise e)
  | Ok matrix => validate {| matrix := Some matrix |}
  end.

(** The indices [i] with [edge[i] == 1], in increasing order. *)
Definition ones (edge : list Z) : list nat :=
  fst <$> filter (fun p => p.2 = 1) (enumerate edge).

(** The body of the loop over the edges of [from_incidence_matrix]. *)
Definition add_edge (m : Matrix) (edge : list Z) : result Matrix :=
  let neigbours := ones edge in
  if decide (length neigbours ≠ 2%nat) then
    Raise (BadGraphInput (cause_invalid_edge (length neigbours)))
  else
    a ← getitem neigbours 0;
    b ← getitem neigbours 1;
    m ← increment m (Z.of_nat a) (Z.of_nat b);
    increment m (Z.of_nat b) (Z.of_nat a).

(** [Graph.from_incidence_matrix] *)
Definition from_incidence_matrix (self : Graph) (inc_matrix : Matrix)
  : Graph * result unit :=
  let node_count := length inc_matrix in
  let matrix := zeros node_count (Z.of_nat node_count) in
  match inc ← np_array inc_matrix; foldM add_edge matrix (rows (np_transpose inc)) with
  | Raise e => (self, Raise e)
  | Ok matrix => validate {| matrix := Some matrix |}
  end.

Definition not_iterable : exn := TypeError "'NoneType' object is not iterable".

(** [Graph.as_neighbourhood_matrix] *)
Definition as_neighbourhood_matrix (self : Graph) : option Matrix := matrix self.

(** [[j+1 for j,v in enumerate(row) if v==1]] *)
Definition neighbours_of (row : list Z) : list Z :=
  (fun j : nat => Z.of_nat j + 1) <$> ones row.

(** [Graph.as_adjacency_list] *)
Definition as_adjacency_list (self : Graph) : result AdjList :=
  match matrix self with
  | None => Raise not_iterable
  | Some m => Ok ((fun p : nat * list Z => (Z.of_nat p.1 + 1, neighbours_of p.2)) <$> enumerate m)
  end.

(** The body of the inner loop of [as_incidence_matrix]: the state is the
    incidence matrix under construction and [current_edge]. *)
Definition mark_edge (m : Matrix) (i : nat) (st : Matrix * Z) (j : nat)
  : result (Matrix * Z) :=
  row ← getitem m (Z.of_nat i);
  v ← getitem row (Z.of_nat j);
  if decide (v = 1) then
    matrix ← assign st.1 (Z.of_nat i) st.2 1;
    matrix ← assign matrix (Z.of_nat j) st.2 1;
    Ok (matrix, st.2 + 1)
  else Ok st.

(** The body of the outer loop: [for j in range(i+1, len(m[0]))]. *)
Definition mark_row (m : Matrix) (st : Matrix * Z) (i : nat) : result (Matrix * Z) :=
  row0 ← getitem m 0;
  foldM (mark_edge m i) st (seq (S i) (length row0 - S i)).

(** [Graph.as_incidence_matrix] *)
Definition as_incidence_matrix (self : Graph) : result Matrix :=
  match matrix self with
  | None => Raise not_iterable
  | Some m =>
      let edge_count := sum (sum <$> m) `div` 2 in
      let node_count := length m in
      let matrix := zeros node_count edge_count in
      st ← foldM (mark_row m) (matrix, 0) (seq 0 (length m - 1));
      Ok st.1
  end.

(** ** GraphDrawer *)

(** The text that the source gives an exception; the texts that the Python
    runtime and NumPy choose are not part of the model. *)
Definition message (e : exn) : option string :=
  match e with
  | BadGraphInput cause => Some (BadGraphInput_message cause)
  | TypeError msg => Some msg
  | _ => None
  end.

(** The part of networkx the drawer uses: a graph is its nodes and its
    edges, in the order of their first insertion. *)
Record nx_Graph : Type := { nx_nodes : list Z; nx_edges : list (Z * Z) }.

Definition nx_empty : nx_Graph := {| nx_nodes := []; nx_edges := [] |}.

Definition nx_add_node (g : nx_Graph) (n : Z) : nx_Graph :=
  if decide (n ∈ nx_nodes g) then g
  else {| nx_nodes := nx_nodes g ++ [n]; nx_edges := nx_edges g |}.

Definition nx_add_edge (g : nx_Graph) (u v : Z) : nx_Graph :=
  let g := nx_add_node (nx_add_node g u) v in
  if decide ((u, v) ∈ nx_edges g ∨ (v, u) ∈ nx_edges g) then g
  else {| nx_nodes := nx_nodes g; nx_edges := nx_edges g ++ [(u, v)] |}.

(** [g.has_edge(u, v)]: the edges of [nx.Graph] have no direction. *)
Definition nx_has_edge (g : nx_Graph) (u v : Z) : Prop :=
  (u, v) ∈ nx_edges g ∨ (v, u) ∈ nx_edges g.

(** An edge without its direction. [nx_edges] records an edge with its ends
    in the order of the call that added it, an order that networkx does not
    keep; [unordered] forgets it. *)
Definition unordered (p : Z * Z) : Z * Z := (Z.min p.1 p.2, Z.max p.1 p.2).

(** The calls to matplotlib and to [nx.draw], in the order they are made.
    The positions that [__make_pos] computes with [math.sin] and [math.cos]
    are floating point and left out; [NxDraw] records the graph drawn. *)
Inductive plt_call : Type :=
| Circle (xy : list Q) (r : Q)
| Subplots
| AddPatch
| NxDraw (g : nx_Graph)
| AxisScaled
| Title (s : string)
| Show
| Savefig (filename : string)
| Clf
| Cla
| Close.

Module GraphDrawer.

Record GraphDrawer : Type :=
  { graph : option nx_Graph; r : Q; xy : list Q; title : string }.

(** [GraphDrawer()]; the numbers [1.] and [0.] are exact. *)
Definition init : GraphDrawer :=
  {| graph := None; r := 1%Q; xy := [0%Q; 0%Q]; title := EmptyString |}.

(** The loop of [parse] over the items of the adjacency list. *)
Definition add_item (g : nx_Graph) (item : Z * list Z) : nx_Graph :=
  match item.2 with
  | [] => nx_add_node g item.1
  | neighs => foldl (fun g neigh => nx_add_edge g item.1 neigh) g neighs
  end.

(** [GraphDrawer.parse]: the drawer after the call, which is also what
    the call returns. *)
Definition parse (self : GraphDrawer) (g : Graph) : GraphDrawer * result unit :=
  match as_adjacency_list g with
  | Raise e => (self, Raise e)
  | Ok adj_list =>
      ({| graph := Some (foldl add_item nx_empty adj_list);
          r := r self; xy := xy self; title := title self |}, Ok ())
  end.

(** [GraphDrawer.with_title] *)
Definition with_title (self : GraphDrawer) (t : string) : GraphDrawer :=
  {| graph := graph self; r := r self; xy := xy self; title := t |}.

(** [GraphDrawer.__draw]: the calls made, and the outcome. [__make_pos]
    divides by the number of nodes before [nx.draw] is called. *)
Definition draw (self : GraphDrawer) : list plt_call * result unit :=
  match graph self with
  | None => ([], Raise (TypeError "Graph to draw is None"))
  | Some g =>
      let patch := [Circle (xy self) (r self); Subplots; AddPatch] in
      match nx_nodes g with
      | [] => (patch, Raise ZeroDivisionError)
      | _ => ((patch ++ [NxDraw g; AxisScaled; Title (title self)])%list, Ok ())
      end
  end.

(** [GraphDrawer.__plt_close] *)
Definition plt_close : list plt_call := [Clf; Cla; Close].

(** [GraphDrawer.to_screen] *)
Definition to_screen (self : GraphDrawer) : list plt_call * result unit :=
  match draw self with
  | (calls, Raise e) => (calls, Raise e)
  | (calls, Ok _) => ((calls ++ [Show] ++ plt_close)%list, Ok ())
  end.

(** [GraphDrawer.to_file]. [plt.savefig] writes the figure or raises, for
    instance [ValueError] on a format it does not support and [OSError] on
    a directory that does not exist; its outcome on a file name is the
    parameter [savefig]. An exception of [plt.savefig] leaves the method
    before [__plt_close] is called. *)
Definition to_file (savefig : string → result unit)
    (self : GraphDrawer) (filename : string) : list plt_call * result unit :=
  match draw self with
  | (calls, Raise e) => (calls, Raise e)
  | (calls, Ok _) =>
      match savefig filename with
      | Raise e => ((calls ++ [Savefig filename])%list, Raise e)
      | Ok _ => ((calls ++ [Savefig filename] ++ plt_close)%list, Ok ())
      end
  end.

(** A drawer on which [parse] was never called. *)
Inductive never_parsed : GraphDrawer → Prop :=
| never_parsed_init : never_parsed init
| never_parsed_with_title self t :
    never_parsed self → never_parsed (with_title self t).

End GraphDrawer.

(** ** Notions used in the statements *)

(** The entry [m[i][j]], and [0] where there is none. *)
Definition cell (m : Matrix) (i j : nat) : Z := default 0 (m !! i ≫= (.!! j)).

(** [m] has [n] rows of [c] columns each. *)
Definition rect (n c : nat) (m : Matrix) : Prop :=
  length m = n ∧ Forall (fun r => length r = c) m.

(** The matrix of [n] rows and [c] columns with entry [f i j] at [i], [j]. *)
Definition tabulate (n c : nat) (f : nat → nat → Z) : Matrix :=
  (fun i => f i <$> seq 0 c) <$> seq 0 n.

(** Writing [v] at row [i], column [j] of a table. *)
Definition update (f : nat → nat → Z) (i j : nat) (v : Z) : nat → nat → Z :=
  fun a b => if decide (a = i ∧ b = j) then v else f a b.

(** What [validate] checks of a matrix [m]: it is square, its diagonal is
    zero, no entry exceeds one, and it is symmetric. *)
Record checked (m : Matrix) : Prop := {
  checked_square : rect (length m) (length m) m;
  checked_diagonal : ∀ i, (i < length m)%nat → cell m i i = 0;
  checked_le_1 : ∀ i j, (i < length m)%nat → (j < length m)%nat → cell m i j ≤ 1;
  checked_symmetric :
    ∀ i j, (i < length m)%nat → (j < length m)%nat → cell m i j = cell m j i
}.

(** Every entry of [m] is [0] or [1]. *)
Definition binary (m : Matrix) : Prop :=
  ∀ i j, (i < length m)%nat → (j < length m)%nat → cell m i j = 0 ∨ cell m i j = 1.

(** The three invariants of the data model, on a square matrix: no loops,
    no multiple edges, symmetry. *)
Definition valid (m : Matrix) : Prop := checked m ∧ binary m.

(** How many times [x] occurs in [l]. *)
Definition occurrences {A} `{EqDecision A} (x : A) (l : list A) : Z :=
  Z.of_nat (length (filter (x =.) l)).

(** How many times the adjacency list has node [i+1] list [j+1]. *)
Definition listed (adj_list : AdjList) (i j : nat) : Z :=
  sum ((fun item : Z * list Z =>
          if decide (item.1 = Z.of_nat i + 1)
          then occurrences (Z.of_nat j + 1) item.2 else 0) <$> adj_list).

(** Every node label and every neighbour label is one of [1..n], [n] being
    the number of keys. *)
Definition labels_in_range (adj_list : AdjList) : Prop :=
  let n := Z.of_nat (length adj_list) in
  Forall (fun item : Z * list Z =>
            (1 ≤ item.1 ≤ n) ∧ Forall (fun neigh => 1 ≤ neigh ≤ n) item.2) adj_list.

(** The label that a neighbour label in [1-n..0] stands for under Python's
    negative indexing, on [n] nodes. *)
Definition wrap_label (n : Z) (neigh : Z) : Z :=
  if decide (- n < neigh ≤ 0) then neigh + n else neigh.

Definition wrap_labels (adj_list : AdjList) : AdjList :=
  (fun item : Z * list Z =>
     (item.1, wrap_label (Z.of_nat (length adj_list)) <$> item.2)) <$> adj_list.

(** Some node lists itself as a neighbour. *)
Definition lists_itself (adj_list : AdjList) : Prop :=
  Exists (fun item : Z * list Z => item.1 ∈ item.2) adj_list.

(** Some node lists a neighbour more than once. *)
Definition lists_twice (adj_list : AdjList) : Prop :=
  Exists (fun item : Z * list Z => ¬ NoDup item.2) adj_list.

#[global] Instance lists_itself_dec adj_list : Decision (lists_itself adj_list) :=
  Exists_dec (fun item : Z * list Z => item.1 ∈ item.2) adj_list.

#[global] Instance lists_twice_dec adj_list : Decision (lists_twice adj_list) :=
  Exists_dec (fun item : Z * list Z => ¬ NoDup item.2) adj_list.

(** The three construction paths, with their input. *)
Inductive construction : Type :=
| FromNeighbourhoodMatrix (m : Matrix)
| FromAdjacencyList (adj_list : AdjList)
| FromIncidenceMatrix (inc_matrix : Matrix).

Definition construct (self : Graph) (c : construction) : Graph * result unit :=
  match c with
  | FromNeighbourhoodMatrix m => from_neighbourhood_matrix self m
  | FromAdjacencyList adj_list => from_adjacency_list self adj_list
  | FromIncidenceMatrix inc_matrix => from_incidence_matrix self inc_matrix
  end.

(** The number of entries of an edge column that are equal to 1. *)
Definition count_ones (edge : list Z) : nat := length (filter (fun v => v = 1) edge).

(** The upper triangle of an [n×n] matrix in row-major order: [i] from [0]
    to [n-2], [j] from [i+1] to [n-1]. *)
Definition upper_triangle (n : nat) : list (nat * nat) :=
  seq 0 (n - 1) ≫= fun i => pair i <$> seq (S i) (n - S i).

(** The [1]-entries of the upper triangle of [m], in the order of the scan:
    the entry at position [c] of this list is the one that is given the
    column [c]. *)
Definition upper_edges (m : Matrix) : list (nat * nat) :=
  filter (fun p => cell m p.1 p.2 = 1) (upper_triangle (length m)).

(** The entry at row [r], column [c] of the incidence matrix whose column
    [c] is the edge at position [c] of [es]: [1] at the two ends of the edge
    and [0] elsewhere. *)
Definition incidence_entry (es : list (nat * nat)) (r c : nat) : Z :=
  match es !! c with
  | Some p => if decide (r = p.1 ∨ r = p.2) then 1 else 0
  | None => 0
  end.

Definition incidence (n e : nat) (es : list (nat * nat)) : Matrix :=
  tabulate n e (incidence_entry es).

(** The column of the edge [p]: a one at its two ends. *)
Definition edge_column (n : nat) (p : nat * nat) : list Z :=
  (fun r => if decide (r = p.1 ∨ r = p.2) then 1 else 0) <$> seq 0 n.

(** An entry as the accessors and [from_incidence_matrix] read it: they
    test [== 1], so an entry is a one or it is not. *)
Definition clip_entry (v : Z) : Z := if decide (v = 1) then 1 else 0.

Definition clip (m : Matrix) : Matrix :=
  (fun row : list Z => clip_entry <$> row) <$> m.

(** The edges that [from_incidence_matrix] iterates over when the rows have
    equal length: the columns, from left to right. *)
Definition columns (inc_matrix : Matrix) : list (list Z) :=
  match inc_matrix with
  | [] => []
  | row :: _ => column inc_matrix <$> seq 0 (length row)
  end.

(** The pairs (node label, neighbour label) of an adjacency list, in the
    order in which [from_adjacency_list] meets them. *)
Definition listings (adj_list : AdjList) : list (Z * Z) :=
  adj_list ≫= fun item => pair item.1 <$> item.2.

(** The cell that the listing (node, neigh) increments on [n] nodes, when
    both of its indices exist. *)
Definition listing_cell (n : nat) (p : Z * Z) : option (nat * nat) :=
  i ← py_index n (p.1 - 1); j ← py_index n (p.2 - 1); Some (i, j).

(** ** Reading from files

    [_get_lines] returns the lines of the file; the constructors below take
    these lines. Python's [int] on a string is a parameter of the model: the
    properties hold whatever it accepts. *)

(** [s.split(sep)] for a separator of one character: the pieces between
    the occurrences of [sep], empty pieces included. *)
Fixpoint split (sep : ascii) (s : string) : list string :=
  match s with
  | EmptyString => [EmptyString]
  | String c s' =>
      if Ascii.eqb c sep then EmptyString :: split sep s'
      else match split sep s' with
           | piece :: pieces => String c piece :: pieces
           | [] => [String c EmptyString]
           end
  end.

(** [[int(val) for val in line.split(' ')]] *)
Definition parse_row (int : string → result Z) (line : string) : result (list Z) :=
  forM int (split " " line).

(** [[[int(val) for val in line.split(' ')] for line in input]] *)
Definition parse_matrix (int : string → result Z) (lines : list string)
  : result Matrix :=
  forM (parse_row int) lines.

(** [Graph.from_neighbourhood_matrix_file] *)
Definition from_neighbourhood_matrix_file (int : string → result Z)
    (self : Graph) (lines : list string) : Graph * result unit :=
  match parse_matrix int lines with
  | Raise e => (self, Raise e)
  | Ok m => from_neighbourhood_matrix self m
  end.

(** [Graph.from_incidence_matrix_file] *)
Definition from_incidence_matrix_file (int : string → result Z)
    (self : Graph) (lines : list string) : Graph * result unit :=
  match parse_matrix int lines with
  | Raise e => (self, Raise e)
  | Ok inc_matrix => from_incidence_matrix self inc_matrix
  end.

(** [d[k] = v] on a dictionary: the value of a key that is present is
    replaced where the key stands, a new key is added at the end. *)
Definition dict_set (d : AdjList) (k : Z) (v : list Z) : AdjList :=
  if decide (k ∈ d.*1)
  then (fun item : Z * list Z => if decide (item.1 = k) then (k, v) else item) <$> d
  else d ++ [(k, v)].

(** The key and the value that a line of an adjacency-list file gives:
    [index, rest = line.split(':')] needs exactly two pieces, and the value
    [[int(v) for v in rest.split(' ')]] is computed before the key
    [int(index)]. *)
Definition adjacency_item (int : string → result Z) (line : string)
  : result (Z * list Z) :=
  match split ":" line with
  | [index; rest] =>
      neighbours ← forM int (split " " rest);
      k ← int index;
      Ok (k, neighbours)
  | _ => Raise ValueError
  end.

(** The dictionary that the loop of [from_adjacency_list_file] builds. *)
Definition parse_adjacency (int : string → result Z) (lines : list string)
  : result AdjList :=
  foldM (fun d line => item ← adjacency_item int line;
                       Ok (dict_set d item.1 item.2)) [] lines.

(** [Graph.from_adjacency_list_file] *)
Definition from_adjacency_list_file (int : string → result Z)
    (self : Graph) (lines : list string) : Graph * result unit :=
  match parse_adjacency int lines with
  | Raise e => (self, Raise e)
  | Ok adj_list => from_adjacency_list self adj_list
  end.

(** The number of occurrences of a character in a string. *)
Fixpoint count_char (c : ascii) (s : string) : nat :=
  match s with
  | EmptyString => 0
  | String c' s' => (if Ascii.eqb c' c then 1 else 0) + count_char c s'
  end.

(** [int] on the strings of decimal digits, where it is the number written;
    Python's [int] accepts other strings too (a sign, white space around the
    number, underscores between digits), on which this instance raises
    [ValueError]. It stands for [int] in the examples, whose lines are
    written without the line end that [int] skips. *)
Definition int_of_digits (s : string) : result Z :=
  match NilZero.uint_of_string s with
  | Some d => Ok (Z.of_uint d)
  | None => Raise ValueError
  end.

(** * Properties *)

(** ** Python lists at natural indices *)

Lemma py_index_nat (len k : nat) :
  py_index len (Z.of_nat k) = if decide (k < len)%nat then Some k else None.
Proof.
  unfold py_index. rewrite decide_True by lia.
  repeat case_decide; try lia; [by rewrite Nat2Z.id | done].
Qed.

Lemma getitem_nat {A} (l : list A) (k : nat) :
  getitem l (Z.of_nat k) =
    match l !! k with Some x => Ok x | None => Raise IndexError end.
Proof.
  unfold getitem. rewrite py_index_nat. case_decide; simpl; [done|].
  by rewrite lookup_ge_None_2 by lia.
Qed.

Lemma getitem_lookup {A} (l : list A) (k : nat) x :
  l !! k = Some x → getitem l (Z.of_nat k) = Ok x.
Proof. intros H. by rewrite getitem_nat, H. Qed.

Lemma setitem_nat {A} (l : list A) (k : nat) x :
  (k < length l)%nat → setitem l (Z.of_nat k) x = Ok (<[k:=x]> l).
Proof. intros H. unfold setitem. by rewrite py_index_nat, decide_True. Qed.

Lemma setitem_nat_ge {A} (l : list A) (k : nat) x :
  (length l ≤ k)%nat → setitem l (Z.of_nat k) x = Raise IndexError.
Proof. intros H. unfold setitem. by rewrite py_index_nat, decide_False by lia. Qed.

(** ** Matrices as tables *)

Lemma length_tabulate n c f : length (tabulate n c f) = n.
Proof. unfold tabulate. by rewrite length_fmap, length_seq. Qed.

Lemma tabulate_lookup n c f i :
  (i < n)%nat → tabulate n c f !! i = Some (f i <$> seq 0 c).
Proof.
  intros H. unfold tabulate. by rewrite list_lookup_fmap, lookup_seq_lt.
Qed.

Lemma fmap_seq_lookup {A} (h : nat → A) c j :
  (j < c)%nat → (h <$> seq 0 c) !! j = Some (h j).
Proof. intros H. by rewrite list_lookup_fmap, lookup_seq_lt. Qed.

Lemma cell_tabulate n c f i j :
  (i < n)%nat → (j < c)%nat → cell (tabulate n c f) i j = f i j.
Proof.
  intros Hi Hj. unfold cell. rewrite tabulate_lookup by done. simpl.
  by rewrite fmap_seq_lookup.
Qed.

Lemma fmap_seq_ext {A} (g h : nat → A) c :
  (∀ j, (j < c)%nat → g j = h j) → g <$> seq 0 c = h <$> seq 0 c.
Proof.
  intros H. apply list_fmap_ext. intros i x Hx.
  apply lookup_seq in Hx as [-> ?]. by apply H.
Qed.

Lemma tabulate_ext n c f g :
  (∀ i j, (i < n)%nat → (j < c)%nat → f i j = g i j) →
  tabulate n c f = tabulate n c g.
Proof.
  intros H. unfold tabulate. apply fmap_seq_ext. intros i Hi.
  apply fmap_seq_ext. intros j Hj. by apply H.
Qed.

Lemma rect_tabulate n c f : rect n c (tabulate n c f).
Proof.
  split; [apply length_tabulate|]. unfold tabulate.
  apply Forall_fmap, Forall_forall. intros i _. simpl.
  by rewrite length_fmap, length_seq.
Qed.

Lemma rect_lookup n c m i :
  rect n c m → (i < n)%nat → ∃ r, m !! i = Some r ∧ length r = c.
Proof.
  intros [Hn Hc] Hi. destruct (lookup_lt_is_Some_2 m i) as [r Hr]; [lia|].
  exists r. split; [done|]. by eapply (Forall_lookup_1 _ _ _ _ Hc).
Qed.

Lemma tabulate_cell n c m : rect n c m → m = tabulate n c (cell m).
Proof.
  intros Hm. apply list_eq. intros i.
  destruct (decide (i < n)%nat) as [Hi|Hi].
  - rewrite tabulate_lookup by done.
    destruct (rect_lookup _ _ _ _ Hm Hi) as (r & Hr & Hlen). rewrite Hr. f_equal.
    apply list_eq. intros j. destruct (decide (j < c)%nat) as [Hj|Hj].
    + rewrite fmap_seq_lookup by done. unfold cell. rewrite Hr. simpl.
      destruct (lookup_lt_is_Some_2 r j) as [v Hv]; [lia|]. by rewrite Hv.
    + rewrite !lookup_ge_None_2; [done| |lia]. rewrite length_fmap, length_seq. lia.
  - destruct Hm as [Hn _].
    rewrite !lookup_ge_None_2; [done| |lia]. rewrite length_tabulate. lia.
Qed.

Lemma zeros_tabulate n c : zeros n (Z.of_nat c) = tabulate n c (fun _ _ => 0).
Proof.
  unfold zeros, tabulate. rewrite Nat2Z.id.
  apply list_eq. intros i. destruct (decide (i < n)%nat) as [Hi|Hi].
  - rewrite lookup_replicate_2, fmap_seq_lookup by done. f_equal.
    apply list_eq. intros j. destruct (decide (j < c)%nat) as [Hj|Hj].
    + by rewrite lookup_replicate_2, fmap_seq_lookup.
    + rewrite !lookup_ge_None_2; [done| |].
      * rewrite length_fmap, length_seq. lia.
      * rewrite length_replicate. lia.
  - rewrite !lookup_ge_None_2; [done| |].
    + rewrite length_fmap, length_seq. lia.
    + rewrite length_replicate. lia.
Qed.

Lemma insert_fmap_seq {A} (h : nat → A) c j v :
  <[j:=v]> (h <$> seq 0 c) = (fun b => if decide (b = j) then v else h b) <$> seq 0 c.
Proof.
  apply list_eq. intros b. destruct (decide (b < c)%nat) as [Hb|Hb].
  - rewrite fmap_seq_lookup by done. case_decide as Hbj.
    + subst. rewrite list_lookup_insert_eq; [done|].
      rewrite length_fmap, length_seq. lia.
    + rewrite list_lookup_insert_ne by done. by rewrite fmap_seq_lookup.
  - rewrite !lookup_ge_None_2; [done| |].
    + rewrite length_fmap, length_seq. lia.
    + rewrite length_insert, length_fmap, length_seq. lia.
Qed.

Lemma insert_tabulate n c f i j v :
  <[i:=<[j:=v]> (f i <$> seq 0 c)]> (tabulate n c f) = tabulate n c (update f i j v).
Proof.
  unfold tabulate at 1. rewrite insert_fmap_seq. apply fmap_seq_ext. intros a Ha.
  simpl. unfold update. case_decide as Hai.
  - subst. rewrite insert_fmap_seq. apply fmap_seq_ext. intros b Hb.
    repeat case_decide; intuition congruence.
  - apply fmap_seq_ext. intros b Hb. rewrite decide_False; intuition congruence.
Qed.

Lemma increment_tabulate n c f i j :
  (i < n)%nat → (j < c)%nat →
  increment (tabulate n c f) (Z.of_nat i) (Z.of_nat j)
  = Ok (tabulate n c (update f i j (f i j + 1))).
Proof.
  intros Hi Hj. unfold increment.
  rewrite (getitem_lookup _ _ _ (tabulate_lookup n c f i Hi)). simpl.
  rewrite (getitem_lookup _ _ _ (fmap_seq_lookup (f i) c j Hj)). simpl.
  rewrite setitem_nat by (rewrite length_fmap, length_seq; lia). simpl.
  rewrite setitem_nat by (rewrite length_tabulate; lia).
  by rewrite insert_tabulate.
Qed.

Lemma assign_tabulate n c f i j v :
  (i < n)%nat → (j < c)%nat →
  assign (tabulate n c f) (Z.of_nat i) (Z.of_nat j) v
  = Ok (tabulate n c (update f i j v)).
Proof.
  intros Hi Hj. unfold assign.
  rewrite (getitem_lookup _ _ _ (tabulate_lookup n c f i Hi)). simpl.
  rewrite setitem_nat by (rewrite length_fmap, length_seq; lia). simpl.
  rewrite setitem_nat by (rewrite length_tabulate; lia).
  by rewrite insert_tabulate.
Qed.

(** ** Loops with exceptions *)

Lemma forM_Ok_fmap {A B} (f : A → result B) (g : A → B) (xs : list A) :
  (∀ x, x ∈ xs → f x = Ok (g x)) → forM f xs = Ok (g <$> xs).
Proof.
  induction xs as [|x xs IH]; intros H; simpl; [done|].
  rewrite H by left. simpl. rewrite IH; [done|].
  intros y Hy. apply H. by right.
Qed.

Lemma forM_Ok_inv {A B} (f : A → result B) (xs : list A) (ys : list B) :
  forM f xs = Ok ys → Forall2 (fun x y => f x = Ok y) xs ys.
Proof.
  revert ys. induction xs as [|x xs IH]; intros ys; simpl.
  - intros [= <-]. constructor.
  - destruct (f x) as [y|e] eqn:Hx; simpl; [|done].
    destruct (forM f xs) as [ys'|e] eqn:Hxs; simpl; [|done].
    intros [= <-]. constructor; [done|]. by apply IH.
Qed.

Lemma forM_Raise_inv {A B} (f : A → result B) (xs : list A) e :
  forM f xs = Raise e → ∃ x, x ∈ xs ∧ f x = Raise e.
Proof.
  induction xs as [|x xs IH]; simpl; [done|].
  destruct (f x) as [y|e'] eqn:Hx; simpl.
  - destruct (forM f xs) as [ys'|e'] eqn:Hxs; simpl; [done|].
    intros [= ->]. destruct IH as (x' & ? & ?); [done|].
    exists x'. split; [by right|done].
  - intros [= ->]. exists x. split; [by left|done].
Qed.

Lemma foldM_app {A B} (body : A → B → result A) acc (xs ys : list B) :
  foldM body acc (xs ++ ys) = acc' ← foldM body acc xs; foldM body acc' ys.
Proof.
  revert acc. induction xs as [|x xs IH]; intros acc; simpl; [done|].
  destruct (body acc x); simpl; [apply IH|done].
Qed.

(** A loop keeps what each of its steps keeps, and raises only what a step
    raises. *)
Lemma foldM_invariant {A B} (P : A → Prop) (E : exn → Prop)
    (body : A → B → result A) (xs : list B) acc :
  (∀ a x, x ∈ xs → P a →
     match body a x with Ok a' => P a' | Raise e => E e end) →
  P acc →
  match foldM body acc xs with Ok a' => P a' | Raise e => E e end.
Proof.
  revert acc. induction xs as [|x xs IH]; intros acc Hbody Hacc; simpl; [done|].
  pose proof (Hbody acc x ltac:(left) Hacc) as Hx.
  destruct (body acc x) as [a'|e]; simpl; [|done].
  apply IH; [|done]. intros a y Hy. apply Hbody. by right.
Qed.

(** ** What [validate] accepts *)

Lemma any_false (l : list Z) : any l = false ↔ Forall (fun v => v = 0) l.
Proof.
  unfold any. induction l as [|v l IH]; simpl; [by split; [constructor|]|].
  rewrite Forall_cons. destruct (Z.eqb_spec v 0) as [->|Hv]; simpl.
  - rewrite IH. tauto.
  - split; [done|]. tauto.
Qed.

Lemma exceeds_false (l : list Z) :
  existsb (fun v => 1 <? v) l = false ↔ Forall (fun v => v ≤ 1) l.
Proof.
  induction l as [|v l IH]; simpl; [by split; [constructor|]|].
  rewrite Forall_cons. destruct (Z.ltb_spec 1 v) as [Hv|Hv]; simpl.
  - split; [done|]. lia.
  - rewrite IH. tauto.
Qed.

Lemma diagonal_inv (m : Matrix) d i :
  diagonal m = Ok d → (i < length m)%nat → d !! i = Some (cell m i i).
Proof.
  intros Hd Hi. apply forM_Ok_inv in Hd.
  destruct (Forall2_lookup_l _ _ _ i i Hd) as (v & Hv & Hget);
    [by apply lookup_seq_lt|].
  rewrite Hv. f_equal. revert Hget. rewrite getitem_nat. unfold cell.
  destruct (m !! i) as [r|]; simpl; [|done].
  rewrite getitem_nat. destruct (r !! i); simpl; congruence.
Qed.

Lemma diagonal_tabulate n f :
  diagonal (tabulate n n f) = Ok ((fun i => f i i) <$> seq 0 n).
Proof.
  unfold diagonal. rewrite length_tabulate. apply forM_Ok_fmap.
  intros i Hi. apply elem_of_seq in Hi.
  rewrite (getitem_lookup _ _ _ (tabulate_lookup n n f i ltac:(lia))). simpl.
  apply getitem_lookup, fmap_seq_lookup. lia.
Qed.

Lemma cell_le_1 (m : Matrix) i j :
  Forall (fun v => v ≤ 1) (concat m) → cell m i j ≤ 1.
Proof.
  intros H. unfold cell. destruct (m !! i) as [r|] eqn:Hr; simpl; [|done].
  destruct (r !! j) as [v|] eqn:Hv; simpl; [|done].
  rewrite Forall_concat in H.
  eapply (Forall_lookup_1 _ _ _ _ (Forall_lookup_1 _ _ _ _ H Hr) Hv).
Qed.

Lemma tabulate_le_1 n c f :
  (∀ i j, (i < n)%nat → (j < c)%nat → f i j ≤ 1) →
  Forall (fun v => v ≤ 1) (concat (tabulate n c f)).
Proof.
  intros H. apply Forall_concat, Forall_fmap, Forall_forall. intros i Hi. simpl.
  apply Forall_fmap, Forall_forall. intros j Hj. simpl.
  apply elem_of_seq in Hi, Hj. apply H; lia.
Qed.

Lemma np_array_inv (m : Matrix) a :
  np_array m = Ok a →
  (m = [] ∧ a = {| shape := [0%nat]; rows := [] |})
  ∨ (∃ c, m ≠ [] ∧ rect (length m) c m ∧ a = {| shape := [length m; c]; rows := m |}).
Proof.
  destruct m as [|r m]; simpl; [intros [= <-]; by left|].
  destruct (_ && _) eqn:Hall; [|done]. intros [= <-]. right.
  exists (length r). split; [done|]. split; [|done]. split; [done|].
  change (forallb (fun r' => Nat.eqb (length r') (length r)) (r :: m) = true) in Hall.
  rewrite forallb_forall in Hall. apply Forall_forall. intros r' Hr'.
  apply Nat.eqb_eq, Hall. by apply list_elem_of_In.
Qed.

Lemma np_array_rect n c (m : Matrix) :
  rect n c m → m ≠ [] → np_array m = Ok {| shape := [n; c]; rows := m |}.
Proof.
  intros [Hn Hc] Hne. destruct m as [|r m]; [done|]. unfold np_array.
  assert (length r = c) as Hr by (by inversion Hc).
  rewrite (proj2 (forallb_forall _ _)); [by rewrite Hn, Hr|].
  intros r' Hr'. apply Nat.eqb_eq. apply list_elem_of_In in Hr'.
  rewrite Forall_forall in Hc. rewrite Hr. by apply Hc.
Qed.

Lemma column_tabulate n c f j :
  (j < c)%nat → column (tabulate n c f) j = (fun i => f i j) <$> seq 0 n.
Proof.
  intros Hj. unfold column, tabulate. rewrite <- list_fmap_compose.
  apply fmap_seq_ext. intros i Hi. simpl. by rewrite fmap_seq_lookup.
Qed.

(** The rows of the transpose of a table are the table of its columns. *)
Lemma transpose_tabulate n c f :
  column (tabulate n c f) <$> seq 0 c = tabulate c n (fun j i => f i j).
Proof.
  unfold tabulate at 2. apply fmap_seq_ext. intros j Hj. by apply column_tabulate.
Qed.

Lemma tabulate_inj n c f g :
  tabulate n c f = tabulate n c g →
  ∀ i j, (i < n)%nat → (j < c)%nat → f i j = g i j.
Proof.
  intros H i j Hi Hj.
  by rewrite <- (cell_tabulate n c f i j), <- (cell_tabulate n c g i j), H.
Qed.

Lemma validate_checked (m : Matrix) :
  checked m → validate {| matrix := Some m |} = ({| matrix := Some m |}, Ok ()).
Proof.
  intros [Hsq Hdiag Hle Hsym]. set (n := length m) in *.
  rewrite (tabulate_cell n n m Hsq). unfold validate. simpl.
  rewrite diagonal_tabulate.
  rewrite (proj2 (any_false _)); last first.
  { apply Forall_fmap, Forall_forall. intros i Hi. simpl.
    apply elem_of_seq in Hi. apply Hdiag. lia. }
  rewrite (proj2 (exceeds_false _)) by (by apply tabulate_le_1).
  destruct (decide (n = 0%nat)) as [->|Hn]; [done|].
  rewrite (np_array_rect n n); [|apply rect_tabulate|by destruct n].
  unfold np_transpose, np_array_equal. simpl. rewrite transpose_tabulate.
  rewrite (tabulate_ext n n (fun j i => cell m i j) (cell m)) by (intros; by apply Hsym).
  by rewrite !bool_decide_eq_true_2.
Qed.

Lemma validate_Ok_inv (self self' : Graph) :
  validate self = (self', Ok ()) →
  self' = self ∧ ∃ m, matrix self = Some m ∧ checked m.
Proof.
  unfold validate. destruct self as [[m|]]; simpl; [|done].
  destruct (diagonal m) as [d|] eqn:Hd; [|done].
  destruct (any d) eqn:Hany; [done|].
  destruct (existsb _ _) eqn:Hex; [done|].
  destruct (np_array m) as [a|] eqn:Ha; [|done].
  destruct (negb _) eqn:Heq; [done|]. intros [= <-]. split; [done|].
  exists m. split; [done|].
  apply negb_false_iff, andb_true_iff in Heq as [Hshape Hrows].
  apply bool_decide_eq_true in Hshape, Hrows.
  apply any_false in Hany. apply exceeds_false in Hex.
  assert (rect (length m) (length m) m ∧
          ∀ i j, (i < length m)%nat → (j < length m)%nat → cell m i j = cell m j i)
    as [Hsq Hsym].
  { apply np_array_inv in Ha as [[-> ->]|(c & Hne & Hrect & ->)].
    - split; [by split|]. simpl. lia.
    - unfold np_transpose in *. simpl in *.
      injection Hshape as ->. split; [done|].
      rewrite (tabulate_cell _ _ m Hrect) in Hrows at 1 3.
      rewrite transpose_tabulate in Hrows. intros i j Hi Hj.
      by apply (tabulate_inj _ _ _ _ Hrows j i). }
  split; [done| | |done].
  - intros i Hi. pose proof (diagonal_inv m d i Hd Hi) as Hv.
    by eapply (Forall_lookup_1 _ _ _ _ Hany Hv).
  - intros i j _ _. by apply cell_le_1.
Qed.

(** ** One increment *)

Lemma py_index_Some len i k :
  py_index len i = Some k →
  (k < len)%nat ∧ - Z.of_nat len ≤ i < Z.of_nat len.
Proof. unfold py_index. repeat case_decide; intros [= <-]; lia. Qed.

Lemma py_index_None len i :
  py_index len i = None → i < - Z.of_nat len ∨ Z.of_nat len ≤ i.
Proof. unfold py_index. repeat case_decide; intros [=]; lia. Qed.

Lemma py_index_wrap len i :
  - Z.of_nat len ≤ i < 0 → py_index len i = py_index len (i + Z.of_nat len).
Proof.
  intros Hi. unfold py_index. repeat case_decide; try lia. f_equal. lia.
Qed.

Lemma getitem_Ok_inv {A} (l : list A) i x :
  getitem l i = Ok x → ∃ k, py_index (length l) i = Some k ∧ l !! k = Some x.
Proof.
  unfold getitem. destruct (py_index _ _) as [k|]; simpl; [|done].
  destruct (l !! k) eqn:Hk; [|done]. intros [= <-]. by exists k.
Qed.

Lemma getitem_Raise_inv {A} (l : list A) i e :
  getitem l i = Raise e →
  e = IndexError ∧ (i < - Z.of_nat (length l) ∨ Z.of_nat (length l) ≤ i).
Proof.
  unfold getitem. destruct (py_index _ _) as [k|] eqn:Hk; simpl.
  - apply py_index_Some in Hk as [Hk _].
    destruct (lookup_lt_is_Some_2 l k Hk) as [x ->]. done.
  - intros [= <-]. split; [done|]. by apply py_index_None.
Qed.

Lemma setitem_Ok_inv {A} (l : list A) i x l' :
  setitem l i x = Ok l' → ∃ k, py_index (length l) i = Some k ∧ l' = <[k:=x]> l.
Proof.
  unfold setitem. destruct (py_index _ _) as [k|]; [|done].
  intros [= <-]. by exists k.
Qed.

(** An increment that returns has added one to one entry. *)
Lemma increment_Ok_inv (m m' : Matrix) r c :
  increment m r c = Ok m' →
  ∃ i j row v,
    py_index (length m) r = Some i ∧ m !! i = Some row ∧
    py_index (length row) c = Some j ∧ row !! j = Some v ∧
    m' = <[i:=<[j:=v + 1]> row]> m.
Proof.
  unfold increment.
  destruct (getitem m r) as [row|] eqn:Hrow; simpl; [|done].
  destruct (getitem row c) as [v|] eqn:Hv; simpl; [|done].
  destruct (setitem row c (v + 1)) as [row'|] eqn:Hrow'; simpl; [|done].
  intros Hm'.
  apply getitem_Ok_inv in Hrow as (i & Hi & Hrow).
  apply getitem_Ok_inv in Hv as (j & Hj & Hv).
  apply setitem_Ok_inv in Hrow' as (j' & Hj' & ->).
  apply setitem_Ok_inv in Hm' as (i' & Hi' & ->).
  exists i, j, row, v. repeat split; try done. congruence.
Qed.

(** An increment raises nothing but [IndexError]. *)
Lemma increment_Raise_inv (m : Matrix) r c e :
  increment m r c = Raise e → e = IndexError.
Proof.
  unfold increment.
  destruct (getitem m r) as [row|] eqn:Hrow; simpl;
    [|intros [= <-]; by apply getitem_Raise_inv in Hrow as [? _]].
  destruct (getitem row c) as [v|] eqn:Hv; simpl;
    [|intros [= <-]; by apply getitem_Raise_inv in Hv as [? _]].
  unfold setitem.
  destruct (py_index (length row) c); simpl; [|by intros [= <-]].
  destruct (py_index (length m) r); simpl; [done|by intros [= <-]].
Qed.

Lemma increment_rect n c (m m' : Matrix) r k :
  increment m r k = Ok m' → rect n c m → rect n c m'.
Proof.
  intros (i & j & row & v & _ & Hrow & _ & _ & ->)%increment_Ok_inv [Hn Hc].
  split; [by rewrite length_insert|].
  apply Forall_insert; [done|]. rewrite length_insert.
  by eapply (Forall_lookup_1 _ _ _ _ Hc).
Qed.

Lemma increment_nonneg (m m' : Matrix) r k :
  increment m r k = Ok m' →
  Forall (Forall (fun v => 0 ≤ v)) m → Forall (Forall (fun v => 0 ≤ v)) m'.
Proof.
  intros (i & j & row & v & _ & Hrow & _ & Hv & ->)%increment_Ok_inv Hm.
  pose proof (Forall_lookup_1 _ _ _ _ Hm Hrow) as Hr.
  apply Forall_insert; [done|]. apply Forall_insert; [done|].
  pose proof (Forall_lookup_1 _ _ _ _ Hr Hv). simpl in *. lia.
Qed.

(** On rows of length [n], the column index [c] in [-n..-1] is the column
    [c + n]. *)
Lemma increment_wrap k n (m : Matrix) r c :
  rect k n m → - Z.of_nat n ≤ c < 0 →
  increment m r c = increment m r (c + Z.of_nat n).
Proof.
  intros [_ Hm] Hc. unfold increment.
  destruct (getitem m r) as [row|] eqn:Hrow; simpl; [|done].
  apply getitem_Ok_inv in Hrow as (i & _ & Hrow).
  pose proof (Forall_lookup_1 _ _ _ _ Hm Hrow) as Hlen. simpl in Hlen.
  unfold getitem, setitem. by rewrite Hlen, (py_index_wrap n c).
Qed.

Lemma cell_nonneg (m : Matrix) i j :
  Forall (Forall (fun v => 0 ≤ v)) m → 0 ≤ cell m i j.
Proof.
  intros H. unfold cell. destruct (m !! i) as [r|] eqn:Hr; simpl; [|done].
  destruct (r !! j) as [v|] eqn:Hv; simpl; [|done].
  eapply (Forall_lookup_1 _ _ _ _ (Forall_lookup_1 _ _ _ _ H Hr) Hv).
Qed.

Lemma zeros_nonneg n c : Forall (Forall (fun v => 0 ≤ v)) (zeros n c).
Proof.
  unfold zeros. apply Forall_replicate, Forall_replicate. done.
Qed.

(** ** Sums and counts over ranges *)

Lemma sum_app (l1 l2 : list Z) : sum (l1 ++ l2) = sum l1 + sum l2.
Proof. unfold sum. induction l1 as [|x l1 IH]; simpl; lia. Qed.

Lemma sum_fmap_const_0 {A} (l : list A) : sum ((fun _ => 0) <$> l) = 0.
Proof. unfold sum. induction l as [|x l IH]; csimpl; lia. Qed.

(** A sum over [range(n)] with a single summand that is not zero. *)
Lemma sum_single n i (g : nat → Z) :
  sum ((fun a => if decide (a = i) then g a else 0) <$> seq 0 n)
  = if decide (i < n)%nat then g i else 0.
Proof.
  induction n as [|n IH]; [done|].
  rewrite seq_S, fmap_app, sum_app, IH. simpl.
  repeat case_decide; subst; lia.
Qed.

Lemma sum_fmap_ext {A} (g h : A → Z) (l : list A) :
  (∀ x, x ∈ l → g x = h x) → sum (g <$> l) = sum (h <$> l).
Proof.
  intros H. f_equal. apply list_fmap_ext. intros i x Hx. apply H.
  by eapply list_elem_of_lookup_2.
Qed.

Lemma sum_fmap_add {A} (g h : A → Z) (l : list A) :
  sum ((fun x => g x + h x) <$> l) = sum (g <$> l) + sum (h <$> l).
Proof. unfold sum. induction l as [|x l IH]; csimpl; lia. Qed.

Lemma occurrences_nil {A} `{EqDecision A} (x : A) : occurrences x [] = 0.
Proof. done. Qed.

Lemma occurrences_cons {A} `{EqDecision A} (x y : A) l :
  occurrences x (y :: l) = (if decide (x = y) then 1 else 0) + occurrences x l.
Proof.
  unfold occurrences. rewrite filter_cons. case_decide; simpl; lia.
Qed.

Lemma occurrences_app {A} `{EqDecision A} (x : A) l1 l2 :
  occurrences x (l1 ++ l2) = occurrences x l1 + occurrences x l2.
Proof. unfold occurrences. rewrite filter_app, length_app. lia. Qed.

Lemma occurrences_nonneg {A} `{EqDecision A} (x : A) l : 0 ≤ occurrences x l.
Proof. unfold occurrences. lia. Qed.

Lemma occurrences_pos {A} `{EqDecision A} (x : A) l : x ∈ l → 1 ≤ occurrences x l.
Proof.
  induction 1 as [y l|y z l _ IH]; rewrite occurrences_cons.
  - rewrite decide_True by done. pose proof (occurrences_nonneg y l). lia.
  - case_decide; lia.
Qed.

Lemma occurrences_zero {A} `{EqDecision A} (x : A) l :
  x ∉ l → occurrences x l = 0.
Proof.
  induction l as [|y l IH]; [done|]. rewrite not_elem_of_cons. intros [? ?].
  rewrite occurrences_cons, decide_False by done. rewrite IH; [done|done].
Qed.

Lemma occurrences_NoDup {A} `{EqDecision A} (x : A) l :
  NoDup l → occurrences x l ≤ 1.
Proof.
  induction 1 as [|y l Hy _ IH]; [done|]. rewrite occurrences_cons.
  case_decide; [|lia]. subst. rewrite occurrences_zero; [lia|done].
Qed.

Lemma occurrences_dup {A} `{EqDecision A} (l : list A) :
  ¬ NoDup l → ∃ x, 2 ≤ occurrences x l.
Proof.
  induction l as [|y l IH]; intros Hdup; [by destruct Hdup; constructor|].
  destruct (decide (y ∈ l)) as [Hy|Hy].
  - exists y. rewrite occurrences_cons, decide_True by done.
    pose proof (occurrences_pos y l Hy). lia.
  - destruct IH as [x Hx]; [by intros ?; apply Hdup; constructor|].
    exists x. rewrite occurrences_cons. case_decide; lia.
Qed.

(** The indices of the ones of a row given by its entries. *)
Lemma ones_fmap_seq (g : nat → Z) c :
  ones (g <$> seq 0 c) = filter (fun j => g j = 1) (seq 0 c).
Proof.
  unfold ones, enumerate. rewrite length_fmap, length_seq.
  generalize 0%nat as s. induction c as [|c IH]; intros s; [done|]. simpl.
  rewrite !filter_cons. simpl. case_decide; simpl; by rewrite IH.
Qed.

(** The labels [j+1] of the columns [j] of [range(c)] that satisfy [P]
    hold each such label once. *)
Lemma occurrences_filter_seq (P : nat → Prop) `{∀ j, Decision (P j)} c j :
  occurrences (Z.of_nat j + 1)
    ((fun a : nat => Z.of_nat a + 1) <$> filter P (seq 0 c))
  = if decide ((j < c)%nat ∧ P j) then 1 else 0.
Proof.
  induction c as [|c IH]; [by rewrite decide_False by lia|].
  rewrite seq_S, filter_app, fmap_app, occurrences_app, IH. simpl.
  rewrite filter_cons, filter_nil. clear IH.
  destruct (decide (j = c)) as [->|Hjc];
    destruct (decide (P c)) as [Hc|Hc]; simpl;
    rewrite ?occurrences_cons, ?occurrences_nil;
    repeat case_decide; try lia; exfalso; intuition (auto with lia).
Qed.

(** ** The matrix of an adjacency list *)

Lemma count_row n f node (ns : list Z) :
  1 ≤ node ≤ Z.of_nat n → Forall (fun neigh => 1 ≤ neigh ≤ Z.of_nat n) ns →
  foldM (fun m neigh => increment m (node - 1) (neigh - 1)) (tabulate n n f) ns
  = Ok (tabulate n n (fun a b =>
          f a b + if decide (node = Z.of_nat a + 1)
                  then occurrences (Z.of_nat b + 1) ns else 0)).
Proof.
  intros Hnode Hns. revert f.
  induction Hns as [|neigh ns Hneigh Hns IH]; intros f; simpl.
  - f_equal. apply tabulate_ext. intros a b _ _.
    rewrite occurrences_nil. case_decide; lia.
  - pose proof (increment_tabulate n n f (Z.to_nat (node - 1))
                  (Z.to_nat (neigh - 1)) ltac:(lia) ltac:(lia)) as Hinc.
    rewrite !Z2Nat.id in Hinc by lia. rewrite Hinc. simpl. rewrite IH.
    f_equal. apply tabulate_ext. intros a b _ _. unfold update.
    rewrite occurrences_cons.
    destruct (decide (a = Z.to_nat (node - 1) ∧ b = Z.to_nat (neigh - 1)))
      as [[-> ->]|Hne]; repeat case_decide; try lia; exfalso; intuition lia.
Qed.

Lemma count_all n f (adj_list : AdjList) :
  Forall (fun item : Z * list Z =>
            1 ≤ item.1 ≤ Z.of_nat n ∧
            Forall (fun neigh => 1 ≤ neigh ≤ Z.of_nat n) item.2) adj_list →
  foldM count_neighbours (tabulate n n f) adj_list
  = Ok (tabulate n n (fun a b => f a b + listed adj_list a b)).
Proof.
  intros Hadj. revert f.
  induction Hadj as [|[node ns] adj_list [Hnode Hns] _ IH]; intros f; simpl.
  - f_equal. apply tabulate_ext. intros a b _ _. unfold listed. simpl. lia.
  - change (count_neighbours (tabulate n n f) (node, ns)) with
      (foldM (fun m neigh => increment m (node - 1) (neigh - 1)) (tabulate n n f) ns).
    simpl in Hnode, Hns. rewrite count_row by done. simpl. rewrite IH. f_equal. apply tabulate_ext. intros a b _ _.
    unfold listed. csimpl. lia.
Qed.

Lemma from_adjacency_list_in_range self (adj_list : AdjList) :
  labels_in_range adj_list →
  from_adjacency_list self adj_list
  = validate {| matrix := Some (tabulate (length adj_list) (length adj_list)
                                   (listed adj_list)) |}.
Proof.
  intros Hadj. unfold from_adjacency_list.
  rewrite zeros_tabulate, count_all by done. f_equal.
Qed.

(** ** What [validate] rejects, and how *)

Lemma validate_loops n f i :
  (i < n)%nat → f i i ≠ 0 →
  validate {| matrix := Some (tabulate n n f) |}
  = ({| matrix := None |}, Raise (BadGraphInput cause_loops)).
Proof.
  intros Hi Hf. unfold validate. simpl. rewrite diagonal_tabulate.
  destruct (any _) eqn:Hany; [done|]. apply any_false in Hany.
  destruct Hf. apply (Forall_lookup_1 _ _ i _ Hany). by rewrite fmap_seq_lookup.
Qed.

Lemma diagonal_zero n f :
  (∀ i, (i < n)%nat → f i i = 0) → any ((fun i => f i i) <$> seq 0 n) = false.
Proof.
  intros H. apply any_false, Forall_fmap, Forall_forall. intros i Hi.
  apply elem_of_seq in Hi. apply H. lia.
Qed.

Lemma validate_multiple n f i j :
  (∀ i, (i < n)%nat → f i i = 0) →
  (i < n)%nat → (j < n)%nat → 1 < f i j →
  validate {| matrix := Some (tabulate n n f) |}
  = ({| matrix := None |}, Raise (BadGraphInput cause_multiple)).
Proof.
  intros Hdiag Hi Hj Hf. unfold validate. simpl.
  rewrite diagonal_tabulate, diagonal_zero by done.
  destruct (existsb _ _) eqn:Hex; [done|]. apply exceeds_false in Hex.
  pose proof (cell_le_1 _ i j Hex) as Hle. rewrite cell_tabulate in Hle by done.
  lia.
Qed.

Lemma validate_incorrect n f i j :
  (∀ i, (i < n)%nat → f i i = 0) →
  (∀ i j, (i < n)%nat → (j < n)%nat → f i j ≤ 1) →
  (i < n)%nat → (j < n)%nat → f i j ≠ f j i →
  validate {| matrix := Some (tabulate n n f) |}
  = ({| matrix := None |}, Raise (BadGraphInput cause_incorrect)).
Proof.
  intros Hdiag Hle Hi Hj Hf. unfold validate. simpl.
  rewrite diagonal_tabulate, diagonal_zero by done.
  rewrite (proj2 (exceeds_false _)) by (by apply tabulate_le_1).
  rewrite (np_array_rect n n); [|apply rect_tabulate|by destruct n; [lia|]].
  unfold np_transpose, np_array_equal. simpl. rewrite transpose_tabulate.
  destruct (bool_decide (tabulate n n _ = _)) eqn:Heq;
    [|by rewrite andb_false_r].
  apply bool_decide_eq_true in Heq. destruct Hf.
  by rewrite (tabulate_inj _ _ _ _ Heq j i).
Qed.

Lemma diagonal_Raise_inv (m : Matrix) e : diagonal m = Raise e → e = IndexError.
Proof.
  intros (i & _ & Hi)%forM_Raise_inv. revert Hi.
  destruct (getitem m _) as [row|] eqn:Hrow; simpl.
  - by intros [? _]%getitem_Raise_inv.
  - intros [= <-]. by apply getitem_Raise_inv in Hrow as [? _].
Qed.

(** A cause that [validate] gives is one of its three, and the matrix is
    then discarded. *)
Lemma validate_BadGraphInput_inv self cause :
  (validate self).2 = Raise (BadGraphInput cause) →
  cause ∈ [cause_loops; cause_multiple; cause_incorrect]
  ∧ matrix (validate self).1 = None.
Proof.
  unfold validate. destruct self as [[m|]]; simpl; [|done].
  destruct (diagonal m) as [d|] eqn:Hd; simpl;
    [|intros [= ->]; by apply diagonal_Raise_inv in Hd].
  destruct (any d); simpl; [intros [= <-]; split; [by left|done]|].
  destruct (existsb _ _); simpl;
    [intros [= <-]; split; [by right; left|done]|].
  destruct (np_array m) as [a|] eqn:Ha; simpl.
  - destruct (negb _); simpl;
      [intros [= <-]; split; [by do 2 right; left|done]|done].
  - intros [= ->]. destruct m as [|r m]; simpl in Ha; [done|].
    by destruct (_ && _).
Qed.

(** ** Counting the listings of an adjacency list *)

Lemma sum_nonneg {A} (g : A → Z) (l : list A) :
  (∀ x, x ∈ l → 0 ≤ g x) → 0 ≤ sum (g <$> l).
Proof.
  induction l as [|y l IH]; intros H; csimpl; [done|].
  pose proof (H y ltac:(left)).
  assert (0 ≤ sum (g <$> l)); [|lia].
  apply IH. intros x Hx. apply H. by right.
Qed.

Lemma sum_ge_term {A} (g : A → Z) (l : list A) x :
  (∀ x, x ∈ l → 0 ≤ g x) → x ∈ l → g x ≤ sum (g <$> l).
Proof.
  intros H Hx. induction Hx as [x l|x y l Hx IH]; csimpl.
  - assert (0 ≤ sum (g <$> l)); [|lia].
    apply sum_nonneg. intros z Hz. apply H. by right.
  - pose proof (H y ltac:(left)).
    assert (g x ≤ sum (g <$> l)); [|lia].
    apply IH. intros z Hz. apply H. by right.
Qed.

Lemma listed_ge (adj_list : AdjList) node ns i j :
  (node, ns) ∈ adj_list → node = Z.of_nat i + 1 →
  occurrences (Z.of_nat j + 1) ns ≤ listed adj_list i j.
Proof.
  intros Hin ->. unfold listed.
  etrans; [|apply (sum_ge_term _ _ (Z.of_nat i + 1, ns))]; [| |done].
  - simpl. by rewrite decide_True.
  - intros item _. case_decide; [apply occurrences_nonneg|done].
Qed.

Lemma listed_zero (adj_list : AdjList) i j :
  (∀ ns, (Z.of_nat i + 1, ns) ∈ adj_list → Z.of_nat j + 1 ∉ ns) →
  listed adj_list i j = 0.
Proof.
  intros H. unfold listed.
  rewrite (sum_fmap_ext _ (fun _ => 0)); [apply sum_fmap_const_0|].
  intros [node ns] Hin. simpl. case_decide as Hnode; [|done]. subst.
  apply occurrences_zero. by apply H.
Qed.

Lemma listed_le_1 (adj_list : AdjList) i j :
  NoDup adj_list.*1 → Forall (fun item : Z * list Z => NoDup item.2) adj_list →
  listed adj_list i j ≤ 1.
Proof.
  unfold listed. induction adj_list as [|[node ns] adj_list IH]; csimpl; [done|].
  intros [Hnode Hkeys]%NoDup_cons [Hns Hall]%Forall_cons. simpl in *.
  case_decide as Hi.
  - subst. fold (listed adj_list i j). rewrite listed_zero.
    + pose proof (occurrences_NoDup (Z.of_nat j + 1) ns Hns). lia.
    + intros ns' Hin. destruct Hnode.
      by apply (list_elem_of_fmap_2 fst) in Hin.
  - pose proof (IH Hkeys Hall). lia.
Qed.

(** ** Rejection of the three kinds of bad matrix *)

(** C6: [from_neighbourhood_matrix] fails with the loop cause on [[1]], with
    the multiple-edges cause on [[0,2],[2,0]] and with the asymmetry cause
    on [[0,1],[0,0]]. *)
Theorem C6_rejections :
  from_neighbourhood_matrix Graph_init [[1]]
    = ({| matrix := None |}, Raise (BadGraphInput "can't have loops"))
  ∧ from_neighbourhood_matrix Graph_init [[0; 2]; [2; 0]]
    = ({| matrix := None |}, Raise (BadGraphInput "can't have multiple edges"))
  ∧ from_neighbourhood_matrix Graph_init [[0; 1]; [0; 0]]
    = ({| matrix := None |}, Raise (BadGraphInput "incorrect graph")).
Proof. repeat split; reflexivity. Qed.


(** ** Adjacency lists that are not mutual *)

Lemma in_range_item (adj_list : AdjList) node ns :
  labels_in_range adj_list → (node, ns) ∈ adj_list →
  1 ≤ node ≤ Z.of_nat (length adj_list)
  ∧ ∀ neigh, neigh ∈ ns → 1 ≤ neigh ≤ Z.of_nat (length adj_list).
Proof.
  intros Hrange Hin. unfold labels_in_range in Hrange.
  rewrite Forall_forall in Hrange. destruct (Hrange _ Hin) as [Hnode Hns].
  split; [done|]. intros neigh Hneigh. rewrite Forall_forall in Hns. by apply Hns.
Qed.

Lemma listed_diagonal_zero (adj_list : AdjList) i :
  ¬ lists_itself adj_list → listed adj_list i i = 0.
Proof.
  intros Hno. apply listed_zero. intros ns Hin Hself. apply Hno.
  apply Exists_exists. by exists (Z.of_nat i + 1, ns).
Qed.

(** C7, as the code has it: an adjacency list with labels in [1..n] in
    which some node lists a neighbour that does not list it back is rejected
    with [BadGraphInput]. The cause is the asymmetry one unless a check that
    runs before the symmetry check fails: the cause is the loop one when
    some node lists itself, and otherwise the multiple-edges one when some
    node lists a neighbour twice. *)
Theorem C7_not_mutual_rejected self (adj_list : AdjList) a b ns :
  labels_in_range adj_list → NoDup adj_list.*1 →
  (a, ns) ∈ adj_list → b ∈ ns →
  (∀ ns', (b, ns') ∈ adj_list → a ∉ ns') →
  from_adjacency_list self adj_list
  = ({| matrix := None |},
     Raise (BadGraphInput
              (if decide (lists_itself adj_list) then cause_loops
               else if decide (lists_twice adj_list) then cause_multiple
               else cause_incorrect))).
Proof.
  intros Hrange Hkeys Ha Hb Hback. rewrite from_adjacency_list_in_range by done.
  set (n := length adj_list).
  destruct (decide (lists_itself adj_list)) as [Hself|Hself].
  { apply Exists_exists in Hself as ([node ns'] & Hin & Hnode). simpl in Hnode.
    destruct (in_range_item _ _ _ Hrange Hin) as [Hnode_range _].
    apply (validate_loops n _ (Z.to_nat (node - 1))); [lia|].
    pose proof (listed_ge adj_list node ns' (Z.to_nat (node - 1))
                  (Z.to_nat (node - 1)) Hin ltac:(lia)) as Hge.
    rewrite Z2Nat.id in Hge by lia. replace (node - 1 + 1) with node in Hge by lia.
    pose proof (occurrences_pos node ns' Hnode). lia. }
  assert (∀ i, (i < n)%nat → listed adj_list i i = 0) as Hdiag
    by (intros i _; by apply listed_diagonal_zero).
  destruct (decide (lists_twice adj_list)) as [Htwice|Htwice].
  { apply Exists_exists in Htwice as ([node ns'] & Hin & Hdup). simpl in Hdup.
    apply occurrences_dup in Hdup as [x Hx].
    destruct (in_range_item _ _ _ Hrange Hin) as [Hnode Hneigh].
    assert (x ∈ ns') as Hxin.
    { destruct (decide (x ∈ ns')) as [|Hnot]; [done|].
      rewrite (occurrences_zero x ns' Hnot) in Hx. lia. }
    specialize (Hneigh x Hxin).
    apply (validate_multiple n _ (Z.to_nat (node - 1)) (Z.to_nat (x - 1)));
      [done|lia|lia|].
    pose proof (listed_ge adj_list node ns' (Z.to_nat (node - 1))
                  (Z.to_nat (x - 1)) Hin ltac:(lia)) as Hge.
    rewrite Z2Nat.id in Hge by lia. replace (x - 1 + 1) with x in Hge by lia.
    lia. }
  destruct (in_range_item _ _ _ Hrange Ha) as [Ha_range Hneigh].
  specialize (Hneigh b Hb).
  apply (validate_incorrect n _ (Z.to_nat (a - 1)) (Z.to_nat (b - 1)));
    [done| |lia|lia|].
  - intros i j _ _. apply listed_le_1; [done|].
    apply not_Exists_Forall in Htwice; [|apply _].
    eapply Forall_impl; [exact Htwice|]. intros item Hitem. simpl in Hitem.
    by apply dec_stable.
  - pose proof (listed_ge adj_list a ns (Z.to_nat (a - 1))
                  (Z.to_nat (b - 1)) Ha ltac:(lia)) as Hge.
    rewrite Z2Nat.id in Hge by lia. replace (b - 1 + 1) with b in Hge by lia.
    pose proof (occurrences_pos b ns Hb).
    rewrite (listed_zero adj_list (Z.to_nat (b - 1)) (Z.to_nat (a - 1))); [lia|].
    rewrite !Z2Nat.id by lia. replace (b - 1 + 1) with b by lia.
    replace (a - 1 + 1) with a by lia. done.
Qed.

(** Node 1 lists node 2, which does not list it back, and node 1 lists
    nothing else. *)
Lemma C7_not_mutual_rejected_witness :
  from_adjacency_list Graph_init [(1, [2]); (2, [])]
  = ({| matrix := None |}, Raise (BadGraphInput "incorrect graph")).
Proof.
  apply (C7_not_mutual_rejected Graph_init [(1, [2]); (2, [])] 1 2 [2]).
  - repeat constructor; simpl; lia.
  - by apply (bool_decide_unpack _).
  - by left.
  - by left.
  - intros ns' Hin.
    apply elem_of_cons in Hin as [[=]|Hin].
    apply elem_of_cons in Hin as [[= ->]|Hin]; [apply not_elem_of_nil|].
    by apply elem_of_nil in Hin.
Defined.

(** C7 as stated fails: node 1 lists node 2, which does not list it back,
    but node 1 also lists itself, and the failure is the loop one. *)
Lemma C7_counterexample :
  ¬ (∀ self (adj_list : AdjList) a b ns,
       labels_in_range adj_list → NoDup adj_list.*1 →
       (a, ns) ∈ adj_list → b ∈ ns →
       (∀ ns', (b, ns') ∈ adj_list → a ∉ ns') →
       (from_adjacency_list self adj_list).2
       = Raise (BadGraphInput cause_incorrect)).
Proof.
  intros H.
  specialize (H Graph_init [(1, [1; 2]); (2, [])] 1 2 [1; 2]).
  discriminate H.
  - repeat constructor; simpl; lia.
  - by apply (bool_decide_unpack _).
  - by left.
  - by right; left.
  - intros ns' Hin.
    apply elem_of_cons in Hin as [[=]|Hin].
    apply elem_of_cons in Hin as [[= ->]|Hin]; [apply not_elem_of_nil|].
    by apply elem_of_nil in Hin.
Qed.

(** ** Labels out of range in an adjacency list *)

Lemma rect_zeros n c : rect n c (zeros n (Z.of_nat c)).
Proof. rewrite zeros_tabulate. apply rect_tabulate. Qed.

Lemma count_neighbours_Ok_inv k n (m m' : Matrix) (item : Z * list Z) :
  rect k n m → count_neighbours m item = Ok m' →
  rect k n m'
  ∧ Forall (fun neigh => - Z.of_nat n < neigh ≤ Z.of_nat n) item.2.
Proof.
  destruct item as [node ns]. unfold count_neighbours. simpl.
  revert m. induction ns as [|neigh ns IH]; intros m Hm; simpl.
  - intros [= <-]. by split.
  - destruct (increment m (node - 1) (neigh - 1)) as [m1|] eqn:Hinc; simpl; [|done].
    intros Hrest. pose proof (increment_rect _ _ _ _ _ _ Hinc Hm) as Hm1.
    destruct (IH m1 Hm1 Hrest) as [Hm' Hns]. split; [done|].
    constructor; [|done].
    apply increment_Ok_inv in Hinc as (i & j & row & v & _ & Hrow & Hj & _ & _).
    destruct Hm as [_ Hm]. pose proof (Forall_lookup_1 _ _ _ _ Hm Hrow) as Hlen.
    simpl in Hlen. rewrite Hlen in Hj. apply py_index_Some in Hj. lia.
Qed.

Lemma count_neighbours_Raise_inv (m : Matrix) (item : Z * list Z) e :
  count_neighbours m item = Raise e → e = IndexError.
Proof.
  intros H. unfold count_neighbours in H.
  pose proof (foldM_invariant (fun _ => True) (fun e => e = IndexError)
                (fun m neigh => increment m (item.1 - 1) (neigh - 1)) item.2 m)
    as Hinv.
  rewrite H in Hinv. apply Hinv; [|done]. intros a x _ _.
  destruct (increment _ _ _) eqn:Hinc; [done|]. by apply increment_Raise_inv in Hinc.
Qed.

Lemma fill_Ok_inv k n (m m' : Matrix) (adj_list : AdjList) :
  rect k n m → foldM count_neighbours m adj_list = Ok m' →
  Forall (fun item : Z * list Z =>
            Forall (fun neigh => - Z.of_nat n < neigh ≤ Z.of_nat n) item.2) adj_list.
Proof.
  revert m. induction adj_list as [|item adj_list IH]; intros m Hm; simpl; [done|].
  destruct (count_neighbours m item) as [m1|] eqn:Hitem; simpl; [|done].
  intros Hrest. destruct (count_neighbours_Ok_inv _ _ _ _ _ Hm Hitem) as [Hm1 Hns].
  constructor; [done|]. by apply (IH m1).
Qed.

Lemma fill_Raise_inv (m : Matrix) (adj_list : AdjList) e :
  foldM count_neighbours m adj_list = Raise e → e = IndexError.
Proof.
  intros H.
  pose proof (foldM_invariant (fun _ => True) (fun e => e = IndexError)
                count_neighbours adj_list m) as Hinv.
  rewrite H in Hinv. apply Hinv; [|done]. intros a x _ _.
  destruct (count_neighbours a x) eqn:Hx; [done|].
  by apply count_neighbours_Raise_inv in Hx.
Qed.

Lemma count_neighbours_wrap k n (m : Matrix) node (ns : list Z) :
  rect k n m →
  count_neighbours m (node, wrap_label (Z.of_nat n) <$> ns)
  = count_neighbours m (node, ns).
Proof.
  unfold count_neighbours. simpl. revert m.
  induction ns as [|neigh ns IH]; intros m Hm; csimpl; [done|].
  assert (increment m (node - 1) (wrap_label (Z.of_nat n) neigh - 1)
          = increment m (node - 1) (neigh - 1)) as ->.
  { unfold wrap_label. case_decide; [|done].
    replace (neigh + Z.of_nat n - 1) with (neigh - 1 + Z.of_nat n) by lia.
    symmetry. apply (increment_wrap k n); [done|lia]. }
  destruct (increment m (node - 1) (neigh - 1)) as [m1|] eqn:Hinc; simpl; [|done].
  apply IH. by eapply increment_rect.
Qed.

Lemma fill_wrap k n (m : Matrix) (adj_list : AdjList) :
  rect k n m →
  foldM count_neighbours m
    ((fun item : Z * list Z => (item.1, wrap_label (Z.of_nat n) <$> item.2))
       <$> adj_list)
  = foldM count_neighbours m adj_list.
Proof.
  revert m. induction adj_list as [|[node ns] adj_list IH]; intros m Hm; csimpl;
    [done|].
  rewrite (count_neighbours_wrap k n) by done.
  destruct (count_neighbours m (node, ns)) as [m1|] eqn:Hitem; simpl; [|done].
  apply IH. by destruct (count_neighbours_Ok_inv _ _ _ _ _ Hm Hitem).
Qed.

(** C10, as the code has it: on an adjacency list with a neighbour label
    outside [1..n], [from_adjacency_list] has no bounds error of its own.
    A neighbour label in [1-n..0] is accepted through negative indexing
    and counts as the label [n] higher; a neighbour label above [n], or
    at most [-n], raises [IndexError] and leaves the object as it was; and
    a [BadGraphInput] that the call raises has one of the three causes of
    [validate]. *)
Theorem C10_out_of_range_labels self (adj_list : AdjList) :
  Exists (fun item : Z * list Z =>
            Exists (fun neigh => neigh ≤ 0 ∨ Z.of_nat (length adj_list) < neigh)
                   item.2) adj_list →
  from_adjacency_list self adj_list
    = from_adjacency_list self (wrap_labels adj_list)
  ∧ (Exists (fun item : Z * list Z =>
               Exists (fun neigh => neigh ≤ - Z.of_nat (length adj_list)
                                    ∨ Z.of_nat (length adj_list) < neigh)
                      item.2) adj_list →
     from_adjacency_list self adj_list = (self, Raise IndexError))
  ∧ (∀ cause,
       (from_adjacency_list self adj_list).2 = Raise (BadGraphInput cause) →
       cause ∈ [cause_loops; cause_multiple; cause_incorrect]).
Proof.
  intros _. split; [|split].
  - unfold from_adjacency_list, wrap_labels. rewrite length_fmap.
    by rewrite (fill_wrap _ _ _ _ (rect_zeros _ _)).
  - intros Hbad. unfold from_adjacency_list.
    destruct (foldM _ _ _) as [m|e] eqn:Hfill.
    + apply (fill_Ok_inv _ _ _ _ _ (rect_zeros _ _)) in Hfill.
      apply Exists_exists in Hbad as (item & Hitem & Hbad).
      apply Exists_exists in Hbad as (neigh & Hneigh & Hbad).
      rewrite Forall_forall in Hfill. specialize (Hfill item Hitem).
      rewrite Forall_forall in Hfill. specialize (Hfill neigh Hneigh).
      lia.
    + by apply fill_Raise_inv in Hfill as ->.
  - intros cause. unfold from_adjacency_list.
    destruct (foldM _ _ _) as [m|e] eqn:Hfill.
    + by intros [? _]%validate_BadGraphInput_inv.
    + apply fill_Raise_inv in Hfill as ->. done.
Qed.

(** Node 1 of two lists the label 3. *)
Lemma C10_out_of_range_labels_witness :
  from_adjacency_list Graph_init [(1, [3]); (2, [1])]
  = (Graph_init, Raise IndexError).
Proof.
  refine (proj1 (proj2 (C10_out_of_range_labels Graph_init
                          [(1, [3]); (2, [1])] _)) _).
  - left. left. simpl. lia.
  - left. left. simpl. lia.
Defined.

(** The label 0 on two nodes is the label 2. *)
Example label_zero_accepted :
  from_adjacency_list Graph_init [(1, [0]); (2, [1])]
  = ({| matrix := Some [[0; 1]; [1; 0]] |}, Ok ()).
Proof. reflexivity. Qed.

(** C10 as stated fails: not every neighbour label below 1 is accepted. On one
    node the label -1 is the index -2, which raises [IndexError]. *)
Lemma C10_counterexample :
  ¬ (∀ self (adj_list : AdjList),
       Forall (fun item : Z * list Z =>
                 1 ≤ item.1 ≤ Z.of_nat (length adj_list)
                 ∧ Forall (fun neigh => neigh ≤ Z.of_nat (length adj_list)) item.2)
              adj_list →
       (from_adjacency_list self adj_list).2 ≠ Raise IndexError).
Proof.
  intros H. apply (H Graph_init [(1, [-1])]); [|reflexivity].
  repeat constructor; simpl; lia.
Qed.

(** ** The matrix a construction leaves *)

Lemma count_neighbours_nonneg (m m' : Matrix) (item : Z * list Z) :
  count_neighbours m item = Ok m' →
  Forall (Forall (fun v => 0 ≤ v)) m → Forall (Forall (fun v => 0 ≤ v)) m'.
Proof.
  intros H Hm. unfold count_neighbours in H.
  pose proof (foldM_invariant (fun m => Forall (Forall (fun v => 0 ≤ v)) m)
                (fun _ => True)
                (fun m neigh => increment m (item.1 - 1) (neigh - 1)) item.2 m)
    as Hinv.
  rewrite H in Hinv. apply Hinv; [|done]. intros a x _ Ha.
  destruct (increment _ _ _) eqn:Hinc; [|done]. by eapply increment_nonneg.
Qed.

Lemma add_edge_nonneg (m m' : Matrix) (edge : list Z) :
  add_edge m edge = Ok m' →
  Forall (Forall (fun v => 0 ≤ v)) m → Forall (Forall (fun v => 0 ≤ v)) m'.
Proof.
  unfold add_edge. case_decide; [done|].
  destruct (getitem _ 0) as [a|]; simpl; [|done].
  destruct (getitem _ 1) as [b|]; simpl; [|done].
  destruct (increment m _ _) as [m1|] eqn:H1; simpl; [|done].
  intros H2 Hm. eapply increment_nonneg; [exact H2|].
  by eapply increment_nonneg.
Qed.

Lemma checked_nonneg_binary (m : Matrix) :
  checked m → Forall (Forall (fun v => 0 ≤ v)) m → binary m.
Proof.
  intros Hm Hnonneg i j Hi Hj.
  pose proof (checked_le_1 m Hm i j Hi Hj).
  pose proof (cell_nonneg m i j Hnonneg). lia.
Qed.

(** A matrix that [validate] accepts and that has no negative entry is
    valid. *)
Lemma valid_by_validate (m : Matrix) :
  validate {| matrix := Some m |} = ({| matrix := Some m |}, Ok ()) →
  Forall (Forall (fun v => 0 ≤ v)) m → valid m.
Proof.
  intros (_ & m' & [= <-] & Hm)%validate_Ok_inv Hnonneg.
  split; [done|]. by apply checked_nonneg_binary.
Qed.

(** C1, as the code has it: when a construction path returns, the object
    holds a square matrix with a zero diagonal, no entry above one, and
    symmetric. From an adjacency list or an incidence matrix every entry is
    moreover [0] or [1]; from a neighbourhood matrix the matrix held is the
    input, whose entries [validate] bounds from above only. *)
Theorem C1_invariants_after_construction self self' (c : construction) :
  construct self c = (self', Ok ()) →
  ∃ m, matrix self' = Some m ∧ checked m ∧
       match c with
       | FromNeighbourhoodMatrix input => m = input
       | _ => binary m
       end.
Proof.
  destruct c as [input|adj_list|inc_matrix]; simpl.
  - unfold from_neighbourhood_matrix.
    intros [-> (m & [= <-] & Hm)]%validate_Ok_inv. by exists input.
  - unfold from_adjacency_list.
    destruct (foldM _ _ _) as [m|] eqn:Hfill; [|done].
    intros [-> (m' & [= <-] & Hm)]%validate_Ok_inv.
    exists m. split; [done|]. split; [done|].
    apply checked_nonneg_binary; [done|].
    pose proof (foldM_invariant (fun m => Forall (Forall (fun v => 0 ≤ v)) m)
                  (fun _ => True) count_neighbours adj_list
                  (zeros (length adj_list) (Z.of_nat (length adj_list)))) as Hinv.
    rewrite Hfill in Hinv. apply Hinv; [|apply zeros_nonneg].
    intros a x _ Ha. destruct (count_neighbours a x) eqn:Hx; [|done].
    by eapply count_neighbours_nonneg.
  - unfold from_incidence_matrix.
    destruct (np_array inc_matrix) as [inc|]; simpl; [|done].
    destruct (foldM _ _ _) as [m|] eqn:Hfill; [|done].
    intros [-> (m' & [= <-] & Hm)]%validate_Ok_inv.
    exists m. split; [done|]. split; [done|].
    apply checked_nonneg_binary; [done|].
    pose proof (foldM_invariant (fun m => Forall (Forall (fun v => 0 ≤ v)) m)
                  (fun _ => True) add_edge (rows (np_transpose inc))
                  (zeros (length inc_matrix) (Z.of_nat (length inc_matrix)))) as Hinv.
    rewrite Hfill in Hinv. apply Hinv; [|apply zeros_nonneg].
    intros a x _ Ha. destruct (add_edge a x) eqn:Hx; [|done].
    by eapply add_edge_nonneg.
Qed.

(** The path 2-1-3 from its incidence matrix. *)
Lemma C1_invariants_after_construction_witness :
  ∃ m, Some [[0; 1; 1]; [1; 0; 0]; [1; 0; 0]] = Some m ∧ checked m ∧ binary m.
Proof.
  apply (C1_invariants_after_construction Graph_init
           {| matrix := Some [[0; 1; 1]; [1; 0; 0]; [1; 0; 0]] |}
           (FromIncidenceMatrix [[1; 1]; [1; 0]; [0; 1]])).
  reflexivity.
Defined.

(** C1 as stated fails: [validate] accepts a symmetric matrix with negative
    entries off the diagonal, which are neither [0] nor [1]. *)
Lemma C1_counterexample :
  ¬ (∀ self self' (input : Matrix),
       from_neighbourhood_matrix self input = (self', Ok ()) →
       ∃ m, matrix self' = Some m ∧ binary m).
Proof.
  intros H.
  destruct (H Graph_init {| matrix := Some [[0; -1]; [-1; 0]] |}
              [[0; -1]; [-1; 0]] eq_refl) as (m & [= <-] & Hbin).
  destruct (Hbin 0%nat 1%nat) as [H01|H01]; simpl; try lia; discriminate H01.
Qed.

(** ** Malformed edges of an incidence matrix *)

Lemma length_ones (edge : list Z) : length (ones edge) = count_ones edge.
Proof.
  unfold ones, count_ones, enumerate. rewrite length_fmap.
  generalize 0%nat as s. induction edge as [|v edge IH]; intros s; [done|]. simpl.
  rewrite !filter_cons. simpl. case_decide; simpl; by rewrite IH.
Qed.

Lemma ones_lt (edge : list Z) a : a ∈ ones edge → (a < length edge)%nat.
Proof.
  unfold ones, enumerate.
  intros ([a' v] & -> & [_ Hin]%list_elem_of_filter)%list_elem_of_fmap. simpl.
  apply elem_of_zip_l, elem_of_seq in Hin. lia.
Qed.

Lemma increment_rect_Ok n c (m : Matrix) i j :
  rect n c m → (i < n)%nat → (j < c)%nat →
  ∃ m', increment m (Z.of_nat i) (Z.of_nat j) = Ok m' ∧ rect n c m'.
Proof.
  intros Hm Hi Hj. rewrite (tabulate_cell n c m Hm).
  rewrite increment_tabulate by done. eexists. split; [done|apply rect_tabulate].
Qed.

(** A column with exactly two ones is added without an exception. *)
Lemma add_edge_two n (m : Matrix) (edge : list Z) :
  rect n n m → length edge = n → count_ones edge = 2%nat →
  ∃ m', add_edge m edge = Ok m' ∧ rect n n m'.
Proof.
  intros Hm Hlen Hcount. unfold add_edge. rewrite length_ones, Hcount.
  rewrite decide_False by (intros H; by apply H).
  pose proof (length_ones edge) as Hl. rewrite Hcount in Hl.
  pose proof (ones_lt edge) as Hlt.
  destruct (ones edge) as [|a [|b [|? ?]]]; try done.
  assert (a < n)%nat by (rewrite <- Hlen; apply Hlt; by left).
  assert (b < n)%nat by (rewrite <- Hlen; apply Hlt; by right; left).
  change (getitem [a; b] 0) with (Ok (A:=nat) a).
  change (getitem [a; b] 1) with (Ok (A:=nat) b). simpl.
  destruct (increment_rect_Ok n n m a b) as (m1 & -> & Hm1); [done..|]. simpl.
  by apply increment_rect_Ok.
Qed.

Lemma add_edge_malformed (m : Matrix) (edge : list Z) :
  count_ones edge ≠ 2%nat →
  add_edge m edge = Raise (BadGraphInput (cause_invalid_edge (count_ones edge))).
Proof.
  intros H. unfold add_edge. rewrite length_ones. by rewrite decide_True.
Qed.

(** The loop over the edges stops at the first malformed column. *)
Lemma add_edges_first_malformed n (m : Matrix) (good rest : list (list Z)) bad :
  rect n n m →
  Forall (fun edge => length edge = n ∧ count_ones edge = 2%nat) good →
  count_ones bad ≠ 2%nat →
  foldM add_edge m (good ++ bad :: rest)
  = Raise (BadGraphInput (cause_invalid_edge (count_ones bad))).
Proof.
  intros Hm Hgood Hbad. revert m Hm.
  induction Hgood as [|edge good [Hlen Hcount] _ IH]; intros m Hm; simpl.
  - by rewrite add_edge_malformed.
  - destruct (add_edge_two n m edge Hm Hlen Hcount) as (m1 & -> & Hm1). simpl.
    by apply IH.
Qed.

(** The least index below a bound at which a decidable property holds. *)
Lemma least_index (P : nat → Prop) `{∀ j, Decision (P j)} j :
  P j → ∃ j0, (j0 ≤ j)%nat ∧ P j0 ∧ ∀ j', (j' < j0)%nat → ¬ P j'.
Proof.
  intros Hj.
  assert (∀ k, (∃ j0, (j0 < k)%nat ∧ P j0 ∧ ∀ j', (j' < j0)%nat → ¬ P j')
               ∨ ∀ j', (j' < k)%nat → ¬ P j') as Hsearch.
  { induction k as [|k [IH|IH]].
    - right. lia.
    - left. destruct IH as (j0 & ? & ? & ?). exists j0. split; [lia|done].
    - destruct (decide (P k)) as [Hk|Hk].
      + left. exists k. split; [lia|]. split; [done|]. done.
      + right. intros j' Hj'. destruct (decide (j' = k)) as [->|]; [done|].
        apply IH. lia. }
  destruct (Hsearch (S j)) as [(j0 & ? & ? & ?)|Hnone].
  - exists j0. split; [lia|done].
  - destruct (Hnone j); [lia|done].
Qed.

Lemma length_column (rs : list (list Z)) j : length (column rs j) = length rs.
Proof. unfold column. by rewrite length_fmap. Qed.

(** With rows of equal length, the edges are the columns. *)
Lemma from_incidence_matrix_rect self (inc_matrix : Matrix) e :
  inc_matrix ≠ [] → Forall (fun row => length row = e) inc_matrix →
  from_incidence_matrix self inc_matrix
  = match foldM add_edge
            (zeros (length inc_matrix) (Z.of_nat (length inc_matrix)))
            (column inc_matrix <$> seq 0 e) with
    | Raise e => (self, Raise e)
    | Ok m => validate {| matrix := Some m |}
    end.
Proof.
  intros Hne Hrect. unfold from_incidence_matrix.
  by rewrite (np_array_rect (length inc_matrix) e).
Qed.

(** C4: an incidence matrix (rows of equal length, at least one row) with a
    column whose number of ones is not two is rejected with [BadGraphInput];
    the cause gives the number of ones of the first such column, and the
    object is left as it was. *)
Theorem C4_malformed_edge self (inc_matrix : Matrix) (e j : nat) :
  inc_matrix ≠ [] → Forall (fun row => length row = e) inc_matrix →
  (j < e)%nat → count_ones (column inc_matrix j) ≠ 2%nat →
  ∃ j0, (j0 ≤ j)%nat
    ∧ count_ones (column inc_matrix j0) ≠ 2%nat
    ∧ (∀ j', (j' < j0)%nat → count_ones (column inc_matrix j') = 2%nat)
    ∧ from_incidence_matrix self inc_matrix
      = (self, Raise (BadGraphInput
                        ("invalid edge, " ++ str (count_ones (column inc_matrix j0))
                           ++ " nodes")%string)).
Proof.
  intros Hne Hrect Hj Hbad.
  destruct (least_index (fun j => count_ones (column inc_matrix j) ≠ 2%nat) j Hbad)
    as (j0 & Hj0 & Hbad0 & Hleast).
  exists j0. split; [done|]. split; [done|].
  assert (∀ j', (j' < j0)%nat → count_ones (column inc_matrix j') = 2%nat) as Hgood.
  { intros j' Hj'. specialize (Hleast j' Hj'). simpl in Hleast.
    destruct (decide (count_ones (column inc_matrix j') = 2%nat)); [done|].
    by destruct Hleast. }
  split; [done|]. rewrite (from_incidence_matrix_rect self inc_matrix e) by done.
  replace e with (j0 + S (e - S j0))%nat at 1 by lia.
  rewrite seq_app, fmap_app.
  change (seq (0 + j0) (S (e - S j0))) with (j0 :: seq (S j0) (e - S j0)).
  rewrite fmap_cons.
  rewrite (add_edges_first_malformed (length inc_matrix)); [reflexivity| | |done].
  - apply rect_zeros.
  - apply Forall_fmap, Forall_forall. intros j' Hj'. apply elem_of_seq in Hj'.
    simpl. split; [apply length_column|]. apply Hgood. lia.
Qed.

(** Three nodes; the second column has three ones. *)
Lemma C4_malformed_edge_witness :
  ∃ j0, (j0 ≤ 1)%nat
    ∧ count_ones (column [[1; 1]; [1; 1]; [0; 1]] j0) ≠ 2%nat
    ∧ (∀ j', (j' < j0)%nat → count_ones (column [[1; 1]; [1; 1]; [0; 1]] j') = 2%nat)
    ∧ from_incidence_matrix Graph_init [[1; 1]; [1; 1]; [0; 1]]
      = (Graph_init,
         Raise (BadGraphInput
                  ("invalid edge, "
                     ++ str (count_ones (column [[1; 1]; [1; 1]; [0; 1]] j0))
                     ++ " nodes")%string)).
Proof.
  apply (C4_malformed_edge Graph_init [[1; 1]; [1; 1]; [0; 1]] 2 1).
  - done.
  - repeat constructor.
  - lia.
  - vm_compute. lia.
Defined.

(** C4 as stated fails for a malformed column that is not the first one:
    of the columns [1,0,0] and [1,1,1] the second has three ones, and the
    count reported is the one of the first. *)
Lemma C4_counterexample :
  ¬ (∀ self (inc_matrix : Matrix) (e j : nat),
       inc_matrix ≠ [] → Forall (fun row => length row = e) inc_matrix →
       (j < e)%nat → count_ones (column inc_matrix j) ≠ 2%nat →
       (from_incidence_matrix self inc_matrix).2
       = Raise (BadGraphInput
                  ("invalid edge, " ++ str (count_ones (column inc_matrix j))
                     ++ " nodes")%string)).
Proof.
  intros H.
  specialize (H Graph_init [[1; 1]; [0; 1]; [0; 1]] 2%nat 1%nat).
  discriminate H.
  - done.
  - repeat constructor.
  - lia.
  - vm_compute. lia.
Qed.

Example malformed_edge_count :
  from_incidence_matrix Graph_init [[1; 1]; [1; 1]; [0; 1]]
  = (Graph_init, Raise (BadGraphInput "invalid edge, 3 nodes")).
Proof. reflexivity. Qed.

(** ** A failed construction and the matrix held before *)

(** C3, at the input on which the code departs from it: an object that
    holds the valid matrix [[0]] still holds it after [from_incidence_matrix]
    has rejected a column with a single one. *)
Theorem C3_malformed_edge_keeps_matrix :
  from_incidence_matrix {| matrix := Some [[0]] |} [[1]]
  = ({| matrix := Some [[0]] |}, Raise (BadGraphInput "invalid edge, 1 nodes")).
Proof. reflexivity. Qed.

Lemma np_array_Raise_inv (m : Matrix) e : np_array m = Raise e → e = ValueError.
Proof.
  destruct m as [|row m]; simpl; [done|]. destruct (_ && _); [done|]. congruence.
Qed.

Lemma add_edge_Raise_inv (m : Matrix) (edge : list Z) e :
  add_edge m edge = Raise e →
  e = IndexError ∨ e = BadGraphInput (cause_invalid_edge (count_ones edge)).
Proof.
  unfold add_edge. rewrite length_ones. case_decide; [intros [= <-]; by right|].
  destruct (getitem _ 0) as [a|] eqn:Ha; simpl;
    [|intros [= <-]; left; by apply getitem_Raise_inv in Ha as [? _]].
  destruct (getitem _ 1) as [b|] eqn:Hb; simpl;
    [|intros [= <-]; left; by apply getitem_Raise_inv in Hb as [? _]].
  destruct (increment m _ _) as [m1|] eqn:H1; simpl.
  - intros H2. left. by apply increment_Raise_inv in H2.
  - intros [= <-]. left. by apply increment_Raise_inv in H1.
Qed.

(** Every other failure with [BadGraphInput] comes from [validate] and leaves
    no matrix; the failure on a malformed edge leaves the object as it was. *)
Lemma failed_construction_state self self' (c : construction) cause :
  construct self c = (self', Raise (BadGraphInput cause)) →
  matrix self' = None
  ∨ (self' = self ∧ ∃ inc_matrix k,
       c = FromIncidenceMatrix inc_matrix ∧ cause = cause_invalid_edge k).
Proof.
  destruct c as [input|adj_list|inc_matrix]; simpl.
  - unfold from_neighbourhood_matrix. intros H. left.
    pose proof (validate_BadGraphInput_inv {| matrix := Some input |} cause) as Hv.
    rewrite H in Hv. by apply Hv.
  - unfold from_adjacency_list.
    destruct (foldM _ _ _) as [m|e] eqn:Hfill.
    + intros H. left.
      pose proof (validate_BadGraphInput_inv {| matrix := Some m |} cause) as Hv.
      rewrite H in Hv. by apply Hv.
    + apply fill_Raise_inv in Hfill as ->. done.
  - unfold from_incidence_matrix.
    destruct (np_array inc_matrix) as [inc|e] eqn:Hinc; simpl;
      [|by apply np_array_Raise_inv in Hinc as ->].
    destruct (foldM _ _ _) as [m|e] eqn:Hfill.
    + intros H. left.
      pose proof (validate_BadGraphInput_inv {| matrix := Some m |} cause) as Hv.
      rewrite H in Hv. by apply Hv.
    + intros [= <- ->]. right. split; [done|].
      pose proof (foldM_invariant (fun _ => True)
                    (fun e => e = IndexError
                              ∨ ∃ k, e = BadGraphInput (cause_invalid_edge k))
                    add_edge (rows (np_transpose inc))
                    (zeros (length inc_matrix) (Z.of_nat (length inc_matrix))))
        as Hinv.
      rewrite Hfill in Hinv. destruct Hinv as [|[k [= ->]]]; [|done|done|by eauto].
      intros a x _ _. destruct (add_edge a x) eqn:Hx; [done|].
      apply add_edge_Raise_inv in Hx as [->| ->]; [by left|right; eauto].
Qed.

(** ** The path 2-1-3 *)

(** C8: the adjacency list {1:[2,3], 2:[1], 3:[1]} gives the matrix
    [[0,1,1],[1,0,0],[1,0,0]]; its incidence matrix has two columns, node 1
    is in both and nodes 2 and 3 are in one each. *)
Theorem C8_concrete_scenario :
  let g := {| matrix := Some [[0; 1; 1]; [1; 0; 0]; [1; 0; 0]] |} in
  from_adjacency_list Graph_init [(1, [2; 3]); (2, [1]); (3, [1])] = (g, Ok ())
  ∧ ∃ row1 row2 row3,
      as_incidence_matrix g = Ok [row1; row2; row3]
      ∧ length row1 = 2%nat ∧ length row2 = 2%nat ∧ length row3 = 2%nat
      ∧ row1 = [1; 1]
      ∧ count_ones row2 = 1%nat ∧ count_ones row3 = 1%nat.
Proof.
  split; [reflexivity|]. exists [1; 1], [1; 0], [0; 1]. repeat split.
Qed.

(** ** Drawing without a graph *)

Lemma never_parsed_graph self :
  GraphDrawer.never_parsed self → GraphDrawer.graph self = None.
Proof. induction 1; done. Qed.

(** A call to [parse] that returns leaves a graph to draw, so that the
    drawers without one are those on which no such call was made. *)
Lemma parse_Ok_graph self g self' :
  GraphDrawer.parse self g = (self', Ok ()) →
  is_Some (GraphDrawer.graph self').
Proof.
  unfold GraphDrawer.parse. destruct (as_adjacency_list g); [|done].
  intros [= <-]. by eexists.
Qed.

Example draw_path_to_file :
  GraphDrawer.to_file (fun _ => Ok ())
    (GraphDrawer.parse GraphDrawer.init
       {| matrix := Some [[0; 1; 1]; [1; 0; 0]; [1; 0; 0]] |}).1 "out.png"
  = ([Circle [0%Q; 0%Q] 1%Q; Subplots; AddPatch;
      NxDraw {| nx_nodes := [1; 2; 3]; nx_edges := [(1, 2); (1, 3)] |};
      AxisScaled; Title EmptyString; Savefig "out.png"; Clf; Cla; Close],
     Ok ()).
Proof. reflexivity. Qed.

(** C9, as the code has it: on a drawer on which [parse] was never called,
    [to_screen] and [to_file] raise [TypeError] with the text
    "Graph to draw is None", and no call to the plotting library is made. *)
Theorem C9_draw_without_graph self :
  GraphDrawer.never_parsed self →
  GraphDrawer.to_screen self = ([], Raise (TypeError "Graph to draw is None"))
  ∧ ∀ savefig filename,
      GraphDrawer.to_file savefig self filename
      = ([], Raise (TypeError "Graph to draw is None")).
Proof.
  intros Hself%never_parsed_graph.
  unfold GraphDrawer.to_screen, GraphDrawer.to_file, GraphDrawer.draw.
  by rewrite Hself.
Qed.

Lemma C9_draw_without_graph_witness :
  GraphDrawer.to_screen GraphDrawer.init
  = ([], Raise (TypeError "Graph to draw is None")).
Proof.
  exact (proj1 (C9_draw_without_graph GraphDrawer.init
                  GraphDrawer.never_parsed_init)).
Defined.

(** C9 as stated fails: the text of the error is not
    "graph to draw is not set". *)
Lemma C9_counterexample :
  ¬ (∀ self, GraphDrawer.never_parsed self →
       ∃ e, (GraphDrawer.to_screen self).2 = Raise e
            ∧ message e = Some "graph to draw is not set").
Proof.
  intros H.
  destruct (H GraphDrawer.init GraphDrawer.never_parsed_init) as (e & He & Hmsg).
  injection He as <-. discriminate Hmsg.
Qed.

(** ** The scan of the upper triangle *)

Lemma foldM_ext {A B} (body body' : A → B → result A) acc (xs : list B) :
  (∀ a x, x ∈ xs → body a x = body' a x) →
  foldM body acc xs = foldM body' acc xs.
Proof.
  revert acc. induction xs as [|x xs IH]; intros acc H; simpl; [done|].
  rewrite H by left. destruct (body' acc x) as [acc'|]; simpl; [|done].
  apply IH. intros a y Hy. apply H. by right.
Qed.

Lemma foldM_fmap {A B C} (body : A → C → result A) (h : B → C) acc (xs : list B) :
  foldM body acc (h <$> xs) = foldM (fun a x => body a (h x)) acc xs.
Proof.
  revert acc. induction xs as [|x xs IH]; intros acc; csimpl; [done|].
  destruct (body acc (h x)); simpl; [apply IH|done].
Qed.

(** A loop inside a loop is one loop over the pairs of indices. *)
Lemma foldM_nested {A B C} (body : B → A → C → result A) (inner : B → list C)
    acc (outer : list B) :
  foldM (fun acc i => foldM (body i) acc (inner i)) acc outer
  = foldM (fun acc p => body p.1 acc p.2) acc
      (outer ≫= fun i => pair i <$> inner i).
Proof.
  revert acc. induction outer as [|i outer IH]; intros acc; csimpl; [done|].
  rewrite foldM_app, foldM_fmap. simpl.
  destruct (foldM (body i) acc (inner i)); simpl; [apply IH|done].
Qed.

Lemma elem_of_upper_triangle n i j :
  (i, j) ∈ upper_triangle n ↔ (i < j)%nat ∧ (j < n)%nat.
Proof.
  unfold upper_triangle. rewrite list_elem_of_bind. split.
  - intros (i' & Hj & Hi). apply list_elem_of_fmap in Hj as (j' & [= -> ->] & Hj).
    apply elem_of_seq in Hi, Hj. lia.
  - intros [Hij Hj]. exists i. split.
    + apply list_elem_of_fmap. exists j. split; [done|]. apply elem_of_seq. lia.
    + apply elem_of_seq. lia.
Qed.

Lemma incidence_snoc n e (es : list (nat * nat)) i j :
  tabulate n e
    (update (update (incidence_entry es) i (length es) 1) j (length es) 1)
  = incidence n e (es ++ [(i, j)]).
Proof.
  apply tabulate_ext. intros r c _ _. unfold update, incidence_entry.
  destruct (decide (c = length es)) as [->|Hc].
  - rewrite list_lookup_middle by done. rewrite lookup_ge_None_2 by lia. simpl.
    repeat case_decide; try done; exfalso; intuition lia.
  - rewrite !decide_False by lia.
    destruct (decide (c < length es)%nat) as [Hlt|Hge].
    + by rewrite lookup_app_l.
    + rewrite !lookup_ge_None_2; [done| |lia]. rewrite length_app. simpl. lia.
Qed.

Lemma mark_edge_tabulate n e f F (k i j : nat) :
  (i < n)%nat → (j < n)%nat →
  mark_edge (tabulate n n f) i (tabulate n e F, Z.of_nat k) j
  = if decide (f i j = 1) then
      if decide (k < e)%nat then
        Ok (tabulate n e (update (update F i k 1) j k 1), Z.of_nat k + 1)
      else Raise IndexError
    else Ok (tabulate n e F, Z.of_nat k).
Proof.
  intros Hi Hj. unfold mark_edge.
  rewrite (getitem_lookup _ _ _ (tabulate_lookup n n f i Hi)). simpl.
  rewrite (getitem_lookup _ _ _ (fmap_seq_lookup (f i) n j Hj)). simpl.
  case_decide; [|done]. case_decide as Hk.
  - rewrite assign_tabulate by done. simpl. by rewrite assign_tabulate.
  - unfold assign.
    rewrite (getitem_lookup _ _ _ (tabulate_lookup n e F i Hi)). simpl.
    rewrite setitem_nat_ge; [done|]. rewrite length_fmap, length_seq. lia.
Qed.

(** The state of the scan after the pairs [ps], begun with the edges [es]
    already given their columns. *)
Lemma mark_edges n e (f : nat → nat → Z) (es ps : list (nat * nat)) :
  Forall (fun p : nat * nat => (p.1 < n)%nat ∧ (p.2 < n)%nat) ps →
  (length (es ++ filter (fun p => f p.1 p.2 = 1%Z) ps) ≤ e)%nat →
  foldM (fun st p => mark_edge (tabulate n n f) p.1 st p.2)
        (incidence n e es, Z.of_nat (length es)) ps
  = Ok (incidence n e (es ++ filter (fun p => f p.1 p.2 = 1) ps),
        Z.of_nat (length (es ++ filter (fun p => f p.1 p.2 = 1) ps))).
Proof.
  intros Hps. revert es.
  induction Hps as [|[i j] ps [Hi Hj] _ IH]; intros es He; simpl.
  - by rewrite app_nil_r.
  - unfold incidence at 1. rewrite mark_edge_tabulate by done.
    rewrite filter_cons in He |- *. simpl in *. case_decide as Hedge.
    + rewrite length_app in He. simpl in He.
      rewrite decide_True by lia. simpl. rewrite incidence_snoc.
      replace (Z.of_nat (length es) + 1) with (Z.of_nat (length (es ++ [(i, j)])))
        by (rewrite length_app; simpl; lia).
      rewrite IH by (rewrite !length_app; simpl; lia).
      by rewrite <- app_assoc.
    + simpl. by apply IH.
Qed.

(** ** The number of edges *)

Lemma sum_seq_S (g : nat → Z) s k :
  sum (g <$> seq s (S k)) = sum (g <$> seq s k) + g (s + k)%nat.
Proof. rewrite seq_S, fmap_app, sum_app. csimpl. lia. Qed.

Lemma sum_bind {A B} (g : B → Z) (h : A → list B) (l : list A) :
  sum (g <$> (l ≫= h)) = sum ((fun i => sum (g <$> h i)) <$> l).
Proof.
  induction l as [|x l IH]; csimpl; [done|].
  rewrite fmap_app, sum_app, IH. done.
Qed.

Lemma count_filter_sum {A} (g : A → Z) (l : list A) :
  (∀ x, x ∈ l → g x = 0 ∨ g x = 1) →
  Z.of_nat (length (filter (fun x => g x = 1) l)) = sum (g <$> l).
Proof.
  induction l as [|x l IH]; intros H; [done|]. rewrite filter_cons. csimpl.
  assert (Z.of_nat (length (filter (fun x => g x = 1) l)) = sum (g <$> l)) as IH'
    by (apply IH; intros y Hy; apply H; by right).
  destruct (H x ltac:(left)); case_decide; simpl; lia.
Qed.

(** The entries of a symmetric square table with a zero diagonal sum to
    twice the entries above the diagonal. *)
Lemma sum_square_upper (f : nat → nat → Z) n k :
  (∀ i, (i < n)%nat → f i i = 0) →
  (∀ i j, (i < n)%nat → (j < n)%nat → f i j = f j i) →
  (k ≤ n)%nat →
  sum ((fun i => sum (f i <$> seq 0 k)) <$> seq 0 k)
  = 2 * sum ((fun i => sum (f i <$> seq (S i) (k - S i))) <$> seq 0 k).
Proof.
  intros Hdiag Hsym. induction k as [|k IH]; intros Hk; [done|].
  rewrite !(sum_seq_S _ 0 k). simpl.
  rewrite Nat.sub_diag. simpl.
  rewrite (sum_fmap_ext _ (fun i => sum (f i <$> seq 0 k) + f i k)
             (seq 0 k)) by (intros i _; apply (sum_seq_S _ 0 k)).
  rewrite (sum_fmap_ext (fun i => sum (f i <$> seq (S i) (k - i)))
             (fun i => sum (f i <$> seq (S i) (k - S i)) + f i k) (seq 0 k)).
  2:{ intros i Hi. apply elem_of_seq in Hi.
      replace (k - i)%nat with (S (k - S i)) by lia.
      rewrite sum_seq_S. do 2 f_equal. lia. }
  rewrite !sum_fmap_add, IH by lia.
  rewrite (sum_fmap_ext (f k) (fun i => f i k) (seq 0 k)).
  2:{ intros j Hj. apply elem_of_seq in Hj. apply Hsym; lia. }
  rewrite Hdiag by lia. lia.
Qed.

Lemma sum_tabulate n c f :
  sum (sum <$> tabulate n c f) = sum ((fun i => sum (f i <$> seq 0 c)) <$> seq 0 n).
Proof. unfold tabulate. by rewrite <- list_fmap_compose. Qed.

Lemma count_upper_edges n (f : nat → nat → Z) :
  (∀ i j, (i < n)%nat → (j < n)%nat → f i j = 0 ∨ f i j = 1) →
  Z.of_nat (length (filter (fun p => f p.1 p.2 = 1) (upper_triangle n)))
  = sum ((fun i => sum (f i <$> seq (S i) (n - S i))) <$> seq 0 n).
Proof.
  intros Hbin. rewrite (count_filter_sum (fun p => f p.1 p.2)).
  2:{ intros [i j] [Hi Hj]%elem_of_upper_triangle. apply Hbin; simpl; lia. }
  unfold upper_triangle. rewrite sum_bind.
  rewrite (sum_fmap_ext _ (fun i => sum (f i <$> seq (S i) (n - S i)))).
  2:{ intros i _. by rewrite <- list_fmap_compose. }
  destruct n as [|n]; [done|]. rewrite (sum_seq_S _ 0 n). simpl.
  rewrite Nat.sub_0_r, Nat.sub_diag. simpl. lia.
Qed.

Lemma filter_ext_elem {A} (P Q : A → Prop)
    `{!∀ x, Decision (P x), !∀ x, Decision (Q x)} (l : list A) :
  (∀ x, x ∈ l → P x ↔ Q x) → filter P l = filter Q l.
Proof.
  induction l as [|x l IH]; intros Hl; [done|]. rewrite !filter_cons.
  rewrite IH by (intros y Hy; apply Hl; by right).
  pose proof (Hl x ltac:(left)). repeat case_decide; tauto.
Qed.

Lemma upper_edges_tabulate n f :
  upper_edges (tabulate n n f)
  = filter (fun p => f p.1 p.2 = 1) (upper_triangle n).
Proof.
  unfold upper_edges. rewrite length_tabulate.
  apply filter_ext_elem.
  intros [i j] [Hi Hj]%elem_of_upper_triangle. simpl.
  by rewrite cell_tabulate by lia.
Qed.

(** Half the sum of the entries is the number of ones above the diagonal. *)
Lemma edge_count_tabulate n f :
  (∀ i, (i < n)%nat → f i i = 0) →
  (∀ i j, (i < n)%nat → (j < n)%nat → f i j = 0 ∨ f i j = 1) →
  (∀ i j, (i < n)%nat → (j < n)%nat → f i j = f j i) →
  sum (sum <$> tabulate n n f)
  = 2 * Z.of_nat (length (upper_edges (tabulate n n f))).
Proof.
  intros Hdiag Hbin Hsym.
  rewrite upper_edges_tabulate, count_upper_edges, sum_tabulate by done.
  by apply (sum_square_upper f n n).
Qed.

(** ** The incidence matrix of a valid matrix *)

Lemma valid_tabulate (m : Matrix) :
  valid m →
  let n := length m in
  m = tabulate n n (cell m)
  ∧ (∀ i, (i < n)%nat → cell m i i = 0)
  ∧ (∀ i j, (i < n)%nat → (j < n)%nat → cell m i j = 0 ∨ cell m i j = 1)
  ∧ (∀ i j, (i < n)%nat → (j < n)%nat → cell m i j = cell m j i).
Proof.
  intros [[Hsq Hdiag _ Hsym] Hbin]. simpl. split; [by apply tabulate_cell|done].
Qed.

Lemma as_incidence_matrix_tabulate n f :
  (∀ i, (i < n)%nat → f i i = 0) →
  (∀ i j, (i < n)%nat → (j < n)%nat → f i j = 0 ∨ f i j = 1) →
  (∀ i j, (i < n)%nat → (j < n)%nat → f i j = f j i) →
  let es := filter (fun p => f p.1 p.2 = 1) (upper_triangle n) in
  as_incidence_matrix {| matrix := Some (tabulate n n f) |}
  = Ok (incidence n (length es) es).
Proof.
  intros Hdiag Hbin Hsym es. unfold as_incidence_matrix. cbn [matrix].
  rewrite edge_count_tabulate, upper_edges_tabulate by done. fold es.
  rewrite Z.mul_comm, Z.div_mul by done. rewrite length_tabulate.
  rewrite zeros_tabulate.
  rewrite (tabulate_ext n (length es) (fun _ _ => 0) (incidence_entry []))
    by (intros r c _ _; unfold incidence_entry; by rewrite lookup_nil).
  rewrite (foldM_ext (mark_row (tabulate n n f))
             (fun st i => foldM (mark_edge (tabulate n n f) i) st
                            (seq (S i) (n - S i)))).
  2:{ intros st i Hi. apply elem_of_seq in Hi. unfold mark_row.
      change (getitem (tabulate n n f) 0)
        with (getitem (tabulate n n f) (Z.of_nat 0)).
      rewrite (getitem_lookup _ 0 _ (tabulate_lookup n n f 0 ltac:(lia))). simpl.
      by rewrite length_fmap, length_seq. }
  rewrite (foldM_nested (mark_edge (tabulate n n f))
             (fun i => seq (S i) (n - S i))).
  fold (upper_triangle n). fold (incidence n (length es) []).
  change 0 with (Z.of_nat (length (A:=nat * nat) [])) at 1.
  rewrite (mark_edges n (length es) f [] (upper_triangle n)); [done| |done].
  apply Forall_forall. intros [i j] [Hi Hj]%elem_of_upper_triangle. simpl. lia.
Qed.

(** C5: for a valid [n×n] matrix, [as_incidence_matrix] returns a matrix of
    [n] rows and [e] columns, [e] being half the sum of the entries; the
    ones found by the scan of the upper triangle in row-major order are
    given the columns [0], [1], ... in the order they are found, and the
    column of the one at [i], [j] has a one in the rows [i] and [j] and a
    zero in every other row. *)
Theorem C5_incidence_matrix (m : Matrix) :
  valid m →
  ∃ (e : nat) (inc : Matrix),
    as_incidence_matrix {| matrix := Some m |} = Ok inc
    ∧ sum (sum <$> m) = 2 * Z.of_nat e
    ∧ rect (length m) e inc
    ∧ length (upper_edges m) = e
    ∧ ∀ c i j, upper_edges m !! c = Some (i, j) →
        ∀ r, (r < length m)%nat →
          cell inc r c = if decide (r = i ∨ r = j) then 1 else 0.
Proof.
  intros (Hm & Hdiag & Hbin & Hsym)%valid_tabulate. set (n := length m) in *.
  exists (length (upper_edges m)), (incidence n (length (upper_edges m)) (upper_edges m)).
  split; [|split; [|split; [|split]]].
  - rewrite Hm at 1. rewrite as_incidence_matrix_tabulate by done.
    by rewrite <- upper_edges_tabulate, <- Hm.
  - rewrite Hm at 1. rewrite edge_count_tabulate by done. by rewrite <- Hm.
  - apply rect_tabulate.
  - done.
  - intros c i j Hc r Hr. unfold incidence.
    rewrite cell_tabulate; [|done|by eapply lookup_lt_Some].
    unfold incidence_entry. by rewrite Hc.
Qed.

(** The triangle on three nodes. *)
Lemma C5_incidence_matrix_witness :
  ∃ (e : nat) (inc : Matrix),
    as_incidence_matrix {| matrix := Some [[0; 1; 1]; [1; 0; 1]; [1; 1; 0]] |}
    = Ok inc
    ∧ sum (sum <$> [[0; 1; 1]; [1; 0; 1]; [1; 1; 0]]) = 2 * Z.of_nat e
    ∧ rect 3 e inc
    ∧ length (upper_edges [[0; 1; 1]; [1; 0; 1]; [1; 1; 0]]) = e
    ∧ ∀ c i j, upper_edges [[0; 1; 1]; [1; 0; 1]; [1; 1; 0]] !! c = Some (i, j) →
        ∀ r, (r < 3)%nat →
          cell inc r c = if decide (r = i ∨ r = j) then 1 else 0.
Proof.
  apply (C5_incidence_matrix [[0; 1; 1]; [1; 0; 1]; [1; 1; 0]]).
  apply valid_by_validate; [reflexivity|]. by apply (bool_decide_unpack _).
Defined.

Example triangle_incidence :
  as_incidence_matrix {| matrix := Some [[0; 1; 1]; [1; 0; 1]; [1; 1; 0]] |}
  = Ok [[1; 1; 0]; [1; 0; 1]; [0; 1; 1]].
Proof. reflexivity. Qed.

(** ** Round trip through the adjacency list *)

Lemma enumerate_fmap_seq {A} (h : nat → A) n :
  enumerate (h <$> seq 0 n) = (fun i => (i, h i)) <$> seq 0 n.
Proof.
  unfold enumerate. rewrite length_fmap, length_seq.
  generalize 0%nat as s. induction n as [|n IH]; intros s; csimpl; [done|].
  by rewrite IH.
Qed.

(** The adjacency list of a table. *)
Lemma as_adjacency_list_tabulate n f :
  as_adjacency_list {| matrix := Some (tabulate n n f) |}
  = Ok ((fun i : nat =>
           (Z.of_nat i + 1,
            (fun j : nat => Z.of_nat j + 1) <$> filter (fun j => f i j = 1) (seq 0 n)))
          <$> seq 0 n).
Proof.
  unfold as_adjacency_list. cbn [matrix]. f_equal. unfold tabulate.
  rewrite enumerate_fmap_seq, <- list_fmap_compose. apply fmap_seq_ext.
  intros i _. simpl. unfold neighbours_of. by rewrite ones_fmap_seq.
Qed.

Lemma adjacency_in_range n (f : nat → nat → Z) :
  labels_in_range
    ((fun i : nat =>
        (Z.of_nat i + 1,
         (fun j : nat => Z.of_nat j + 1) <$> filter (fun j => f i j = 1) (seq 0 n)))
       <$> seq 0 n).
Proof.
  unfold labels_in_range. rewrite length_fmap, length_seq.
  apply Forall_fmap, Forall_forall. intros i Hi. apply elem_of_seq in Hi. simpl.
  split; [lia|]. apply Forall_fmap, Forall_forall.
  intros j [_ Hj%elem_of_seq]%list_elem_of_filter. simpl. lia.
Qed.

Lemma listed_adjacency n (f : nat → nat → Z) i j :
  (i < n)%nat →
  listed
    ((fun i : nat =>
        (Z.of_nat i + 1,
         (fun j : nat => Z.of_nat j + 1) <$> filter (fun j => f i j = 1) (seq 0 n)))
       <$> seq 0 n) i j
  = if decide ((j < n)%nat ∧ f i j = 1) then 1 else 0.
Proof.
  intros Hi. unfold listed. rewrite <- list_fmap_compose.
  rewrite (sum_fmap_ext _
             (fun a => if decide (a = i)
                       then occurrences (Z.of_nat j + 1)
                              ((fun j : nat => Z.of_nat j + 1)
                                 <$> filter (fun j => f a j = 1) (seq 0 n))
                       else 0)).
  2:{ intros a _. simpl. repeat case_decide; try done; lia. }
  rewrite sum_single, decide_True by done.
  by rewrite (occurrences_filter_seq (fun j => f i j = 1) n j).
Qed.

Lemma adjacency_round_trip self (m : Matrix) :
  valid m →
  ∃ adj_list,
    as_adjacency_list {| matrix := Some m |} = Ok adj_list
    ∧ from_adjacency_list self adj_list = ({| matrix := Some m |}, Ok ()).
Proof.
  intros Hvalid. pose proof Hvalid as [Hchecked _].
  apply valid_tabulate in Hvalid as (Hm & Hdiag & Hbin & Hsym).
  set (n := length m) in *. set (f := cell m) in *.
  eexists. split; [rewrite Hm at 1; apply as_adjacency_list_tabulate|].
  rewrite from_adjacency_list_in_range by apply adjacency_in_range.
  rewrite length_fmap, length_seq.
  rewrite (tabulate_ext n n _ f).
  - rewrite <- Hm. by apply validate_checked.
  - intros i j Hi Hj. rewrite listed_adjacency by done.
    destruct (Hbin i j Hi Hj); case_decide; intuition lia.
Qed.

(** ** Round trip through the incidence matrix *)

Lemma filter_none {A} (P : A → Prop) `{!∀ x, Decision (P x)} (l : list A) :
  (∀ x, x ∈ l → ¬ P x) → filter P l = [].
Proof.
  induction l as [|x l IH]; intros Hl; [done|].
  rewrite filter_cons_False by (apply Hl; by left).
  apply IH. intros y Hy. apply Hl. by right.
Qed.

Lemma seq_split s n i :
  (i < n)%nat →
  seq s n = (seq s i ++ (s + i)%nat :: seq (S (s + i)) (n - S i))%list.
Proof.
  intros Hi. replace n with (i + S (n - S i))%nat at 1 by lia.
  by rewrite seq_app.
Qed.

Lemma ones_edge_column n i j :
  (i < j)%nat → (j < n)%nat → ones (edge_column n (i, j)) = [i; j].
Proof.
  intros Hij Hj. unfold edge_column. rewrite ones_fmap_seq. simpl.
  set (P := fun r : nat => (if decide (r = i ∨ r = j) then 1 else 0) = 1).
  assert (P i) as Pi by (unfold P; by rewrite decide_True by auto).
  assert (P j) as Pj by (unfold P; by rewrite decide_True by auto).
  assert (∀ r, r ≠ i → r ≠ j → ¬ P r) as Pr
    by (intros r ? ?; unfold P; rewrite decide_False; [done|intuition]).
  rewrite (seq_split 0 n i) by lia.
  rewrite (seq_split (S (0 + i)) (n - S i) (j - S i)) by lia.
  replace (S (0 + i) + (j - S i))%nat with j by lia.
  rewrite filter_app, (filter_cons_True P) by done.
  rewrite filter_app, (filter_cons_True P) by done.
  rewrite !filter_none; [done|..]; intros r Hr%elem_of_seq; apply Pr; lia.
Qed.

Lemma add_edge_tabulate n g i j :
  (i < j)%nat → (j < n)%nat →
  add_edge (tabulate n n g) (edge_column n (i, j))
  = Ok (tabulate n n (update (update g i j (g i j + 1)) j i (g j i + 1))).
Proof.
  intros Hij Hj. unfold add_edge. rewrite ones_edge_column by done.
  rewrite decide_False by (intros H; by apply H).
  change (getitem [i; j] 0) with (Ok (A:=nat) i).
  change (getitem [i; j] 1) with (Ok (A:=nat) j). simpl.
  rewrite increment_tabulate by lia. simpl.
  rewrite increment_tabulate by lia. f_equal. apply tabulate_ext.
  intros a b _ _. unfold update. repeat case_decide; try done; exfalso; intuition lia.
Qed.

(** The matrix rebuilt from the columns of the edges [es] counts, at [a],
    [b], the edges between [a] and [b]. *)
Lemma add_edges_tabulate n g (es : list (nat * nat)) :
  Forall (fun p : nat * nat => (p.1 < p.2)%nat ∧ (p.2 < n)%nat) es →
  foldM add_edge (tabulate n n g) (edge_column n <$> es)
  = Ok (tabulate n n (fun a b =>
          g a b + occurrences (a, b) es + occurrences (b, a) es)).
Proof.
  intros Hes. revert g.
  induction Hes as [|[i j] es [Hij Hj] _ IH]; intros g; csimpl.
  - f_equal. apply tabulate_ext. intros a b _ _. rewrite !occurrences_nil. lia.
  - simpl in Hij, Hj. rewrite add_edge_tabulate by done. simpl. rewrite IH.
    f_equal. apply tabulate_ext. intros a b _ _. unfold update.
    rewrite !occurrences_cons.
    repeat case_decide; destruct_and?; simplify_eq; try lia; try done;
      exfalso; intuition (lia || congruence).
Qed.

Lemma columns_incidence n (es : list (nat * nat)) :
  column (incidence n (length es) es) <$> seq 0 (length es) = edge_column n <$> es.
Proof.
  unfold incidence. rewrite transpose_tabulate. unfold tabulate.
  apply list_eq. intros c. destruct (decide (c < length es)%nat) as [Hc|Hc].
  - rewrite fmap_seq_lookup by done. rewrite list_lookup_fmap.
    destruct (lookup_lt_is_Some_2 es c Hc) as [p Hp]. rewrite Hp. simpl. f_equal.
    apply fmap_seq_ext. intros r _. unfold incidence_entry. by rewrite Hp.
  - rewrite !lookup_ge_None_2; [done| |]; rewrite length_fmap, ?length_seq; lia.
Qed.

Lemma NoDup_upper_triangle n : NoDup (upper_triangle n).
Proof.
  unfold upper_triangle. apply NoDup_bind; [| |apply NoDup_seq].
  - intros i1 i2 p _ _ (j1 & -> & _)%list_elem_of_fmap (j2 & [= -> _] & _)%list_elem_of_fmap.
    done.
  - intros i _. apply NoDup_fmap_2; [|apply NoDup_seq]. by intros j1 j2 [= ->].
Qed.

Lemma occurrences_upper_edges n (f : nat → nat → Z) a b :
  occurrences (a, b) (filter (fun p => f p.1 p.2 = 1) (upper_triangle n))
  = if decide ((a < b)%nat ∧ (b < n)%nat ∧ f a b = 1) then 1 else 0.
Proof.
  set (es := filter _ _).
  assert (NoDup es) as Hnd by apply NoDup_filter, NoDup_upper_triangle.
  assert ((a, b) ∈ es ↔ (a < b)%nat ∧ (b < n)%nat ∧ f a b = 1) as Hin.
  { unfold es. rewrite list_elem_of_filter, elem_of_upper_triangle. simpl. tauto. }
  case_decide as Hab.
  - apply Hin in Hab. pose proof (occurrences_pos _ _ Hab).
    pose proof (occurrences_NoDup (a, b) es Hnd). lia.
  - apply occurrences_zero. by rewrite Hin.
Qed.

Lemma incidence_round_trip self (m : Matrix) :
  valid m →
  ∃ inc_matrix,
    as_incidence_matrix {| matrix := Some m |} = Ok inc_matrix
    ∧ from_incidence_matrix self inc_matrix = ({| matrix := Some m |}, Ok ()).
Proof.
  intros Hvalid. pose proof Hvalid as [Hchecked _].
  apply valid_tabulate in Hvalid as (Hm & Hdiag & Hbin & Hsym).
  set (n := length m) in *. set (f := cell m) in *.
  set (es := filter (fun p => f p.1 p.2 = 1) (upper_triangle n)).
  exists (incidence n (length es) es).
  split; [rewrite Hm at 1; by apply as_incidence_matrix_tabulate|].
  destruct (decide (n = 0%nat)) as [Hn|Hn].
  { destruct m; [|done]. subst n. rewrite Hn. reflexivity. }
  rewrite (from_incidence_matrix_rect self _ (length es)).
  2:{ intros Hnil. apply (f_equal length) in Hnil.
      unfold incidence in Hnil. rewrite length_tabulate in Hnil. done. }
  2:{ apply rect_tabulate. }
  unfold incidence at 1 2 3. rewrite length_tabulate. fold (incidence n (length es) es).
  rewrite columns_incidence, zeros_tabulate, add_edges_tabulate.
  2:{ apply Forall_forall.
      intros [i j] [_ [Hi Hj]%elem_of_upper_triangle]%list_elem_of_filter. done. }
  rewrite (tabulate_ext n n _ f).
  - rewrite <- Hm. by apply validate_checked.
  - intros a b Ha Hb. unfold es. rewrite !occurrences_upper_edges.
    pose proof (Hdiag a Ha). pose proof (Hsym a b Ha Hb).
    pose proof (Hbin a b Ha Hb) as [Hab|Hab];
      (destruct (decide (a = b)) as [->|Hne]);
      repeat case_decide; try lia; exfalso; intuition lia.
Qed.

(** ** Round trips *)

(** C2: for a graph that holds a valid matrix, each of the three forms
    read from it and given back to its constructor is accepted and leaves
    an object that holds the same matrix. *)
Theorem C2_round_trips self (m : Matrix) :
  valid m →
  let g := {| matrix := Some m |} in
  (∃ m', as_neighbourhood_matrix g = Some m'
         ∧ from_neighbourhood_matrix self m' = (g, Ok ()))
  ∧ (∃ adj_list, as_adjacency_list g = Ok adj_list
                 ∧ from_adjacency_list self adj_list = (g, Ok ()))
  ∧ (∃ inc_matrix, as_incidence_matrix g = Ok inc_matrix
                   ∧ from_incidence_matrix self inc_matrix = (g, Ok ())).
Proof.
  intros Hvalid g. split; [|split].
  - exists m. split; [done|]. destruct Hvalid as [Hchecked _].
    by apply validate_checked.
  - by apply adjacency_round_trip.
  - by apply incidence_round_trip.
Qed.

(** The path 2-1-3. *)
Lemma C2_round_trips_witness :
  let g := {| matrix := Some [[0; 1; 1]; [1; 0; 0]; [1; 0; 0]] |} in
  (∃ m', as_neighbourhood_matrix g = Some m'
         ∧ from_neighbourhood_matrix Graph_init m' = (g, Ok ()))
  ∧ (∃ adj_list, as_adjacency_list g = Ok adj_list
                 ∧ from_adjacency_list Graph_init adj_list = (g, Ok ()))
  ∧ (∃ inc_matrix, as_incidence_matrix g = Ok inc_matrix
                   ∧ from_incidence_matrix Graph_init inc_matrix = (g, Ok ())).
Proof.
  apply (C2_round_trips Graph_init [[0; 1; 1]; [1; 0; 0]; [1; 0; 0]]).
  apply valid_by_validate; [reflexivity|]. by apply (bool_decide_unpack _).
Defined.

(** * Further properties of the code *)

(** ** What [validate] decides *)

(** X1: [validate] returns without an exception, leaving the object as it
    is, exactly on the objects that hold a square matrix with a zero
    diagonal, no entry above one, and symmetric. *)
Theorem validate_accepts_iff self :
  validate self = (self, Ok ()) ↔ ∃ m, matrix self = Some m ∧ checked m.
Proof.
  split.
  - by intros [_ ?]%validate_Ok_inv.
  - destruct self as [[m|]]; intros (m' & [= <-] & Hm). by apply validate_checked.
Qed.

(** X2: a second call to [validate] after one that returned returns again,
    with the object unchanged throughout; after one that raised
    [BadGraphInput] the matrix is gone and a second call raises [TypeError]
    from [len(None)]. *)
Theorem validate_twice self self' (outcome : result unit) :
  validate self = (self', outcome) →
  match outcome with
  | Ok _ => self' = self ∧ validate self' = (self', Ok ())
  | Raise (BadGraphInput _) => validate self' = (self', Raise no_len)
  | Raise _ => self' = self
  end.
Proof.
  intros H. destruct outcome as [[]|e].
  - apply validate_Ok_inv in H as H'. destruct H' as [-> _]. done.
  - assert (∀ e', (∀ c, e' ≠ BadGraphInput c) →
                  validate self = (self', Raise e') → self' = self) as Hother.
    { intros e' Hne. unfold validate. destruct self as [[m|]]; simpl;
        [|by intros [= <- _]].
      destruct (diagonal m); [|by intros [= <- _]].
      destruct (any _); [intros [= _ <-]; by destruct (Hne cause_loops)|].
      destruct (existsb _ _); [intros [= _ <-]; by destruct (Hne cause_multiple)|].
      destruct (np_array m); [|by intros [= <- _]].
      destruct (negb _); [intros [= _ <-]; by destruct (Hne cause_incorrect)|done]. }
    destruct e as [cause| | | | |];
      try (eapply Hother; [|exact H]; intros c; discriminate).
    pose proof (validate_BadGraphInput_inv self cause) as Hinv.
    rewrite H in Hinv. destruct Hinv as [_ Hnone]; [done|].
    destruct self' as [[m|]]; [done|]. reflexivity.
Qed.

Lemma validate_twice_witness :
  validate {| matrix := None |} = ({| matrix := None |}, Raise no_len).
Proof.
  exact (validate_twice {| matrix := Some [[1]] |} {| matrix := None |}
           (Raise (BadGraphInput cause_loops)) eq_refl).
Defined.

(** ** Matrices that are not square *)

Lemma diagonal_Ok_length (m : Matrix) d i row :
  diagonal m = Ok d → m !! i = Some row → (i < length row)%nat.
Proof.
  intros Hd Hrow. apply forM_Ok_inv in Hd.
  destruct (Forall2_lookup_l _ _ _ i i Hd) as (v & _ & Hget).
  { apply lookup_seq_lt. by eapply lookup_lt_Some. }
  revert Hget. rewrite getitem_nat, Hrow. simpl. rewrite getitem_nat.
  destruct (row !! i) eqn:Hi; [|done]. intros _. by eapply lookup_lt_Some.
Qed.

(** X3: when some row [i] of the input has no entry [i], the diagonal
    cannot be read: [from_neighbourhood_matrix] raises [IndexError], and the
    object is left holding the input, which was assigned before validation
    and is not discarded on this path. *)
Theorem short_row_keeps_input self (m : Matrix) i row :
  m !! i = Some row → (length row ≤ i)%nat →
  from_neighbourhood_matrix self m = ({| matrix := Some m |}, Raise IndexError).
Proof.
  intros Hrow Hlen. unfold from_neighbourhood_matrix, validate. simpl.
  destruct (diagonal m) as [d|e] eqn:Hd.
  - pose proof (diagonal_Ok_length m d i row Hd Hrow). lia.
  - by apply diagonal_Raise_inv in Hd as ->.
Qed.

(** Two nodes in a file of one column. *)
Lemma short_row_keeps_input_witness :
  from_neighbourhood_matrix Graph_init [[0]; [0]]
  = ({| matrix := Some [[0]; [0]] |}, Raise IndexError).
Proof.
  apply (short_row_keeps_input Graph_init [[0]; [0]] 1 [0]); [reflexivity|].
  simpl. lia.
Defined.

Lemma diagonal_tabulate_wide n c f :
  (n ≤ c)%nat → diagonal (tabulate n c f) = Ok ((fun i => f i i) <$> seq 0 n).
Proof.
  intros Hnc. unfold diagonal. rewrite length_tabulate. apply forM_Ok_fmap.
  intros i Hi. apply elem_of_seq in Hi.
  rewrite (getitem_lookup _ _ _ (tabulate_lookup n c f i ltac:(lia))). simpl.
  apply getitem_lookup, fmap_seq_lookup. lia.
Qed.

(** X4: a matrix with rows of equal length, longer than the number of
    rows, is never accepted: [from_neighbourhood_matrix] raises
    [BadGraphInput] with one of the causes of [validate] and discards the
    matrix. With a zero diagonal and no entry above one the cause is the
    asymmetry one, by the difference of the shapes. *)
Theorem wide_matrix_rejected self (m : Matrix) n c :
  rect n c m → (0 < n)%nat → (n < c)%nat →
  ∃ cause,
    from_neighbourhood_matrix self m
    = ({| matrix := None |}, Raise (BadGraphInput cause))
    ∧ cause ∈ [cause_loops; cause_multiple; cause_incorrect]
    ∧ ((∀ i, (i < n)%nat → cell m i i = 0) →
       (∀ i j, (i < n)%nat → (j < c)%nat → cell m i j ≤ 1) →
       cause = cause_incorrect).
Proof.
  intros Hm Hn Hnc. pose proof (tabulate_cell n c m Hm) as Htab.
  set (f := cell m) in *. clearbody f. subst m.
  unfold from_neighbourhood_matrix, validate. simpl.
  rewrite diagonal_tabulate_wide by lia.
  destruct (any _) eqn:Hany.
  { eexists. split; [done|]. split; [by left|].
    intros Hdiag _. rewrite diagonal_zero in Hany; done. }
  destruct (existsb _ _) eqn:Hex.
  { eexists. split; [done|]. split; [by right; left|].
    intros _ Hle. rewrite (proj2 (exceeds_false _)) in Hex; [done|].
    by apply tabulate_le_1. }
  rewrite (np_array_rect n c); [|apply rect_tabulate|by destruct n; [lia|]].
  unfold np_transpose, np_array_equal. simpl.
  rewrite bool_decide_eq_false_2 by (intros [= ?]; lia). simpl.
  eexists. split; [done|]. split; [by do 2 right; left|done].
Qed.

(** One node and two columns. *)
Lemma wide_matrix_rejected_witness :
  ∃ cause,
    from_neighbourhood_matrix Graph_init [[0; 1]]
    = ({| matrix := None |}, Raise (BadGraphInput cause))
    ∧ cause ∈ [cause_loops; cause_multiple; cause_incorrect]
    ∧ ((∀ i, (i < 1)%nat → cell [[0; 1]] i i = 0) →
       (∀ i j, (i < 1)%nat → (j < 2)%nat → cell [[0; 1]] i j ≤ 1) →
       cause = cause_incorrect).
Proof.
  apply (wide_matrix_rejected Graph_init [[0; 1]] 1 2); [|lia|lia].
  split; [done|]. by repeat constructor.
Defined.

(** ** The order of an adjacency list *)

Lemma getitem_py_index {A} (l : list A) i i' :
  py_index (length l) i = py_index (length l) i' → getitem l i = getitem l i'.
Proof. intros H. unfold getitem. by rewrite H. Qed.

Lemma setitem_py_index {A} (l : list A) i i' x :
  py_index (length l) i = py_index (length l) i' → setitem l i x = setitem l i' x.
Proof. intros H. unfold setitem. by rewrite H. Qed.

Lemma py_index_of_nat len i k : py_index len i = Some k → py_index len (Z.of_nat k) = Some k.
Proof.
  intros [Hk _]%py_index_Some. by rewrite py_index_nat, decide_True.
Qed.

(** An increment at indices that exist is the increment at their positions. *)
Lemma increment_position n c (m : Matrix) r k i j :
  rect n c m → py_index n r = Some i → py_index c k = Some j →
  increment m r k = increment m (Z.of_nat i) (Z.of_nat j).
Proof.
  intros [Hn Hc] Hi Hj. unfold increment.
  rewrite (getitem_py_index m r (Z.of_nat i))
    by (rewrite Hn, Hi; symmetry; by eapply py_index_of_nat).
  destruct (getitem m (Z.of_nat i)) as [row|] eqn:Hrow; simpl; [|done].
  assert (length row = c) as Hlen.
  { apply getitem_Ok_inv in Hrow as (i' & _ & Hrow).
    pose proof (Forall_lookup_1 _ _ _ _ Hc Hrow). done. }
  assert (py_index (length row) k = py_index (length row) (Z.of_nat j)) as Hk
    by (rewrite Hlen, Hj; symmetry; by eapply py_index_of_nat).
  rewrite (getitem_py_index row k (Z.of_nat j)) by done.
  destruct (getitem row (Z.of_nat j)) as [v|]; simpl; [|done].
  rewrite (setitem_py_index row k (Z.of_nat j)) by done.
  destruct (setitem row _ _) as [row'|]; simpl; [|done].
  apply setitem_py_index. rewrite Hn, Hi. symmetry. by eapply py_index_of_nat.
Qed.

Lemma increment_no_position n c (m : Matrix) r k :
  rect n c m → py_index n r = None ∨ py_index c k = None →
  increment m r k = Raise IndexError.
Proof.
  intros [Hn Hc] Hbad. unfold increment.
  destruct (getitem m r) as [row|e] eqn:Hrow; simpl.
  - apply getitem_Ok_inv in Hrow as (i & Hi & Hrow). rewrite Hn in Hi.
    destruct Hbad as [Hr|Hk]; [congruence|].
    pose proof (Forall_lookup_1 _ _ _ _ Hc Hrow) as Hlen. simpl in Hlen.
    unfold getitem. by rewrite Hlen, Hk.
  - by apply getitem_Raise_inv in Hrow as [-> _].
Qed.

Lemma listing_cell_Some n r k i j :
  listing_cell n (r, k) = Some (i, j) →
  py_index n (r - 1) = Some i ∧ py_index n (k - 1) = Some j.
Proof.
  unfold listing_cell. simpl.
  destruct (py_index n (r - 1)); simpl; [|done].
  destruct (py_index n (k - 1)); simpl; [|done]. by intros [= -> ->].
Qed.

Lemma listing_cell_None n r k :
  listing_cell n (r, k) = None →
  py_index n (r - 1) = None ∨ py_index n (k - 1) = None.
Proof.
  unfold listing_cell. simpl.
  destruct (py_index n (r - 1)); simpl; [|by left].
  destruct (py_index n (k - 1)); simpl; [done|by right].
Qed.

(** The loop of [from_adjacency_list] is a loop over the listings. *)
Lemma count_neighbours_listings (m : Matrix) (adj_list : AdjList) :
  foldM count_neighbours m adj_list
  = foldM (fun m p => increment m (p.1 - 1) (p.2 - 1)) m (listings adj_list).
Proof.
  unfold listings. revert m.
  induction adj_list as [|item adj_list IH]; intros m; csimpl; [done|].
  rewrite foldM_app, foldM_fmap. simpl. fold (count_neighbours m item).
  destruct (count_neighbours m item); simpl; [apply IH|done].
Qed.

(** The matrix after the listings [ps]: each listing whose indices exist adds
    one to its cell, and a listing without a cell raises [IndexError]. *)
Lemma count_listings n g (ps : list (Z * Z)) :
  foldM (fun m p => increment m (p.1 - 1) (p.2 - 1)) (tabulate n n g) ps
  = if decide (Forall (fun p => is_Some (listing_cell n p)) ps)
    then Ok (tabulate n n (fun a b =>
               g a b + occurrences (a, b) (omap (listing_cell n) ps)))
    else Raise IndexError.
Proof.
  revert g. induction ps as [|[r k] ps IH]; intros g; csimpl.
  - f_equal. apply tabulate_ext. intros a b _ _. rewrite occurrences_nil. lia.
  - destruct (listing_cell n (r, k)) as [[i j]|] eqn:Hcell.
    + destruct (listing_cell_Some _ _ _ _ _ Hcell) as [Hi Hj].
      rewrite (increment_position n n _ _ _ i j);
        [|apply rect_tabulate|done|done].
      apply py_index_Some in Hi as [Hi _]. apply py_index_Some in Hj as [Hj _].
      rewrite increment_tabulate by done. simpl. rewrite IH.
      destruct (decide (Forall _ ps)) as [Hps|Hps].
      * rewrite decide_True by (constructor; [by rewrite Hcell|done]).
        f_equal. apply tabulate_ext. intros a b _ _. unfold update.
        rewrite occurrences_cons.
        repeat case_decide; destruct_and?; simplify_eq; try lia; try done;
          exfalso; intuition (lia || congruence).
      * rewrite decide_False; [done|]. by intros [_ ?]%Forall_cons.
    + rewrite (increment_no_position n n);
        [|apply rect_tabulate|by apply listing_cell_None].
      simpl. rewrite decide_False; [done|].
      intros [Hsome _]%Forall_cons. rewrite Hcell in Hsome. by destruct Hsome.
Qed.

Lemma from_adjacency_list_by_listings self (adj_list adj_list' : AdjList) :
  length adj_list = length adj_list' →
  listings adj_list ≡ₚ listings adj_list' →
  from_adjacency_list self adj_list = from_adjacency_list self adj_list'.
Proof.
  intros Hlen Hperm. unfold from_adjacency_list. rewrite <- Hlen.
  rewrite zeros_tabulate, !count_neighbours_listings, !count_listings.
  destruct (decide (Forall _ (listings adj_list))) as [Hall|Hall].
  - rewrite decide_True by (by rewrite <- Hperm).
    rewrite (tabulate_ext _ _ _
               (fun a b => 0 + occurrences (a, b)
                                 (omap (listing_cell (length adj_list))
                                       (listings adj_list')))); [done|].
    intros a b _ _. unfold occurrences. by rewrite Hperm.
  - rewrite decide_False; [done|]. by rewrite <- Hperm.
Qed.

(** X5: [from_adjacency_list] depends on its input only through the number
    of keys and the listings (node, neighbour) up to their order: the order
    of the items of the dictionary and the order of the neighbours in a list
    change neither the matrix stored nor the exception raised. *)
Theorem adjacency_order_irrelevant self (adj_list adj_list' : AdjList) :
  length adj_list = length adj_list' →
  listings adj_list ≡ₚ listings adj_list' →
  from_adjacency_list self adj_list = from_adjacency_list self adj_list'.
Proof. apply from_adjacency_list_by_listings. Qed.

(** The path 2-1-3 with its items and the neighbours of node 1 in another
    order. *)
Lemma adjacency_order_irrelevant_witness :
  from_adjacency_list Graph_init [(1, [2; 3]); (2, [1]); (3, [1])]
  = from_adjacency_list Graph_init [(3, [1]); (1, [3; 2]); (2, [1])].
Proof.
  apply adjacency_order_irrelevant; [reflexivity|].
  by apply (bool_decide_unpack _).
Defined.

(** X6: the label of a node with an empty neighbour list is never read; such
    an item counts as a key only, whatever its label. *)
Theorem isolated_key_unread self (before after : AdjList) k k' :
  from_adjacency_list self (before ++ (k, []) :: after)
  = from_adjacency_list self (before ++ (k', []) :: after).
Proof.
  unfold from_adjacency_list. rewrite !length_app. simpl.
  rewrite !foldM_app. by destruct (foldM count_neighbours _ before).
Qed.

Example key_out_of_range_accepted :
  from_adjacency_list Graph_init [(7, [])] = ({| matrix := Some [[0]] |}, Ok ()).
Proof. reflexivity. Qed.

(** ** The entries of an incidence matrix *)

Lemma ones_clip (edge : list Z) : ones (clip_entry <$> edge) = ones edge.
Proof.
  unfold ones, enumerate. rewrite length_fmap. f_equal.
  generalize 0%nat as s. induction edge as [|v edge IH]; intros s; [done|].
  csimpl. rewrite !filter_cons. simpl. rewrite IH. unfold clip_entry.
  repeat case_decide; subst; try done; lia.
Qed.

Lemma add_edge_ones (m : Matrix) (edge edge' : list Z) :
  ones edge = ones edge' → add_edge m edge = add_edge m edge'.
Proof. intros H. unfold add_edge. by rewrite H. Qed.

Lemma length_clip (m : Matrix) : length (clip m) = length m.
Proof. unfold clip. by rewrite length_fmap. Qed.

Lemma rect_clip n c (m : Matrix) : rect n c m → rect n c (clip m).
Proof.
  intros [Hn Hc]. split; [by rewrite length_clip|]. unfold clip.
  apply Forall_fmap. eapply Forall_impl; [exact Hc|].
  intros row Hrow. simpl. by rewrite length_fmap.
Qed.

Lemma column_clip (m : Matrix) j :
  column (clip m) j = clip_entry <$> column m j.
Proof.
  unfold column, clip. rewrite <- !list_fmap_compose. apply list_fmap_ext.
  intros i row _. simpl. rewrite list_lookup_fmap. by destruct (row !! j).
Qed.

Lemma np_array_ragged (m : Matrix) row row' :
  row ∈ m → row' ∈ m → length row ≠ length row' → np_array m = Raise ValueError.
Proof.
  intros Hrow Hrow' Hne. destruct (np_array m) as [a|e] eqn:Ha.
  - apply np_array_inv in Ha as [[-> _]|(c & _ & [_ Hc] & _)].
    + by apply elem_of_nil in Hrow.
    + rewrite Forall_forall in Hc. destruct Hne.
      by rewrite (Hc row Hrow), (Hc row' Hrow').
  - by apply np_array_Raise_inv in Ha as ->.
Qed.

(** X7: [from_incidence_matrix] reads an entry only through the test
    [== 1]: any other entry, such as 2 or -1, counts as 0. *)
Theorem incidence_entries_clipped self (inc_matrix : Matrix) :
  from_incidence_matrix self (clip inc_matrix) = from_incidence_matrix self inc_matrix.
Proof.
  unfold from_incidence_matrix. rewrite length_clip.
  destruct (np_array inc_matrix) as [a|e] eqn:Ha.
  - apply np_array_inv in Ha as [[-> ->]|(c & Hne & Hrect & ->)]; [done|].
    rewrite (np_array_rect (length inc_matrix) c);
      [|by apply rect_clip|by destruct inc_matrix].
    unfold np_transpose. simpl.
    rewrite (list_fmap_ext (column (clip inc_matrix))
               (fmap clip_entry ∘ column inc_matrix))
      by (intros; apply column_clip).
    rewrite (list_fmap_compose (column inc_matrix) (fmap clip_entry)).
    rewrite foldM_fmap.
    rewrite (foldM_ext _ add_edge); [done|].
    intros m edge _. apply add_edge_ones, ones_clip.
  - pose proof (np_array_Raise_inv _ _ Ha) as ->.
    destruct (np_array (clip inc_matrix)) as [a|e] eqn:Ha'; simpl.
    + apply np_array_inv in Ha' as [[Hnil _]|(c & _ & [_ Hc] & _)].
      * destruct inc_matrix; done.
      * assert (rect (length inc_matrix) c inc_matrix) as Hrect.
        { split; [done|]. unfold clip in Hc. apply Forall_fmap in Hc.
          eapply Forall_impl; [exact Hc|]. intros row Hrow. simpl in Hrow.
          by rewrite length_fmap in Hrow. }
        destruct inc_matrix as [|row rest]; [done|].
        by rewrite (np_array_rect _ _ _ Hrect) in Ha.
    + by apply np_array_Raise_inv in Ha' as ->.
Qed.

Example entry_two_ignored :
  from_incidence_matrix Graph_init [[2; 1]; [1; 1]; [1; -1]]
  = ({| matrix := Some [[0; 1; 0]; [1; 0; 1]; [0; 1; 0]] |}, Ok ()).
Proof. reflexivity. Qed.

(** ** What [from_incidence_matrix] builds *)

Lemma ones_from_bounds s (edge : list Z) x :
  x ∈ (filter (fun p : nat * Z => p.2 = 1) (zip (seq s (length edge)) edge)).*1 →
  (s ≤ x)%nat ∧ (x < s + length edge)%nat.
Proof.
  intros ([x' v] & -> & [_ Hin]%list_elem_of_filter)%list_elem_of_fmap. simpl.
  apply elem_of_zip_l, elem_of_seq in Hin. lia.
Qed.

Lemma ones_from_two s (edge : list Z) a b :
  (filter (fun p : nat * Z => p.2 = 1) (zip (seq s (length edge)) edge)).*1 = [a; b] →
  (a < b)%nat.
Proof.
  revert s. induction edge as [|v edge IH]; intros s; [done|]. csimpl.
  rewrite filter_cons. simpl. case_decide.
  - csimpl. intros [= <- Hrest].
    assert (b ∈ (filter (fun p : nat * Z => p.2 = 1)
                   (zip (seq (S s) (length edge)) edge)).*1) as Hb
      by (rewrite Hrest; by left).
    apply ones_from_bounds in Hb. lia.
  - apply IH.
Qed.

(** A column with exactly two ones has them at two rows [i < j]. *)
Lemma ones_two (edge : list Z) :
  count_ones edge = 2%nat →
  ∃ i j, ones edge = [i; j] ∧ (i < j)%nat ∧ (j < length edge)%nat.
Proof.
  intros Hcount. rewrite <- length_ones in Hcount.
  destruct (ones edge) as [|i [|j [|? ?]]] eqn:Hones; try done.
  exists i, j. split; [done|]. split.
  - by apply (ones_from_two 0 edge).
  - apply ones_lt. rewrite Hones. by right; left.
Qed.

Lemma add_edge_two_ones n g (edge : list Z) i j :
  ones edge = [i; j] → (i < j)%nat → (j < n)%nat →
  add_edge (tabulate n n g) edge
  = Ok (tabulate n n (update (update g i j (g i j + 1)) j i (g j i + 1))).
Proof.
  intros Hones Hij Hj.
  rewrite (add_edge_ones _ edge (edge_column n (i, j)))
    by (by rewrite ones_edge_column).
  by apply add_edge_tabulate.
Qed.

(** After the columns [cols], each with exactly two ones, the entry at [a],
    [b] counts the columns whose ones are at [a] and [b]. *)
Lemma add_edges_two_ones n g (cols : list (list Z)) :
  Forall (fun edge => length edge = n ∧ count_ones edge = 2%nat) cols →
  foldM add_edge (tabulate n n g) cols
  = Ok (tabulate n n (fun a b =>
          g a b + occurrences [a; b] (ones <$> cols)
                + occurrences [b; a] (ones <$> cols))).
Proof.
  intros Hcols. revert g.
  induction Hcols as [|edge cols [Hlen Hcount] _ IH]; intros g; csimpl.
  - f_equal. apply tabulate_ext. intros a b _ _. rewrite !occurrences_nil. lia.
  - destruct (ones_two edge Hcount) as (i & j & Hones & Hij & Hj).
    rewrite (add_edge_two_ones n g edge i j) by (done || lia). simpl.
    rewrite IH. f_equal. apply tabulate_ext. intros a b _ _. unfold update.
    rewrite !occurrences_cons, Hones.
    repeat case_decide; destruct_and?; simplify_eq; try lia; try done;
      exfalso; intuition (lia || congruence).
Qed.

Lemma columns_rect (inc_matrix : Matrix) e :
  inc_matrix ≠ [] → Forall (fun row => length row = e) inc_matrix →
  columns inc_matrix = column inc_matrix <$> seq 0 e.
Proof.
  intros Hne Hrect. destruct inc_matrix as [|row rest]; [done|].
  unfold columns. by rewrite (Forall_inv Hrect).
Qed.

(** With exactly two ones in every column, the constructor validates the
    matrix of the counts of the columns between two rows. *)
Lemma from_incidence_matrix_two_ones self (inc_matrix : Matrix) e :
  inc_matrix ≠ [] → Forall (fun row => length row = e) inc_matrix →
  Forall (fun edge => count_ones edge = 2%nat) (columns inc_matrix) →
  from_incidence_matrix self inc_matrix
  = validate {| matrix := Some
       (tabulate (length inc_matrix) (length inc_matrix) (fun a b =>
          occurrences [a; b] (ones <$> columns inc_matrix)
          + occurrences [b; a] (ones <$> columns inc_matrix))) |}.
Proof.
  intros Hne Hrect Hcols.
  rewrite (from_incidence_matrix_rect self inc_matrix e) by done.
  rewrite zeros_tabulate, <- (columns_rect inc_matrix e) by done.
  rewrite add_edges_two_ones.
  - do 3 f_equal.
  - rewrite (columns_rect inc_matrix e) in Hcols |- * by done.
    apply Forall_fmap, Forall_forall. intros j Hj. simpl.
    split; [apply length_column|].
    rewrite Forall_fmap, Forall_forall in Hcols. by apply Hcols.
Qed.

Lemma column_ends n (cols : list (list Z)) a b :
  Forall (fun edge => length edge = n ∧ count_ones edge = 2%nat) cols →
  [a; b] ∈ ones <$> cols → (a < b)%nat ∧ (b < n)%nat.
Proof.
  intros Hcols (edge & Hones & Hin)%list_elem_of_fmap.
  rewrite Forall_forall in Hcols. destruct (Hcols edge Hin) as [Hlen Hcount].
  destruct (ones_two edge Hcount) as (i & j & Hones' & Hij & Hj).
  rewrite Hones' in Hones. injection Hones as -> ->. lia.
Qed.

Lemma checked_tabulate n f :
  (∀ i, (i < n)%nat → f i i = 0) →
  (∀ i j, (i < n)%nat → (j < n)%nat → f i j ≤ 1) →
  (∀ i j, (i < n)%nat → (j < n)%nat → f i j = f j i) →
  checked (tabulate n n f).
Proof.
  intros Hdiag Hle Hsym. split; rewrite length_tabulate.
  - apply rect_tabulate.
  - intros i Hi. rewrite cell_tabulate by done. by apply Hdiag.
  - intros i j Hi Hj. rewrite cell_tabulate by done. by apply Hle.
  - intros i j Hi Hj. rewrite !cell_tabulate by done. by apply Hsym.
Qed.

Lemma columns_two_ones (inc_matrix : Matrix) e :
  inc_matrix ≠ [] → Forall (fun row => length row = e) inc_matrix →
  Forall (fun edge => count_ones edge = 2%nat) (columns inc_matrix) →
  Forall (fun edge => length edge = length inc_matrix ∧ count_ones edge = 2%nat)
         (columns inc_matrix).
Proof.
  intros Hne Hrect Hcols.
  rewrite (columns_rect inc_matrix e) in Hcols |- * by done.
  apply Forall_fmap, Forall_forall. intros j Hj. simpl.
  split; [apply length_column|].
  rewrite Forall_fmap, Forall_forall in Hcols. by apply Hcols.
Qed.

(** X10: an incidence matrix with rows of equal length, exactly two ones in
    every column and no two columns with their ones in the same rows is
    accepted, and the matrix stored has a one at [a], [b] exactly when some
    column has its ones in the rows [a] and [b]. *)
Theorem incidence_matrix_accepted self (inc_matrix : Matrix) e :
  inc_matrix ≠ [] → Forall (fun row => length row = e) inc_matrix →
  Forall (fun edge => count_ones edge = 2%nat) (columns inc_matrix) →
  NoDup (ones <$> columns inc_matrix) →
  from_incidence_matrix self inc_matrix
  = ({| matrix := Some
          (tabulate (length inc_matrix) (length inc_matrix) (fun a b =>
             if decide ([a; b] ∈ ones <$> columns inc_matrix
                        ∨ [b; a] ∈ ones <$> columns inc_matrix)
             then 1 else 0)) |}, Ok ()).
Proof.
  intros Hne Hrect Hcols Hnodup.
  rewrite (from_incidence_matrix_two_ones self inc_matrix e) by done.
  pose proof (columns_two_ones inc_matrix e Hne Hrect Hcols) as Hcols'.
  set (n := length inc_matrix) in *. set (L := ones <$> columns inc_matrix) in *.
  assert (∀ a b, [a; b] ∈ L → (a < b)%nat ∧ (b < n)%nat) as Hends
    by (intros a b; by apply column_ends).
  rewrite (tabulate_ext n n _
             (fun a b => if decide ([a; b] ∈ L ∨ [b; a] ∈ L) then 1 else 0)).
  - apply validate_checked, checked_tabulate.
    + intros i _. rewrite decide_False; [done|].
      intros [Hin|Hin]; apply Hends in Hin; lia.
    + intros i j _ _. case_decide; lia.
    + intros i j _ _. repeat case_decide; try done; exfalso; tauto.
  - intros a b _ _.
    pose proof (occurrences_NoDup [a; b] L Hnodup).
    pose proof (occurrences_NoDup [b; a] L Hnodup).
    pose proof (occurrences_nonneg [a; b] L).
    pose proof (occurrences_nonneg [b; a] L).
    destruct (decide ([a; b] ∈ L)) as [Hab|Hab];
      destruct (decide ([b; a] ∈ L)) as [Hba|Hba].
    + apply Hends in Hab, Hba. lia.
    + rewrite decide_True by (by left).
      pose proof (occurrences_pos _ _ Hab). rewrite (occurrences_zero [b; a]) by done.
      lia.
    + rewrite decide_True by (by right).
      pose proof (occurrences_pos _ _ Hba). rewrite (occurrences_zero [a; b]) by done.
      lia.
    + rewrite decide_False by tauto. by rewrite !occurrences_zero.
Qed.

(** The path 2-1-3. *)
Lemma incidence_matrix_accepted_witness :
  from_incidence_matrix Graph_init [[1; 1]; [1; 0]; [0; 1]]
  = ({| matrix := Some
          (tabulate 3 3 (fun a b =>
             if decide ([a; b] ∈ ones <$> columns [[1; 1]; [1; 0]; [0; 1]]
                        ∨ [b; a] ∈ ones <$> columns [[1; 1]; [1; 0]; [0; 1]])
             then 1 else 0)) |}, Ok ()).
Proof.
  apply (incidence_matrix_accepted Graph_init [[1; 1]; [1; 0]; [0; 1]] 2).
  - done.
  - by repeat constructor.
  - by repeat constructor.
  - by apply (bool_decide_unpack _).
Defined.

(** X9: two columns with their two ones in the same rows are a double edge:
    with exactly two ones in every column, [from_incidence_matrix] then
    fails with the multiple-edges cause and discards the matrix. *)
Theorem parallel_edges_rejected self (inc_matrix : Matrix) e j1 j2 :
  inc_matrix ≠ [] → Forall (fun row => length row = e) inc_matrix →
  Forall (fun edge => count_ones edge = 2%nat) (columns inc_matrix) →
  (j1 < j2)%nat → (j2 < e)%nat →
  ones (column inc_matrix j1) = ones (column inc_matrix j2) →
  from_incidence_matrix self inc_matrix
  = ({| matrix := None |}, Raise (BadGraphInput cause_multiple)).
Proof.
  intros Hne Hrect Hcols Hj12 Hj2 Hsame.
  rewrite (from_incidence_matrix_two_ones self inc_matrix e) by done.
  pose proof (columns_two_ones inc_matrix e Hne Hrect Hcols) as Hcols'.
  set (n := length inc_matrix) in *. set (L := ones <$> columns inc_matrix) in *.
  assert (∀ a b, [a; b] ∈ L → (a < b)%nat ∧ (b < n)%nat) as Hends
    by (intros a b; by apply column_ends).
  assert (¬ NoDup L) as Hdup.
  { intros Hnodup. assert (j1 = j2); [|lia].
    apply (NoDup_lookup L j1 j2 (ones (column inc_matrix j1))); [done|..];
      unfold L; rewrite (columns_rect inc_matrix e) by done;
      rewrite !list_lookup_fmap, lookup_seq_lt by lia; simpl; congruence. }
  apply occurrences_dup in Hdup as [x Hx].
  assert (x ∈ L) as Hin.
  { destruct (decide (x ∈ L)) as [|Hnot]; [done|].
    rewrite (occurrences_zero x L Hnot) in Hx. lia. }
  assert (∃ i j, x = [i; j]) as (i & j & ->).
  { unfold L in Hin. apply list_elem_of_fmap in Hin as (edge & -> & Hedge).
    rewrite Forall_forall in Hcols.
    destruct (ones_two edge (Hcols edge Hedge)) as (i & j & -> & _). eauto. }
  destruct (Hends i j Hin) as [Hij Hj].
  apply (validate_multiple n _ i j); [|lia|lia|].
  - intros a _. rewrite !occurrences_zero; [done|..];
      intros Ha; apply Hends in Ha; lia.
  - pose proof (occurrences_nonneg [j; i] L). lia.
Qed.

(** Two columns for the edge between the nodes 1 and 2. *)
Lemma parallel_edges_rejected_witness :
  from_incidence_matrix Graph_init [[1; 1]; [1; 1]]
  = ({| matrix := None |}, Raise (BadGraphInput cause_multiple)).
Proof.
  apply (parallel_edges_rejected Graph_init [[1; 1]; [1; 1]] 2 0 1).
  - done.
  - by repeat constructor.
  - by repeat constructor.
  - lia.
  - lia.
  - reflexivity.
Defined.

Lemma malformed_column_rejected self (inc_matrix : Matrix) e j :
  inc_matrix ≠ [] → Forall (fun row => length row = e) inc_matrix →
  (j < e)%nat → count_ones (column inc_matrix j) ≠ 2%nat →
  ∃ k, k ≠ 2%nat
    ∧ from_incidence_matrix self inc_matrix
      = (self, Raise (BadGraphInput (cause_invalid_edge k))).
Proof.
  intros Hne Hrect Hj Hbad.
  destruct (least_index (fun j => count_ones (column inc_matrix j) ≠ 2%nat) j Hbad)
    as (j0 & Hj0 & Hbad0 & Hleast).
  exists (count_ones (column inc_matrix j0)). split; [done|].
  rewrite (from_incidence_matrix_rect self inc_matrix e) by done.
  replace e with (j0 + S (e - S j0))%nat at 1 by lia.
  rewrite seq_app, fmap_app.
  change (seq (0 + j0) (S (e - S j0))) with (j0 :: seq (S j0) (e - S j0)).
  rewrite fmap_cons.
  rewrite (add_edges_first_malformed (length inc_matrix)); [done| | |done].
  - apply rect_zeros.
  - apply Forall_fmap, Forall_forall. intros j' Hj'%elem_of_seq. simpl.
    split; [apply length_column|].
    destruct (decide (count_ones (column inc_matrix j') = 2%nat)) as [|Hne']; [done|].
    destruct (Hleast j'); [lia|done].
Qed.

Lemma validate_symmetric_table n f :
  (∀ i, (i < n)%nat → f i i = 0) →
  (∀ i j, (i < n)%nat → (j < n)%nat → f i j = f j i) →
  validate {| matrix := Some (tabulate n n f) |}
  = ({| matrix := None |}, Raise (BadGraphInput cause_multiple))
  ∨ validate {| matrix := Some (tabulate n n f) |}
    = ({| matrix := Some (tabulate n n f) |}, Ok ()).
Proof.
  intros Hdiag Hsym.
  destruct (existsb (fun v => 1 <? v) (concat (tabulate n n f))) eqn:Hex.
  - left. unfold validate. simpl.
    by rewrite diagonal_tabulate, diagonal_zero, Hex.
  - right. apply validate_checked, checked_tabulate; [done| |done].
    intros i j Hi Hj. apply exceeds_false in Hex.
    pose proof (cell_le_1 _ i j Hex) as Hle. by rewrite cell_tabulate in Hle.
Qed.

(** X8: the failures of [from_incidence_matrix]. It raises [ValueError] on
    rows of unequal length and [BadGraphInput] with the count of a column
    that has not two ones, both leaving the object as it was, or
    [BadGraphInput] with the multiple-edges cause, discarding the matrix. It
    never raises [IndexError], and never reports a loop or an asymmetry. *)
Theorem incidence_failures self self' (inc_matrix : Matrix) err :
  from_incidence_matrix self inc_matrix = (self', Raise err) →
  (err = ValueError ∧ self' = self)
  ∨ (∃ k, k ≠ 2%nat ∧ err = BadGraphInput (cause_invalid_edge k) ∧ self' = self)
  ∨ (err = BadGraphInput cause_multiple ∧ self' = {| matrix := None |}).
Proof.
  intros H. destruct (np_array inc_matrix) as [a|e0] eqn:Ha.
  - apply np_array_inv in Ha as [[-> _]|(e & Hne & [_ Hrect] & _)]; [done|].
    destruct (decide (Forall (fun edge => count_ones edge = 2%nat)
                             (columns inc_matrix))) as [Hcols|Hcols].
    + rewrite (from_incidence_matrix_two_ones self inc_matrix e) in H by done.
      pose proof (columns_two_ones inc_matrix e Hne Hrect Hcols) as Hcols'.
      destruct (validate_symmetric_table (length inc_matrix)
                  (fun a b => occurrences [a; b] (ones <$> columns inc_matrix)
                              + occurrences [b; a] (ones <$> columns inc_matrix)))
        as [Hv|Hv].
      * intros i _. rewrite !occurrences_zero; [done|..];
          intros Hin; apply (column_ends _ _ _ _ Hcols') in Hin; lia.
      * intros i j _ _. lia.
      * rewrite Hv in H. injection H as <- <-. by do 2 right.
      * rewrite Hv in H. done.
    + apply not_Forall_Exists in Hcols; [|apply _].
      apply Exists_exists in Hcols as (edge & Hedge & Hbad). simpl in Hbad.
      rewrite (columns_rect inc_matrix e) in Hedge by done.
      apply list_elem_of_fmap in Hedge as (j & -> & Hj%elem_of_seq).
      destruct (malformed_column_rejected self inc_matrix e j) as (k & Hk & Hres);
        [done|done|lia|done|].
      rewrite Hres in H. injection H as <- <-. right. left. by exists k.
  - unfold from_incidence_matrix in H. rewrite Ha in H. simpl in H.
    injection H as <- <-. left. by apply np_array_Raise_inv in Ha as ->.
Qed.

(** One node and a column with a single one. *)
Lemma incidence_failures_witness :
  (BadGraphInput "invalid edge, 1 nodes" = ValueError ∧ Graph_init = Graph_init)
  ∨ (∃ k, k ≠ 2%nat
          ∧ BadGraphInput "invalid edge, 1 nodes" = BadGraphInput (cause_invalid_edge k)
          ∧ Graph_init = Graph_init)
  ∨ (BadGraphInput "invalid edge, 1 nodes" = BadGraphInput cause_multiple
     ∧ Graph_init = {| matrix := None |}).
Proof.
  exact (incidence_failures Graph_init Graph_init [[1]]
           (BadGraphInput "invalid edge, 1 nodes") eq_refl).
Defined.

(** ** The adjacency list of an accepted matrix *)

Lemma checked_tabulate_inv (m : Matrix) :
  checked m →
  let n := length m in
  m = tabulate n n (cell m)
  ∧ (∀ i, (i < n)%nat → cell m i i = 0)
  ∧ (∀ i j, (i < n)%nat → (j < n)%nat → cell m i j ≤ 1)
  ∧ (∀ i j, (i < n)%nat → (j < n)%nat → cell m i j = cell m j i).
Proof.
  intros [Hsq Hdiag Hle Hsym]. simpl. split; [by apply tabulate_cell|done].
Qed.

Lemma elem_of_adjacency n (f : nat → nat → Z) a ns :
  (a, ns) ∈ (fun i : nat =>
               (Z.of_nat i + 1,
                (fun j : nat => Z.of_nat j + 1)
                  <$> filter (fun j => f i j = 1) (seq 0 n))) <$> seq 0 n
  ↔ ∃ i, (i < n)%nat ∧ a = Z.of_nat i + 1
         ∧ ns = (fun j : nat => Z.of_nat j + 1)
                  <$> filter (fun j => f i j = 1) (seq 0 n).
Proof.
  rewrite list_elem_of_fmap. split.
  - intros (i & [= -> ->] & Hi%elem_of_seq). exists i. split; [lia|done].
  - intros (i & Hi & -> & ->). exists i. split; [done|]. apply elem_of_seq. lia.
Qed.

Lemma elem_of_neighbours n (g : nat → Z) b :
  b ∈ (fun j : nat => Z.of_nat j + 1) <$> filter (fun j => g j = 1) (seq 0 n)
  ↔ ∃ j, (j < n)%nat ∧ b = Z.of_nat j + 1 ∧ g j = 1.
Proof.
  rewrite list_elem_of_fmap. split.
  - intros (j & -> & [Hg Hj%elem_of_seq]%list_elem_of_filter).
    exists j. split; [lia|done].
  - intros (j & Hj & -> & Hg). exists j. split; [done|].
    apply list_elem_of_filter. split; [done|]. apply elem_of_seq. lia.
Qed.

(** X11: the adjacency list of a matrix that [validate] accepts has the
    keys 1..n in order, all labels in range, no node that lists itself, no
    neighbour listed twice, and is mutual: whenever [a] lists [b], [b]
    lists [a]. *)
Theorem adjacency_list_of_checked (m : Matrix) :
  checked m →
  ∃ adj_list : AdjList,
    as_adjacency_list {| matrix := Some m |} = Ok adj_list
    ∧ adj_list.*1 = (fun i : nat => Z.of_nat i + 1) <$> seq 0 (length m)
    ∧ labels_in_range adj_list
    ∧ ¬ lists_itself adj_list
    ∧ ¬ lists_twice adj_list
    ∧ ∀ a b ns, (a, ns) ∈ adj_list → b ∈ ns →
        ∃ ns', (b, ns') ∈ adj_list ∧ a ∈ ns'.
Proof.
  intros (Hm & Hdiag & Hle & Hsym)%checked_tabulate_inv.
  set (n := length m) in *. set (f := cell m) in *.
  eexists. split; [rewrite Hm at 1; apply as_adjacency_list_tabulate|].
  split; [|split; [apply adjacency_in_range|split; [|split]]].
  - rewrite <- list_fmap_compose. by apply fmap_seq_ext.
  - intros ([a ns] & (i & Hi & -> & ->)%elem_of_adjacency & Hself)%Exists_exists.
    simpl in Hself. apply elem_of_neighbours in Hself as (j & Hj & Hij & Hf).
    assert (j = i) as -> by lia. rewrite Hdiag in Hf by done. done.
  - intros ([a ns] & (i & Hi & -> & ->)%elem_of_adjacency & Hdup)%Exists_exists.
    simpl in Hdup. apply Hdup. apply NoDup_fmap_2; [intros j1 j2; lia|].
    apply NoDup_filter, NoDup_seq.
  - intros a b ns (i & Hi & -> & ->)%elem_of_adjacency
      (j & Hj & -> & Hf)%elem_of_neighbours.
    eexists. split.
    + apply elem_of_adjacency. exists j. split; [done|]. split; reflexivity.
    + apply elem_of_neighbours. exists i. split; [done|]. split; [done|].
      by rewrite <- Hsym.
Qed.

Lemma checked_by_validate (m : Matrix) :
  validate {| matrix := Some m |} = ({| matrix := Some m |}, Ok ()) → checked m.
Proof. by intros (_ & m' & [= <-] & Hm)%validate_Ok_inv. Qed.

(** The path 2-1-3. *)
Lemma adjacency_list_of_checked_witness :
  ∃ adj_list : AdjList,
    as_adjacency_list {| matrix := Some [[0; 1; 1]; [1; 0; 0]; [1; 0; 0]] |}
    = Ok adj_list
    ∧ adj_list.*1 = (fun i : nat => Z.of_nat i + 1) <$> seq 0 3
    ∧ labels_in_range adj_list
    ∧ ¬ lists_itself adj_list
    ∧ ¬ lists_twice adj_list
    ∧ ∀ a b ns, (a, ns) ∈ adj_list → b ∈ ns →
        ∃ ns', (b, ns') ∈ adj_list ∧ a ∈ ns'.
Proof.
  apply (adjacency_list_of_checked [[0; 1; 1]; [1; 0; 0]; [1; 0; 0]]).
  by apply checked_by_validate.
Defined.

Lemma clip_tabulate n c f :
  clip (tabulate n c f) = tabulate n c (fun i j => clip_entry (f i j)).
Proof.
  unfold clip, tabulate. rewrite <- list_fmap_compose. apply fmap_seq_ext.
  intros i _. simpl. by rewrite <- list_fmap_compose.
Qed.

(** X12: for a matrix that [validate] accepts, the adjacency list given
    back to [from_adjacency_list] is accepted and stores the matrix with
    every entry other than 1 replaced by 0: the round trip loses the
    negative entries that [validate] lets through, and nothing else. *)
Theorem adjacency_round_trip_clips self (m : Matrix) :
  checked m →
  ∃ adj_list,
    as_adjacency_list {| matrix := Some m |} = Ok adj_list
    ∧ from_adjacency_list self adj_list = ({| matrix := Some (clip m) |}, Ok ()).
Proof.
  intros (Hm & Hdiag & Hle & Hsym)%checked_tabulate_inv.
  set (n := length m) in *. set (f := cell m) in *.
  clearbody n f. subst m.
  eexists. split; [apply as_adjacency_list_tabulate|].
  rewrite from_adjacency_list_in_range by apply adjacency_in_range.
  rewrite length_fmap, length_seq.
  rewrite (tabulate_ext n n _ (fun i j => clip_entry (f i j))).
  - rewrite clip_tabulate. apply validate_checked, checked_tabulate.
    + intros i Hi. by rewrite Hdiag.
    + intros i j _ _. unfold clip_entry. case_decide; lia.
    + intros i j Hi Hj. by rewrite Hsym.
  - intros i j Hi Hj. rewrite listed_adjacency by done. unfold clip_entry.
    repeat case_decide; try done; exfalso; tauto.
Qed.

Lemma adjacency_round_trip_clips_witness :
  ∃ adj_list,
    as_adjacency_list {| matrix := Some [[0; -1]; [-1; 0]] |} = Ok adj_list
    ∧ from_adjacency_list Graph_init adj_list
      = ({| matrix := Some (clip [[0; -1]; [-1; 0]]) |}, Ok ()).
Proof.
  apply (adjacency_round_trip_clips Graph_init [[0; -1]; [-1; 0]]).
  by apply checked_by_validate.
Defined.

(** ** The incidence matrix of an accepted matrix with negative entries *)

(** [as_incidence_matrix] on a square table is the scan of the upper
    triangle. *)
Lemma as_incidence_matrix_scan n f :
  as_incidence_matrix {| matrix := Some (tabulate n n f) |}
  = st ← foldM (fun st p => mark_edge (tabulate n n f) p.1 st p.2)
               (zeros n (sum (sum <$> tabulate n n f) `div` 2), 0)
               (upper_triangle n);
    Ok st.1.
Proof.
  unfold as_incidence_matrix. cbn [matrix]. rewrite length_tabulate.
  rewrite (foldM_ext (mark_row (tabulate n n f))
             (fun st i => foldM (mark_edge (tabulate n n f) i) st
                            (seq (S i) (n - S i)))).
  2:{ intros st i Hi. apply elem_of_seq in Hi. unfold mark_row.
      change (getitem (tabulate n n f) 0)
        with (getitem (tabulate n n f) (Z.of_nat 0)).
      rewrite (getitem_lookup _ 0 _ (tabulate_lookup n n f 0 ltac:(lia))). simpl.
      by rewrite length_fmap, length_seq. }
  by rewrite (foldM_nested (mark_edge (tabulate n n f))
                (fun i => seq (S i) (n - S i))).
Qed.

Lemma sum_upper_triangle n (f : nat → nat → Z) :
  sum ((fun p : nat * nat => f p.1 p.2) <$> upper_triangle n)
  = sum ((fun i => sum (f i <$> seq (S i) (n - S i))) <$> seq 0 n).
Proof.
  unfold upper_triangle. rewrite sum_bind.
  rewrite (sum_fmap_ext _ (fun i => sum (f i <$> seq (S i) (n - S i)))).
  2:{ intros i _. by rewrite <- list_fmap_compose. }
  destruct n as [|n]; [done|]. rewrite (sum_seq_S _ 0 n). simpl.
  rewrite Nat.sub_0_r, Nat.sub_diag. simpl. lia.
Qed.

Lemma sum_fmap_le {A} (g h : A → Z) (l : list A) :
  (∀ x, x ∈ l → g x ≤ h x) → sum (g <$> l) ≤ sum (h <$> l).
Proof.
  induction l as [|y l IH]; intros Hle; csimpl; [done|].
  pose proof (Hle y ltac:(left)).
  assert (sum (g <$> l) ≤ sum (h <$> l)); [|lia].
  apply IH. intros x Hx. apply Hle. by right.
Qed.

Lemma sum_fmap_lt {A} (g h : A → Z) (l : list A) x :
  (∀ x, x ∈ l → g x ≤ h x) → x ∈ l → g x < h x →
  sum (g <$> l) < sum (h <$> l).
Proof.
  induction l as [|y l IH]; intros Hle Hx Hlt; [by apply elem_of_nil in Hx|].
  csimpl. pose proof (Hle y ltac:(left)).
  apply elem_of_cons in Hx as [->|Hx].
  - assert (sum (g <$> l) ≤ sum (h <$> l)); [|lia].
    apply sum_fmap_le. intros z Hz. apply Hle. by right.
  - assert (sum (g <$> l) < sum (h <$> l)); [|lia].
    apply IH; [|done|done]. intros z Hz. apply Hle. by right.
Qed.

(** The scan raises [IndexError] when it finds more ones than there are
    columns. *)
Lemma mark_edges_overflow n e (f : nat → nat → Z) (es ps : list (nat * nat)) :
  Forall (fun p : nat * nat => (p.1 < n)%nat ∧ (p.2 < n)%nat) ps →
  (length es ≤ e)%nat →
  (e < length (es ++ filter (fun p => f p.1 p.2 = 1%Z) ps))%nat →
  foldM (fun st p => mark_edge (tabulate n n f) p.1 st p.2)
        (incidence n e es, Z.of_nat (length es)) ps
  = Raise IndexError.
Proof.
  intros Hps. revert es.
  induction Hps as [|[i j] ps [Hi Hj] _ IH]; intros es Hes He; simpl.
  - rewrite app_nil_r in He. lia.
  - unfold incidence at 1. rewrite mark_edge_tabulate by done.
    rewrite filter_cons in He. simpl in *. case_decide as Hedge.
    + case_decide as Hk; [|done]. simpl. rewrite incidence_snoc.
      replace (Z.of_nat (length es) + 1) with (Z.of_nat (length (es ++ [(i, j)])))
        by (rewrite length_app; simpl; lia).
      apply IH.
      * rewrite length_app. simpl. lia.
      * by rewrite <- app_assoc.
    + by apply IH.
Qed.

(** X13: on a matrix that [validate] accepts and that has both an entry 1
    and a negative entry, [as_incidence_matrix] raises [IndexError]: half
    the sum of the entries is less than the number of ones above the
    diagonal, so the scan runs out of columns. *)
Theorem incidence_of_negative_entries (m : Matrix) i j i' j' :
  checked m →
  (i < length m)%nat → (j < length m)%nat → cell m i j = 1 →
  (i' < length m)%nat → (j' < length m)%nat → cell m i' j' < 0 →
  as_incidence_matrix {| matrix := Some m |} = Raise IndexError.
Proof.
  intros (Hm & Hdiag & Hle & Hsym)%checked_tabulate_inv Hi Hj Hone Hi' Hj' Hneg.
  set (n := length m) in *. set (f := cell m) in *.
  clearbody n f. subst m.
  set (UT := upper_triangle n).
  set (E := length (filter (fun p : nat * nat => f p.1 p.2 = 1) UT)).
  set (U := sum ((fun p : nat * nat => f p.1 p.2) <$> UT)).
  assert (∀ p, p ∈ UT → (p.1 < n)%nat ∧ (p.2 < n)%nat) as Hbounds.
  { intros [a b] [? ?]%elem_of_upper_triangle. simpl. lia. }
  assert (sum (sum <$> tabulate n n f) = 2 * U) as Hsum.
  { rewrite sum_tabulate, (sum_square_upper f n n) by done.
    unfold U, UT. by rewrite sum_upper_triangle. }
  assert (Z.of_nat E = sum ((fun p : nat * nat => clip_entry (f p.1 p.2)) <$> UT))
    as HE.
  { rewrite <- (count_filter_sum (fun p : nat * nat => clip_entry (f p.1 p.2))).
    - unfold E. do 2 f_equal. apply filter_ext_elem. intros p _.
      unfold clip_entry. case_decide; split; (done || lia).
    - intros p _. unfold clip_entry. case_decide; auto. }
  assert (U < Z.of_nat E) as HUE.
  { rewrite HE. unfold U.
    destruct (decide (i' < j')%nat) as [Hlt|Hge].
    - apply (sum_fmap_lt _ _ _ (i', j')).
      + intros p [? ?]%Hbounds. unfold clip_entry.
        pose proof (Hle p.1 p.2). case_decide; lia.
      + apply elem_of_upper_triangle. lia.
      + simpl. unfold clip_entry. case_decide; lia.
    - assert (i' ≠ j') by (intros ->; rewrite Hdiag in Hneg; [lia|done]).
      apply (sum_fmap_lt _ _ _ (j', i')).
      + intros p [? ?]%Hbounds. unfold clip_entry.
        pose proof (Hle p.1 p.2). case_decide; lia.
      + apply elem_of_upper_triangle. lia.
      + simpl. rewrite <- Hsym by done. unfold clip_entry. case_decide; lia. }
  assert (1 ≤ E)%nat as HE1.
  { assert (∃ p, p ∈ filter (fun p : nat * nat => f p.1 p.2 = 1) UT) as [p Hp].
    { assert (i ≠ j) by (intros ->; rewrite Hdiag in Hone; [lia|done]).
      destruct (decide (i < j)%nat).
      - exists (i, j). apply list_elem_of_filter. split; [done|].
        apply elem_of_upper_triangle. lia.
      - exists (j, i). apply list_elem_of_filter. split; [simpl; by rewrite <- Hsym|].
        apply elem_of_upper_triangle. lia. }
    unfold E. destruct (filter _ UT); [by apply elem_of_nil in Hp|simpl; lia]. }
  rewrite as_incidence_matrix_scan, Hsum.
  rewrite Z.mul_comm, Z.div_mul by done.
  replace (zeros n U) with (zeros n (Z.of_nat (Z.to_nat U)))
    by (unfold zeros; by rewrite Nat2Z.id).
  rewrite zeros_tabulate.
  rewrite (tabulate_ext n (Z.to_nat U) (fun _ _ => 0) (incidence_entry []))
    by (intros r c _ _; unfold incidence_entry; by rewrite lookup_nil).
  fold (incidence n (Z.to_nat U) []).
  change 0 with (Z.of_nat (length (A:=nat * nat) [])) at 1. fold UT.
  rewrite (mark_edges_overflow n (Z.to_nat U) f [] UT); [done| | |].
  - apply Forall_forall. intros p Hp. by apply Hbounds.
  - simpl. lia.
  - simpl. fold E. lia.
Qed.

(** Node 1 has an edge to node 2 and the entry -1 towards node 3. *)
Lemma incidence_of_negative_entries_witness :
  as_incidence_matrix {| matrix := Some [[0; 1; -1]; [1; 0; 0]; [-1; 0; 0]] |}
  = Raise IndexError.
Proof.
  apply (incidence_of_negative_entries
           [[0; 1; -1]; [1; 0; 0]; [-1; 0; 0]] 0 1 0 2).
  - by apply checked_by_validate.
  - simpl. lia.
  - simpl. lia.
  - reflexivity.
  - simpl. lia.
  - simpl. lia.
  - by vm_compute.
Defined.

(** ** The graph that [parse] builds, and drawing it *)

Lemma nx_add_node_nodes (g : nx_Graph) n k :
  k ∈ nx_nodes (nx_add_node g n) ↔ k ∈ nx_nodes g ∨ k = n.
Proof.
  unfold nx_add_node. case_decide as Hn; simpl.
  - split; [by left|]. by intros [?| ->].
  - rewrite elem_of_app, list_elem_of_singleton. done.
Qed.

Lemma nx_add_node_NoDup (g : nx_Graph) n :
  NoDup (nx_nodes g) → NoDup (nx_nodes (nx_add_node g n)).
Proof.
  intros Hg. unfold nx_add_node. case_decide as Hn; simpl; [done|].
  apply NoDup_app. split; [done|]. split; [|apply NoDup_singleton].
  intros x Hx ->%list_elem_of_singleton. done.
Qed.

Lemma nx_add_edge_nodes (g : nx_Graph) u v k :
  k ∈ nx_nodes (nx_add_edge g u v) ↔ k ∈ nx_nodes g ∨ k = u ∨ k = v.
Proof.
  unfold nx_add_edge. case_decide; simpl; rewrite !nx_add_node_nodes; tauto.
Qed.

Lemma nx_add_edge_NoDup (g : nx_Graph) u v :
  NoDup (nx_nodes g) → NoDup (nx_nodes (nx_add_edge g u v)).
Proof.
  intros Hg. unfold nx_add_edge. case_decide; simpl;
    by do 2 apply nx_add_node_NoDup.
Qed.

Lemma add_edges_nodes (g : nx_Graph) u (ns : list Z) k :
  k ∈ nx_nodes (foldl (fun g neigh => nx_add_edge g u neigh) g ns)
  ↔ k ∈ nx_nodes g ∨ (ns ≠ [] ∧ k = u) ∨ k ∈ ns.
Proof.
  revert g. induction ns as [|v ns IH]; intros g; simpl.
  - rewrite elem_of_nil. split; [by left|]. intros [?|[[? _]|?]]; done.
  - rewrite IH, nx_add_edge_nodes, elem_of_cons. split.
    + intros [[?|[->| ->]]|[[_ ->]|?]]; auto.
    + intros [?|[[_ ->]|[->|?]]]; auto.
Qed.

Lemma add_edges_NoDup (g : nx_Graph) u (ns : list Z) :
  NoDup (nx_nodes g) →
  NoDup (nx_nodes (foldl (fun g neigh => nx_add_edge g u neigh) g ns)).
Proof.
  revert g. induction ns as [|v ns IH]; intros g Hg; simpl; [done|].
  by apply IH, nx_add_edge_NoDup.
Qed.

Lemma add_item_nodes (g : nx_Graph) (item : Z * list Z) k :
  k ∈ nx_nodes (GraphDrawer.add_item g item)
  ↔ k ∈ nx_nodes g ∨ k = item.1 ∨ k ∈ item.2.
Proof.
  unfold GraphDrawer.add_item. destruct item as [u [|v ns]]; simpl.
  - rewrite nx_add_node_nodes, elem_of_nil. tauto.
  - rewrite (add_edges_nodes _ u ns), nx_add_edge_nodes, elem_of_cons. split.
    + intros [[?|[->| ->]]|[[_ ->]|?]]; auto.
    + intros [?|[->|[->|?]]]; auto.
Qed.

Lemma add_item_NoDup (g : nx_Graph) (item : Z * list Z) :
  NoDup (nx_nodes g) → NoDup (nx_nodes (GraphDrawer.add_item g item)).
Proof.
  intros Hg. unfold GraphDrawer.add_item. destruct item as [u [|v ns]]; simpl.
  - by apply nx_add_node_NoDup.
  - by apply add_edges_NoDup, nx_add_edge_NoDup.
Qed.

Lemma add_items_nodes (g : nx_Graph) (adj_list : AdjList) k :
  k ∈ nx_nodes (foldl GraphDrawer.add_item g adj_list)
  ↔ k ∈ nx_nodes g ∨ ∃ item, item ∈ adj_list ∧ (k = item.1 ∨ k ∈ item.2).
Proof.
  revert g. induction adj_list as [|item adj_list IH]; intros g; simpl.
  - split; [by left|]. intros [?|(item & Hin & _)]; [done|].
    by apply elem_of_nil in Hin.
  - rewrite IH, add_item_nodes. split.
    + intros [[?|?]|(item' & Hin & ?)]; [by left| |].
      * right. exists item. split; [by left|done].
      * right. exists item'. split; [by right|done].
    + intros [?|(item' & [->|Hin]%elem_of_cons & ?)]; [by left; left| |].
      * left. by right.
      * right. by exists item'.
Qed.

Lemma add_items_NoDup (g : nx_Graph) (adj_list : AdjList) :
  NoDup (nx_nodes g) → NoDup (nx_nodes (foldl GraphDrawer.add_item g adj_list)).
Proof.
  revert g. induction adj_list as [|item adj_list IH]; intros g Hg; simpl; [done|].
  by apply IH, add_item_NoDup.
Qed.

(** X14: for a graph that holds a square matrix on [n] nodes, [parse]
    returns and the graph to draw has each of the nodes 1..n once, the
    nodes without neighbours included, and no other node. *)
Theorem parse_nodes self (m : Matrix) :
  rect (length m) (length m) m →
  ∃ g,
    GraphDrawer.parse self {| matrix := Some m |}
    = ({| GraphDrawer.graph := Some g; GraphDrawer.r := GraphDrawer.r self;
          GraphDrawer.xy := GraphDrawer.xy self;
          GraphDrawer.title := GraphDrawer.title self |}, Ok ())
    ∧ NoDup (nx_nodes g)
    ∧ ∀ k, k ∈ nx_nodes g ↔ 1 ≤ k ≤ Z.of_nat (length m).
Proof.
  intros Hm%tabulate_cell. set (n := length m) in *. set (f := cell m) in *.
  clearbody n f. subst m.
  unfold GraphDrawer.parse. rewrite as_adjacency_list_tabulate.
  eexists. split; [done|]. split.
  - apply add_items_NoDup. constructor.
  - intros k. rewrite add_items_nodes. simpl. rewrite elem_of_nil. split.
    + intros [[]|([a ns] & (i & Hi & -> & ->)%elem_of_adjacency & Hk)].
      simpl in Hk. destruct Hk as [->|(j & Hj & -> & _)%elem_of_neighbours]; lia.
    + intros Hk. right. eexists. split.
      * apply elem_of_adjacency. exists (Z.to_nat (k - 1)).
        split; [lia|]. split; reflexivity.
      * left. simpl. lia.
Qed.

(** Two nodes, no edge. *)
Lemma parse_nodes_witness :
  ∃ g,
    GraphDrawer.parse GraphDrawer.init {| matrix := Some [[0; 0]; [0; 0]] |}
    = ({| GraphDrawer.graph := Some g;
          GraphDrawer.r := GraphDrawer.r GraphDrawer.init;
          GraphDrawer.xy := GraphDrawer.xy GraphDrawer.init;
          GraphDrawer.title := GraphDrawer.title GraphDrawer.init |}, Ok ())
    ∧ NoDup (nx_nodes g)
    ∧ ∀ k, k ∈ nx_nodes g ↔ 1 ≤ k ≤ Z.of_nat 2.
Proof.
  apply (parse_nodes GraphDrawer.init [[0; 0]; [0; 0]]).
  split; [done|]. by repeat constructor.
Defined.

Lemma length_enumerate {A} (l : list A) : length (enumerate l) = length l.
Proof.
  unfold enumerate. rewrite length_zip, length_seq. lia.
Qed.

(** X15: drawing after [parse]. On a graph with at least one node,
    [to_screen] and [to_file] make the calls of the drawing, then show or
    save, then the three calls that reset the plotting state; when
    [plt.savefig] raises, its exception leaves [to_file] and the reset calls
    are not made. On the graph with no node, [__make_pos] divides by zero
    once the reference circle is added: [ZeroDivisionError] is raised,
    nothing is shown or saved and the reset calls are not made. *)
Theorem drawing_after_parse savefig self (m : Matrix) filename :
  ∃ d,
    GraphDrawer.parse self {| matrix := Some m |} = (d, Ok ())
    ∧ if decide (m = []) then
        GraphDrawer.to_screen d
        = ([Circle (GraphDrawer.xy self) (GraphDrawer.r self); Subplots; AddPatch],
           Raise ZeroDivisionError)
        ∧ GraphDrawer.to_file savefig d filename
          = ([Circle (GraphDrawer.xy self) (GraphDrawer.r self); Subplots; AddPatch],
             Raise ZeroDivisionError)
      else
        ∃ g, GraphDrawer.graph d = Some g
          ∧ GraphDrawer.to_screen d
            = ([Circle (GraphDrawer.xy self) (GraphDrawer.r self); Subplots;
                AddPatch; NxDraw g; AxisScaled; Title (GraphDrawer.title self);
                Show; Clf; Cla; Close], Ok ())
          ∧ GraphDrawer.to_file savefig d filename
            = match savefig filename with
              | Ok _ =>
                  ([Circle (GraphDrawer.xy self) (GraphDrawer.r self); Subplots;
                    AddPatch; NxDraw g; AxisScaled;
                    Title (GraphDrawer.title self);
                    Savefig filename; Clf; Cla; Close], Ok ())
              | Raise e =>
                  ([Circle (GraphDrawer.xy self) (GraphDrawer.r self); Subplots;
                    AddPatch; NxDraw g; AxisScaled;
                    Title (GraphDrawer.title self);
                    Savefig filename], Raise e)
              end.
Proof.
  unfold GraphDrawer.parse, as_adjacency_list. cbn [matrix].
  eexists. split; [done|]. case_decide as Hm.
  - subst m. done.
  - set (adj_list := _ <$> enumerate m).
    exists (foldl GraphDrawer.add_item nx_empty adj_list). split; [done|].
    assert (nx_nodes (foldl GraphDrawer.add_item nx_empty adj_list) ≠ []) as Hnodes.
    { destruct adj_list as [|item rest] eqn:Hadj.
      - apply (f_equal length) in Hadj. unfold adj_list in Hadj.
        rewrite length_fmap, length_enumerate in Hadj. by destruct m.
      - intros Hnil.
        assert (item.1 ∈ nx_nodes (foldl GraphDrawer.add_item nx_empty (item :: rest)))
          as Hin.
        { apply add_items_nodes. right. exists item. split; [by left|by left]. }
        rewrite Hnil in Hin. by apply elem_of_nil in Hin. }
    unfold GraphDrawer.to_screen, GraphDrawer.to_file, GraphDrawer.draw. simpl.
    destruct (nx_nodes _); [done|]. split; [done|].
    by destruct (savefig filename).
Qed.

(** A file name whose format [plt.savefig] does not support. *)
Example savefig_raises :
  GraphDrawer.to_file (fun _ => Raise ValueError)
    (GraphDrawer.parse GraphDrawer.init {| matrix := Some [[0]] |}).1 "out.xyz"
  = ([Circle [0%Q; 0%Q] 1%Q; Subplots; AddPatch;
      NxDraw {| nx_nodes := [1]; nx_edges := [] |};
      AxisScaled; Title EmptyString; Savefig "out.xyz"],
     Raise ValueError).
Proof. reflexivity. Qed.

(** ** Reading from files *)

Lemma length_split sep s : length (split sep s) = S (count_char sep s).
Proof.
  induction s as [|c s IH]; [done|]. simpl.
  destruct (Ascii.eqb c sep); simpl; [by rewrite IH|].
  destruct (split sep s) as [|piece pieces]; simpl in *; [done|lia].
Qed.

Lemma forM_length {A B} (f : A → result B) (xs : list A) ys :
  forM f xs = Ok ys → length ys = length xs.
Proof. intros H%forM_Ok_inv. symmetry. by eapply Forall2_length. Qed.

Lemma forM_app {A B} (f : A → result B) (xs1 xs2 : list A) :
  forM f (xs1 ++ xs2)
  = ys1 ← forM f xs1; ys2 ← forM f xs2; Ok (ys1 ++ ys2)%list.
Proof.
  induction xs1 as [|x xs1 IH]; simpl.
  - by destruct (forM f xs2).
  - destruct (f x); simpl; [|done]. rewrite IH.
    destruct (forM f xs1); simpl; [|done]. by destruct (forM f xs2).
Qed.

Lemma adjacency_item_colons int line :
  count_char ":" line ≠ 1%nat → adjacency_item int line = Raise ValueError.
Proof.
  intros Hcount. unfold adjacency_item.
  pose proof (length_split ":" line) as Hlen.
  destruct (split ":" line) as [|index [|rest [|? ?]]]; try done.
  simpl in Hlen. lia.
Qed.

Lemma adjacency_item_Ok_inv int line k neighbours :
  adjacency_item int line = Ok (k, neighbours) →
  count_char ":" line = 1%nat ∧ neighbours ≠ [].
Proof.
  intros H. split.
  - destruct (decide (count_char ":" line = 1%nat)) as [|Hne]; [done|].
    by rewrite adjacency_item_colons in H.
  - revert H. unfold adjacency_item.
    destruct (split ":" line) as [|index [|rest [|? ?]]]; try done.
    destruct (forM int (split " " rest)) as [ns|] eqn:Hns; simpl; [|done].
    destruct (int index); simpl; [|done]. intros [= _ <-].
    apply forM_length in Hns. rewrite length_split in Hns. by destruct ns.
Qed.

(** X16: in an adjacency-list file, a line that does not hold exactly one
    colon cannot be unpacked into index and rest: when the lines before it
    are read without an exception, [from_adjacency_list_file] raises
    [ValueError] and leaves the object as it was. *)
Theorem adjacency_file_colons int self (good rest : list string) bad d :
  parse_adjacency int good = Ok d →
  count_char ":" bad ≠ 1%nat →
  from_adjacency_list_file int self (good ++ bad :: rest)%list
  = (self, Raise ValueError).
Proof.
  intros Hgood Hbad. unfold from_adjacency_list_file, parse_adjacency in *.
  rewrite foldM_app, Hgood. simpl. by rewrite adjacency_item_colons.
Qed.

(** The second line has no colon. *)
Lemma adjacency_file_colons_witness :
  from_adjacency_list_file int_of_digits Graph_init ["1:2"; "2 1"]
  = (Graph_init, Raise ValueError).
Proof.
  apply (adjacency_file_colons int_of_digits Graph_init ["1:2"] [] "2 1" [(1, [2])]).
  - reflexivity.
  - by vm_compute.
Defined.

Lemma dict_set_keys (d : AdjList) k v :
  (dict_set d k v).*1 = if decide (k ∈ d.*1) then d.*1 else (d.*1 ++ [k])%list.
Proof.
  unfold dict_set. case_decide; [|by rewrite fmap_app].
  rewrite <- list_fmap_compose. apply list_fmap_ext.
  intros i item _. simpl. by case_decide.
Qed.

Lemma dict_set_NoDup (d : AdjList) k v : NoDup d.*1 → NoDup (dict_set d k v).*1.
Proof.
  intros Hd. rewrite dict_set_keys. case_decide as Hk; [done|].
  apply NoDup_app. split; [done|]. split; [|apply NoDup_singleton].
  intros x Hx ->%list_elem_of_singleton. done.
Qed.

Lemma elem_of_dict_set (d : AdjList) k v k' v' :
  (k', v') ∈ dict_set d k v
  ↔ (k' = k ∧ v' = v) ∨ (k' ≠ k ∧ (k', v') ∈ d).
Proof.
  unfold dict_set. case_decide as Hk.
  - rewrite list_elem_of_fmap. split.
    + intros ([k0 v0] & Heq & Hin). simpl in Heq. case_decide.
      * injection Heq as -> ->. by left.
      * injection Heq as -> ->. right. done.
    + intros [[-> ->]|[Hne Hin]].
      * apply list_elem_of_fmap in Hk as ([k0 v0] & -> & Hin).
        exists (k0, v0). simpl. by rewrite decide_True.
      * exists (k', v'). simpl. by rewrite decide_False.
  - rewrite elem_of_app, list_elem_of_singleton. split.
    + intros [Hin|[= -> ->]]; [|by left]. right. split; [|done].
      intros ->. apply Hk. by apply (list_elem_of_fmap_2 fst) in Hin.
    + intros [[-> ->]|[_ Hin]]; [by right|by left].
Qed.

(** X17: the dictionary that [from_adjacency_list_file] builds has distinct
    keys, and no key with an empty neighbour list: the text after the colon
    always splits into one piece or more, each of which [int] must accept.
    A node without neighbours has no line of its own in this format. *)
Theorem adjacency_file_dictionary int (lines : list string) (adj_list : AdjList) :
  parse_adjacency int lines = Ok adj_list →
  NoDup adj_list.*1 ∧ Forall (fun item : Z * list Z => item.2 ≠ []) adj_list.
Proof.
  intros H. unfold parse_adjacency in H.
  pose proof (foldM_invariant
                (fun d : AdjList =>
                   NoDup d.*1 ∧ Forall (fun item : Z * list Z => item.2 ≠ []) d)
                (fun _ => True)
                (fun d line => item ← adjacency_item int line;
                               Ok (dict_set d item.1 item.2)) lines []) as Hinv.
  rewrite H in Hinv. apply Hinv; [|split; constructor].
  intros d line _ [Hkeys Hlists].
  destruct (adjacency_item int line) as [[k ns]|] eqn:Hitem; simpl; [|done].
  apply adjacency_item_Ok_inv in Hitem as [_ Hns].
  split; [by apply dict_set_NoDup|].
  apply Forall_forall. intros [k' v'] [[-> ->]|[_ Hin]]%elem_of_dict_set; [done|].
  rewrite Forall_forall in Hlists. by apply (Hlists (k', v')).
Qed.

Lemma adjacency_file_dictionary_witness :
  NoDup [(1, [3]); (2, [1]); (3, [1])].*1
  ∧ Forall (fun item : Z * list Z => item.2 ≠ []) [(1, [3]); (2, [1]); (3, [1])].
Proof.
  apply (adjacency_file_dictionary int_of_digits ["1:2 3"; "2:1"; "3:1"; "1:3"]).
  reflexivity.
Defined.

Lemma parse_adjacency_items int (lines : list string) (d : AdjList) :
  foldM (fun d line => item ← adjacency_item int line;
                       Ok (dict_set d item.1 item.2)) d lines
  = items ← forM (adjacency_item int) lines;
    Ok (foldl (fun d (item : Z * list Z) => dict_set d item.1 item.2) d items).
Proof.
  revert d. induction lines as [|line lines IH]; intros d; simpl; [done|].
  destruct (adjacency_item int line) as [item|]; simpl; [|done].
  rewrite IH. by destruct (forM (adjacency_item int) lines).
Qed.

Lemma foldl_dict_set_NoDup (items d : AdjList) :
  NoDup d.*1 →
  NoDup (foldl (fun d (item : Z * list Z) => dict_set d item.1 item.2) d items).*1.
Proof.
  revert d. induction items as [|item items IH]; intros d Hd; simpl; [done|].
  by apply IH, dict_set_NoDup.
Qed.

(** Two dictionaries that hold the same items at the keys outside [skip]
    still do so after the same assignment. *)
Lemma dict_set_agree (skip : Z → Prop) (d d' : AdjList) k v :
  (∀ k' v', ¬ skip k' → (k', v') ∈ d ↔ (k', v') ∈ d') →
  ∀ k' v', ¬ skip k' → (k', v') ∈ dict_set d k v ↔ (k', v') ∈ dict_set d' k v.
Proof.
  intros H k' v' Hk'. rewrite !elem_of_dict_set. by rewrite (H k' v' Hk').
Qed.

Lemma foldl_dict_set_agree (skip : Z → Prop) (items d d' : AdjList) :
  (∀ k' v', ¬ skip k' → (k', v') ∈ d ↔ (k', v') ∈ d') →
  ∀ k' v', ¬ skip k' →
    (k', v') ∈ foldl (fun d (item : Z * list Z) => dict_set d item.1 item.2) d items
    ↔ (k', v') ∈ foldl (fun d (item : Z * list Z) => dict_set d item.1 item.2) d' items.
Proof.
  revert d d'. induction items as [|item items IH]; intros d d' H; simpl; [done|].
  by apply IH, dict_set_agree.
Qed.

Lemma overwritten_item (items1 items2 items3 : AdjList) k v1 v2 :
  foldl (fun d (item : Z * list Z) => dict_set d item.1 item.2) []
        (items1 ++ (k, v1) :: items2 ++ (k, v2) :: items3)
  ≡ₚ foldl (fun d (item : Z * list Z) => dict_set d item.1 item.2) []
        (items1 ++ items2 ++ (k, v2) :: items3).
Proof.
  apply NoDup_Permutation.
  - eapply NoDup_fmap_1, foldl_dict_set_NoDup. constructor.
  - eapply NoDup_fmap_1, foldl_dict_set_NoDup. constructor.
  - intros [k' v']. rewrite !foldl_app. simpl. rewrite !foldl_app. simpl.
    apply (foldl_dict_set_agree (fun _ => False)); [|tauto].
    intros k0 v0 _. rewrite !elem_of_dict_set.
    destruct (decide (k0 = k)) as [->|Hne]; [tauto|].
    assert ((k0, v0) ∈ foldl (fun d (item : Z * list Z) => dict_set d item.1 item.2)
                (dict_set (foldl (fun d (item : Z * list Z) =>
                                    dict_set d item.1 item.2) [] items1) k v1)
                items2
            ↔ (k0, v0) ∈ foldl (fun d (item : Z * list Z) => dict_set d item.1 item.2)
                (foldl (fun d (item : Z * list Z) =>
                          dict_set d item.1 item.2) [] items1)
                items2) as ->; [|done].
    apply (foldl_dict_set_agree (fun k' => k' = k)); [|done].
    intros k1 v1' Hk1. rewrite elem_of_dict_set. tauto.
Qed.

(** X18: in an adjacency-list file, a later line with the same index
    replaces the earlier one: the earlier line counts for nothing beyond
    having to be readable, and the call does what it does on the file
    without that line. *)
Theorem adjacency_file_last_line_wins int self
    (lines1 lines2 lines3 : list string) line1 line2 k v1 v2 :
  adjacency_item int line1 = Ok (k, v1) →
  adjacency_item int line2 = Ok (k, v2) →
  from_adjacency_list_file int self
    (lines1 ++ line1 :: lines2 ++ line2 :: lines3)%list
  = from_adjacency_list_file int self (lines1 ++ lines2 ++ line2 :: lines3)%list.
Proof.
  intros H1 H2. unfold from_adjacency_list_file, parse_adjacency.
  rewrite !parse_adjacency_items, !forM_app. simpl. rewrite !forM_app. simpl.
  rewrite H1, H2.
  destruct (forM (adjacency_item int) lines1) as [items1|]; simpl; [|done].
  destruct (forM (adjacency_item int) lines2) as [items2|]; simpl; [|done].
  destruct (forM (adjacency_item int) lines3) as [items3|]; simpl; [|done].
  pose proof (overwritten_item items1 items2 items3 k v1 v2) as Hperm.
  apply from_adjacency_list_by_listings.
  - by rewrite Hperm.
  - unfold listings. by rewrite Hperm.
Qed.

(** Node 1 is given twice; only its second line counts. *)
Lemma adjacency_file_last_line_wins_witness :
  from_adjacency_list_file int_of_digits Graph_init ["1:2 3"; "2:1"; "1:2"]
  = from_adjacency_list_file int_of_digits Graph_init ["2:1"; "1:2"].
Proof.
  apply (adjacency_file_last_line_wins int_of_digits Graph_init
           [] ["2:1"] [] "1:2 3" "1:2" 1 [2; 3] [2]); reflexivity.
Defined.

Lemma parse_matrix_Ok_inv int (lines : list string) (m : Matrix) :
  parse_matrix int lines = Ok m →
  length m = length lines
  ∧ Forall2 (fun line row => length row = S (count_char " " line)) lines m.
Proof.
  intros H. split; [by apply forM_length in H|].
  apply forM_Ok_inv in H. eapply Forall2_impl; [exact H|].
  intros line row Hrow. apply forM_length in Hrow. by rewrite length_split in Hrow.
Qed.

Lemma np_array_Ok_rows (m : Matrix) a :
  np_array m = Ok a → ∃ e, Forall (fun row => length row = e) m.
Proof.
  destruct m as [|r m]; [by exists 0%nat|]. unfold np_array.
  destruct (forallb _ _) eqn:Hall; [|done]. intros _. exists (length r).
  apply Forall_forall. intros row Hrow%list_elem_of_In.
  rewrite forallb_forall in Hall. by apply Nat.eqb_eq, Hall.
Qed.

Lemma add_edge_rect n c (m m' : Matrix) edge :
  add_edge m edge = Ok m' → rect n c m → rect n c m'.
Proof.
  unfold add_edge. case_decide; [done|].
  destruct (getitem _ 0) as [a|]; simpl; [|done].
  destruct (getitem _ 1) as [b|]; simpl; [|done].
  destruct (increment m _ _) as [m1|] eqn:H1; simpl; [|done].
  intros H2 Hm. eapply increment_rect; [exact H2|]. by eapply increment_rect.
Qed.

(** X19: a file that [from_neighbourhood_matrix_file] accepts has exactly
    one space less on every line than it has lines: the pieces between the
    spaces are the entries of a row, empty pieces included, and the rows
    make a square matrix, which is stored with one row per line. *)
Theorem neighbourhood_file_accepted int self self' (lines : list string) :
  from_neighbourhood_matrix_file int self lines = (self', Ok ()) →
  ∃ m, matrix self' = Some m ∧ rect (length lines) (length lines) m
       ∧ Forall (fun line => S (count_char " " line) = length lines) lines.
Proof.
  unfold from_neighbourhood_matrix_file, from_neighbourhood_matrix.
  destruct (parse_matrix int lines) as [m|] eqn:Hparse; [|done].
  intros (-> & m' & [= <-] & Hm)%validate_Ok_inv.
  apply parse_matrix_Ok_inv in Hparse as [Hlen Hrows].
  exists m. split; [done|]. rewrite <- Hlen.
  split; [by apply checked_square|].
  destruct (checked_square m Hm) as [_ Hsquare].
  apply Forall_forall. intros line [i Hline]%list_elem_of_lookup.
  destruct (Forall2_lookup_l _ _ _ _ _ Hrows Hline) as (row & Hrow & <-).
  by apply (Forall_lookup_1 _ _ _ _ Hsquare Hrow).
Qed.

(** The path 2-1-3 as a file of three lines. *)
Lemma neighbourhood_file_accepted_witness :
  ∃ m, matrix {| matrix := Some [[0; 1; 1]; [1; 0; 0]; [1; 0; 0]] |} = Some m
       ∧ rect (length ["0 1 1"; "1 0 0"; "1 0 0"])
              (length ["0 1 1"; "1 0 0"; "1 0 0"]) m
       ∧ Forall (fun line => S (count_char " " line)
                             = length ["0 1 1"; "1 0 0"; "1 0 0"])
                ["0 1 1"; "1 0 0"; "1 0 0"].
Proof.
  apply (neighbourhood_file_accepted int_of_digits Graph_init). reflexivity.
Defined.

(** X20: a file that [from_incidence_matrix_file] accepts has the same
    number of spaces on every line, and the graph stored has one node per
    line of the file. *)
Theorem incidence_file_accepted int self self' (lines : list string) :
  from_incidence_matrix_file int self lines = (self', Ok ()) →
  ∃ m e, matrix self' = Some m ∧ rect (length lines) (length lines) m
         ∧ Forall (fun line => S (count_char " " line) = e) lines.
Proof.
  unfold from_incidence_matrix_file, from_incidence_matrix.
  destruct (parse_matrix int lines) as [inc_matrix|] eqn:Hparse; [|done].
  apply parse_matrix_Ok_inv in Hparse as [Hlen Hrows].
  destruct (np_array inc_matrix) as [inc|] eqn:Hinc; simpl; [|done].
  apply np_array_Ok_rows in Hinc as [e He].
  pose proof (foldM_invariant
                (rect (length inc_matrix) (length inc_matrix)) (fun _ => True)
                add_edge (rows (np_transpose inc))
                (zeros (length inc_matrix) (Z.of_nat (length inc_matrix))))
    as Hinv.
  destruct (foldM add_edge _ _) as [m|]; [|done].
  intros (-> & m' & [= <-] & Hm)%validate_Ok_inv.
  exists m, e. split; [done|]. split.
  - rewrite <- Hlen. apply Hinv; [|apply rect_zeros].
    intros a edge _ Ha. destruct (add_edge a edge) eqn:Hadd; [|done].
    by eapply add_edge_rect.
  - apply Forall_forall. intros line [i Hline]%list_elem_of_lookup.
    destruct (Forall2_lookup_l _ _ _ _ _ Hrows Hline) as (row & Hrow & <-).
    by apply (Forall_lookup_1 _ _ _ _ He Hrow).
Qed.

(** The path 2-1-3 as a file: three nodes, two edges. *)
Lemma incidence_file_accepted_witness :
  ∃ m e, matrix {| matrix := Some [[0; 1; 1]; [1; 0; 0]; [1; 0; 0]] |} = Some m
         ∧ rect (length ["1 1"; "1 0"; "0 1"]) (length ["1 1"; "1 0"; "0 1"]) m
         ∧ Forall (fun line => S (count_char " " line) = e) ["1 1"; "1 0"; "0 1"].
Proof.
  apply (incidence_file_accepted int_of_digits Graph_init). reflexivity.
Defined.

(** ** The edges that [parse] builds, and the title *)

Lemma nx_add_node_edges (g : nx_Graph) n : nx_edges (nx_add_node g n) = nx_edges g.
Proof. unfold nx_add_node. by case_decide. Qed.

Lemma nx_add_edge_has_edge (g : nx_Graph) u v a b :
  nx_has_edge (nx_add_edge g u v) a b
  ↔ nx_has_edge g a b ∨ (a = u ∧ b = v) ∨ (a = v ∧ b = u).
Proof.
  unfold nx_has_edge, nx_add_edge. rewrite !nx_add_node_edges.
  case_decide as Hg; simpl; rewrite ?nx_add_node_edges.
  - split; [by left|]. intros [?|[[-> ->]|[-> ->]]]; tauto.
  - rewrite !elem_of_app, !list_elem_of_singleton. split.
    + intros [[?|[= -> ->]]|[?|[= -> ->]]]; tauto.
    + intros [[?|?]|[[-> ->]|[-> ->]]]; tauto.
Qed.

Lemma unordered_eq (p q : Z * Z) :
  unordered p = unordered q → q = p ∨ q = (p.2, p.1).
Proof.
  destruct p as [a b], q as [c d]. unfold unordered. simpl. intros [= Hmin Hmax].
  assert ((c = a ∧ d = b) ∨ (c = b ∧ d = a)) as [[-> ->]|[-> ->]] by lia; auto.
Qed.

Lemma nx_add_edge_edges_NoDup (g : nx_Graph) u v :
  NoDup (unordered <$> nx_edges g) →
  NoDup (unordered <$> nx_edges (nx_add_edge g u v)).
Proof.
  intros Hg. unfold nx_add_edge. rewrite !nx_add_node_edges.
  case_decide as Hin; simpl; rewrite ?nx_add_node_edges; [done|].
  rewrite fmap_app. apply NoDup_app. split; [done|].
  split; [|apply NoDup_singleton].
  intros x (q & -> & Hq)%list_elem_of_fmap (q' & Heq & ->%list_elem_of_singleton)%list_elem_of_fmap.
  symmetry in Heq.
  apply unordered_eq in Heq as [->| ->]; apply Hin; [by left|by right].
Qed.

Lemma add_edges_has_edge (g : nx_Graph) u (ns : list Z) a b :
  nx_has_edge (foldl (fun g neigh => nx_add_edge g u neigh) g ns) a b
  ↔ nx_has_edge g a b ∨ (a = u ∧ b ∈ ns) ∨ (b = u ∧ a ∈ ns).
Proof.
  revert g. induction ns as [|v ns IH]; intros g; simpl.
  - rewrite !elem_of_nil. tauto.
  - rewrite IH, nx_add_edge_has_edge, !elem_of_cons. split.
    + intros [[?|[[-> ->]|[-> ->]]]|[[-> ?]|[-> ?]]]; auto.
    + intros [?|[[-> [->|?]]|[-> [->|?]]]]; auto.
Qed.

Lemma add_edges_edges_NoDup (g : nx_Graph) u (ns : list Z) :
  NoDup (unordered <$> nx_edges g) →
  NoDup (unordered <$> nx_edges (foldl (fun g neigh => nx_add_edge g u neigh) g ns)).
Proof.
  revert g. induction ns as [|v ns IH]; intros g Hg; simpl; [done|].
  by apply IH, nx_add_edge_edges_NoDup.
Qed.

Lemma add_item_has_edge (g : nx_Graph) (item : Z * list Z) a b :
  nx_has_edge (GraphDrawer.add_item g item) a b
  ↔ nx_has_edge g a b ∨ (a = item.1 ∧ b ∈ item.2) ∨ (b = item.1 ∧ a ∈ item.2).
Proof.
  unfold GraphDrawer.add_item. destruct item as [u [|v ns]]; simpl.
  - unfold nx_has_edge. rewrite nx_add_node_edges, !elem_of_nil. tauto.
  - rewrite (add_edges_has_edge _ u ns), nx_add_edge_has_edge, !elem_of_cons.
    split.
    + intros [[?|[[-> ->]|[-> ->]]]|[[-> ?]|[-> ?]]]; auto.
    + intros [?|[[-> [->|?]]|[-> [->|?]]]]; auto.
Qed.

Lemma add_item_edges_NoDup (g : nx_Graph) (item : Z * list Z) :
  NoDup (unordered <$> nx_edges g) →
  NoDup (unordered <$> nx_edges (GraphDrawer.add_item g item)).
Proof.
  intros Hg. unfold GraphDrawer.add_item. destruct item as [u [|v ns]]; simpl.
  - by rewrite nx_add_node_edges.
  - by apply add_edges_edges_NoDup, nx_add_edge_edges_NoDup.
Qed.

Lemma add_items_has_edge (g : nx_Graph) (adj_list : AdjList) a b :
  nx_has_edge (foldl GraphDrawer.add_item g adj_list) a b
  ↔ nx_has_edge g a b
    ∨ ∃ item, item ∈ adj_list
              ∧ ((a = item.1 ∧ b ∈ item.2) ∨ (b = item.1 ∧ a ∈ item.2)).
Proof.
  revert g. induction adj_list as [|item adj_list IH]; intros g; simpl.
  - split; [by left|]. intros [?|(item & Hin & _)]; [done|].
    by apply elem_of_nil in Hin.
  - rewrite IH, add_item_has_edge. split.
    + intros [[?|?]|(item' & Hin & ?)]; [by left| |].
      * right. exists item. split; [by left|done].
      * right. exists item'. split; [by right|done].
    + intros [?|(item' & [->|Hin]%elem_of_cons & ?)]; [by left; left| |].
      * left. by right.
      * right. by exists item'.
Qed.

Lemma add_items_edges_NoDup (g : nx_Graph) (adj_list : AdjList) :
  NoDup (unordered <$> nx_edges g) →
  NoDup (unordered <$> nx_edges (foldl GraphDrawer.add_item g adj_list)).
Proof.
  revert g. induction adj_list as [|item adj_list IH]; intros g Hg; simpl; [done|].
  by apply IH, add_item_edges_NoDup.
Qed.

(** X21: for a graph that holds a square matrix, the graph that [parse]
    hands to the drawing has an edge between two nodes exactly when the
    matrix holds a 1 between them in one direction or the other: entries
    other than 1 give no edge, and a matrix that is not symmetric is drawn
    as if it were. No edge is stored twice, in one direction or in both:
    without their direction, the edges recorded are distinct. *)
Theorem parse_edges self (m : Matrix) :
  rect (length m) (length m) m →
  ∃ g,
    GraphDrawer.parse self {| matrix := Some m |}
    = ({| GraphDrawer.graph := Some g; GraphDrawer.r := GraphDrawer.r self;
          GraphDrawer.xy := GraphDrawer.xy self;
          GraphDrawer.title := GraphDrawer.title self |}, Ok ())
    ∧ NoDup (unordered <$> nx_edges g)
    ∧ ∀ a b, nx_has_edge g a b
             ↔ ∃ i j, (i < length m)%nat ∧ (j < length m)%nat
                      ∧ a = Z.of_nat i + 1 ∧ b = Z.of_nat j + 1
                      ∧ (cell m i j = 1 ∨ cell m j i = 1).
Proof.
  intros Hm. pose proof (tabulate_cell _ _ _ Hm) as Heq.
  set (n := length m) in *. set (f := cell m) in *. clearbody n f. subst m.
  unfold GraphDrawer.parse. rewrite as_adjacency_list_tabulate.
  eexists. split; [done|]. split.
  - apply add_items_edges_NoDup. constructor.
  - intros a b. rewrite add_items_has_edge. unfold nx_has_edge at 1. simpl.
    rewrite !elem_of_nil. split.
    + intros [[[]|[]]|([k ns] & (i & Hi & -> & ->)%elem_of_adjacency & Hk)].
      simpl in Hk.
      destruct Hk as [[-> (j & Hj & -> & Hf)%elem_of_neighbours]
                     |[-> (j & Hj & -> & Hf)%elem_of_neighbours]].
      * exists i, j. auto 10.
      * exists j, i. auto 10.
    + intros (i & j & Hi & Hj & -> & -> & [Hf|Hf]); right.
      * eexists. split; [apply elem_of_adjacency; exists i; by repeat split|].
        left. simpl. split; [done|]. apply elem_of_neighbours. by exists j.
      * eexists. split; [apply elem_of_adjacency; exists j; by repeat split|].
        right. simpl. split; [done|]. apply elem_of_neighbours. by exists i.
Qed.

(** A matrix that [validate] would refuse: one direction only, and a 2. *)
Lemma parse_edges_witness :
  ∃ g,
    GraphDrawer.parse GraphDrawer.init
      {| matrix := Some [[0; 1; 2]; [0; 0; 0]; [0; 0; 0]] |}
    = ({| GraphDrawer.graph := Some g;
          GraphDrawer.r := GraphDrawer.r GraphDrawer.init;
          GraphDrawer.xy := GraphDrawer.xy GraphDrawer.init;
          GraphDrawer.title := GraphDrawer.title GraphDrawer.init |}, Ok ())
    ∧ NoDup (unordered <$> nx_edges g)
    ∧ ∀ a b, nx_has_edge g a b
             ↔ ∃ i j, (i < 3)%nat ∧ (j < 3)%nat
                      ∧ a = Z.of_nat i + 1 ∧ b = Z.of_nat j + 1
                      ∧ (cell [[0; 1; 2]; [0; 0; 0]; [0; 0; 0]] i j = 1
                         ∨ cell [[0; 1; 2]; [0; 0; 0]; [0; 0; 0]] j i = 1).
Proof.
  apply (parse_edges GraphDrawer.init [[0; 1; 2]; [0; 0; 0]; [0; 0; 0]]).
  split; [done|]. by repeat constructor.
Defined.

(** X22: [with_title] and [parse] can be called in either order: the title
    is kept by [parse], the graph by [with_title], and of two titles the
    last one set is the one drawn. *)
Theorem title_and_parse_commute self (g : Graph) (t t' : string) :
  GraphDrawer.parse (GraphDrawer.with_title self t) g
  = (GraphDrawer.with_title (GraphDrawer.parse self g).1 t,
     (GraphDrawer.parse self g).2)
  ∧ GraphDrawer.with_title (GraphDrawer.with_title self t') t
    = GraphDrawer.with_title self t
  ∧ ∀ calls, GraphDrawer.to_screen (GraphDrawer.with_title self t) = (calls, Ok ()) →
             Title t ∈ calls ∧ ∀ s, Title s ∈ calls → s = t.
Proof.
  split; [|split; [done|]].
  - unfold GraphDrawer.parse. by destruct (as_adjacency_list g).
  - intros calls. unfold GraphDrawer.to_screen, GraphDrawer.draw. simpl.
    destruct (GraphDrawer.graph self) as [g'|]; [|done].
    destruct (nx_nodes g'); [done|]. intros [= <-]. split.
    + rewrite !elem_of_cons. auto 10.
    + intros s. unfold GraphDrawer.plt_close.
      rewrite !elem_of_cons, !elem_of_nil.
      intros H. decompose [or] H; try discriminate; [congruence|done].
Qed.

(** X23: an incidence matrix with two rows of different lengths is refused
    by [np.array] with [ValueError], before any edge is read, and the
    object keeps what it held. *)
Theorem ragged_incidence_matrix self (inc_matrix : Matrix) row row' :
  row ∈ inc_matrix → row' ∈ inc_matrix → length row ≠ length row' →
  from_incidence_matrix self inc_matrix = (self, Raise ValueError).
Proof.
  intros Hrow Hrow' Hne. unfold from_incidence_matrix.
  by rewrite (np_array_ragged _ _ _ Hrow Hrow' Hne).
Qed.

Lemma ragged_incidence_matrix_witness :
  from_incidence_matrix {| matrix := Some [[0]] |} [[1; 1]; [1]]
  = ({| matrix := Some [[0]] |}, Raise ValueError).
Proof.
  apply (ragged_incidence_matrix _ [[1; 1]; [1]] [1; 1] [1]).
  - by left.
  - right. by left.
  - by vm_compute.
Defined.
